(** * Admission layer of the jimeng-api gateway

    A shallow embedding of [src/lib/session-rate-limiter.ts] (the
    per-credential rate limiter, local and Redis-backed) and of the
    asynchronous branch of the [/v1/videos/generations] route, together
    with the properties the specification states about them. *)

From stdpp Require Import gmap strings list fin_maps pretty.
From Stdlib Require Import ZArith Lia.

Local Open Scope string_scope.
Local Open Scope Z_scope.

(** ** Configuration: the constructor of [SessionRateLimiter] *)

Module Config.

(** The environment the constructor reads.  A numeric variable is kept as
    the outcome of [Number.parseInt(value || "", 10)]: [None] when the
    variable is unset or does not parse to a finite number. *)
Record ProcessEnv := {
  SESSION_RATE_LIMIT_ENABLED : option string;
  SESSION_MIN_INTERVAL_MS : option Z;
  SESSION_MAX_CONCURRENT : option Z;
  SESSION_MAX_QUEUE_PER_SESSION : option Z;
  SESSION_QUEUE_TIMEOUT_MS : option Z;
  REDIS_URL : string;  (* (process.env.REDIS_URL || "").trim() *)
  SESSION_RATE_LIMIT_DISTRIBUTED : option string;
  SESSION_INFLIGHT_TTL_MS : option Z;
  SESSION_REDIS_POLL_INTERVAL_MS : option Z
}.

Definition parseIntWithDefault (parsed : option Z) (fallback : Z) : Z :=
  match parsed with
  | Some n => n
  | None => fallback
  end.

(** [process.env.X !== "false"] *)
Definition not_false (v : option string) : bool :=
  match v with
  | Some x => negb (String.eqb x "false")
  | None => true
  end.

Record Settings := {
  enabled : bool;
  minIntervalMs : Z;
  maxConcurrent : Z;
  maxQueuePerSession : Z;
  queueTimeoutMs : Z;
  useRedisDistributed : bool;
  redisUrl : string;
  inflightTtlMs : Z;
  redisPollIntervalMs : Z
}.

Definition constructor (env : ProcessEnv) : Settings :=
  {| enabled := not_false (SESSION_RATE_LIMIT_ENABLED env);
     minIntervalMs := Z.max 0 (parseIntWithDefault (SESSION_MIN_INTERVAL_MS env) 200);
     maxConcurrent := Z.max 1 (parseIntWithDefault (SESSION_MAX_CONCURRENT env) 20);
     maxQueuePerSession :=
       Z.max 1 (parseIntWithDefault (SESSION_MAX_QUEUE_PER_SESSION env) 2000);
     queueTimeoutMs := Z.max 1000 (parseIntWithDefault (SESSION_QUEUE_TIMEOUT_MS env) 120000);
     useRedisDistributed :=
       not_false (SESSION_RATE_LIMIT_DISTRIBUTED env)
       && (0 <? Z.of_nat (String.length (REDIS_URL env)));
     redisUrl := REDIS_URL env;
     inflightTtlMs := Z.max 10000 (parseIntWithDefault (SESSION_INFLIGHT_TTL_MS env) 120000);
     redisPollIntervalMs :=
       Z.max 20 (parseIntWithDefault (SESSION_REDIS_POLL_INTERVAL_MS env) 60) |}.

(** An environment with nothing set: every default applies. *)
Definition default_env : ProcessEnv :=
  {| SESSION_RATE_LIMIT_ENABLED := None;
     SESSION_MIN_INTERVAL_MS := None;
     SESSION_MAX_CONCURRENT := None;
     SESSION_MAX_QUEUE_PER_SESSION := None;
     SESSION_QUEUE_TIMEOUT_MS := None;
     REDIS_URL := "";
     SESSION_RATE_LIMIT_DISTRIBUTED := None;
     SESSION_INFLIGHT_TTL_MS := None;
     SESSION_REDIS_POLL_INTERVAL_MS := None |}.

(** What the clamps of the constructor guarantee. *)
Record well_formed (cfg : Settings) : Prop := {
  wf_interval : 0 <= minIntervalMs cfg;
  wf_concurrent : 1 <= maxConcurrent cfg;
  wf_queue : 1 <= maxQueuePerSession cfg;
  wf_timeout : 1000 <= queueTimeoutMs cfg;
  wf_ttl : 10000 <= inflightTtlMs cfg;
  wf_poll : 20 <= redisPollIntervalMs cfg
}.

End Config.

(** ** Errors thrown by the limiter *)

Record Error := { message : string }.

Definition maskSession (sessionId : string) : string :=
  if String.eqb sessionId "" then "unknown"
  else if (String.length sessionId <=? 10)%nat then "***"
  else String.substring 0 4 sessionId +:+ "***"
       +:+ String.substring (String.length sessionId - 4) 4 sessionId.

Definition overflowError (sessionId : string) (limit : Z) : Error :=
  {| message := "[SessionRateLimiter] session queue overflow for "
                +:+ maskSession sessionId +:+ " (limit=" +:+ pretty limit +:+ ")" |}.

Definition timeoutError (sessionId : string) (ms : Z) : Error :=
  {| message := "[SessionRateLimiter] wait timeout for "
                +:+ maskSession sessionId +:+ " (" +:+ pretty ms +:+ "ms)" |}.

(** ** The Redis store and the two Lua scripts *)

Module Redis.

(** A key holds an integer (Redis keeps it as a decimal string) and the
    server time at which it expires, if it has a time to live. *)
Record Entry := { value : Z; expireAt : option Z }.

(** The server treats a key as expired once its clock is past [expireAt]:
    at the instant [expireAt] itself the key is still read. *)
Definition live (t : Z) (e : Entry) : bool :=
  match expireAt e with
  | Some x => t <=? x
  | None => true
  end.

(** The commands the scripts use, at server time [t]. *)
Definition GET (t : Z) (key : string) (db : gmap string Entry) : option Z :=
  match db !! key with
  | Some e => if live t e then Some (value e) else None
  | None => None
  end.

Definition SET_PX (t : Z) (key : string) (v ttl : Z) (db : gmap string Entry)
  : gmap string Entry :=
  <[key := {| value := v; expireAt := Some (t + ttl) |}]> db.

Definition INCR (t : Z) (key : string) (db : gmap string Entry)
  : Z * gmap string Entry :=
  match db !! key with
  | Some e =>
      if live t e
      then (value e + 1, <[key := {| value := value e + 1; expireAt := expireAt e |}]> db)
      else (1, <[key := {| value := 1; expireAt := None |}]> db)
  | None => (1, <[key := {| value := 1; expireAt := None |}]> db)
  end.

Definition DECR (t : Z) (key : string) (db : gmap string Entry)
  : Z * gmap string Entry :=
  match db !! key with
  | Some e =>
      if live t e
      then (value e - 1, <[key := {| value := value e - 1; expireAt := expireAt e |}]> db)
      else (-1, <[key := {| value := -1; expireAt := None |}]> db)
  | None => (-1, <[key := {| value := -1; expireAt := None |}]> db)
  end.

Definition PEXPIRE (t : Z) (key : string) (ttl : Z) (db : gmap string Entry)
  : gmap string Entry :=
  match db !! key with
  | Some e =>
      if live t e then <[key := {| value := value e; expireAt := Some (t + ttl) |}]> db
      else db
  | None => db
  end.

Definition DEL (key : string) (db : gmap string Entry) : gmap string Entry :=
  delete key db.

(** The reply table of the acquire script: [{granted, reason, waitMs, inflight}]. *)
Record Reply := {
  granted : Z;
  reason : string;
  waitMs : Z;
  inflight : Z
}.

Definition REDIS_ACQUIRE_SCRIPT (t : Z) (inflightKey intervalKey : string)
    (nowMs minIntervalMs maxConcurrent inflightTtlMs intervalTtlMs : Z)
    (db : gmap string Entry) : Reply * gmap string Entry :=
  let inflight := default 0 (GET t inflightKey db) in
  if inflight >=? maxConcurrent then
    ({| granted := 0; reason := "concurrency"; waitMs := 0; inflight := inflight |}, db)
  else
    let nextAllowedAt := default 0 (GET t intervalKey db) in
    if nextAllowedAt >? nowMs then
      ({| granted := 0; reason := "interval"; waitMs := nextAllowedAt - nowMs;
          inflight := inflight |}, db)
    else
      let db1 := SET_PX t intervalKey (nowMs + minIntervalMs) intervalTtlMs db in
      let '(newInflight, db2) := INCR t inflightKey db1 in
      let db3 := PEXPIRE t inflightKey inflightTtlMs db2 in
      ({| granted := 1; reason := "ok"; waitMs := 0; inflight := newInflight |}, db3).

Definition REDIS_RELEASE_SCRIPT (t : Z) (inflightKey : string) (db : gmap string Entry)
  : Z * gmap string Entry :=
  let inflight := default 0 (GET t inflightKey db) in
  if inflight <=? 1 then (0, DEL inflightKey db)
  else DECR t inflightKey db.

Definition REDIS_KEY_PREFIX : string := "jimeng:session_rl".

Section Keys.
(** [createHash("sha1").update(sessionId).digest("hex")], a parameter. *)
Variable sha1_hex : string -> string.

Definition getRedisKeys (sessionId : string) : string * string :=
  let digest := sha1_hex sessionId in
  (REDIS_KEY_PREFIX +:+ ":inflight:" +:+ digest,
   REDIS_KEY_PREFIX +:+ ":next:" +:+ digest).
End Keys.

End Redis.

(** ** Local mode: buckets, waiters, timers and the event loop *)

Module Local.

(** [QueueWaiter].  [resolve] and [reject] settle the promise that
    [acquireLocal] returned; the promise is named by [wid] and its outcome
    is kept in [promises] below.  JavaScript compares waiters by identity
    ([indexOf]); here identity is [wid]. *)
Record QueueWaiter := { wid : nat; timeoutHandle : option nat }.

(** [SessionBucket].  [timer] is the handle of the pending retry timer. *)
Record SessionBucket := {
  active : Z;
  lastStartedAt : Z;
  queue : list QueueWaiter;
  timer : option nat
}.

(** The object [getBucket] creates. *)
Definition created : SessionBucket :=
  {| active := 0; lastStartedAt := 0; queue := []; timer := None |}.

(** The two closures handed to [setTimeout].  Each captures the session id
    and the bucket object (a heap address), the first also its waiter. *)
Inductive Callback :=
| WaiterTimeout (sessionId : string) (bucket : nat) (waiter : nat)
| RetryTimer (sessionId : string) (bucket : nat).

Record Timer := { delay : Z; callback : Callback }.

(** The closure [release] built at a grant: the captured session id and
    bucket, and its [released] flag.  [rc_startedAt] is ghost: the value
    [bucket.lastStartedAt] received at this grant. *)
Record ReleaseClosure := {
  rc_session : string;
  rc_bucket : nat;
  rc_released : bool;
  rc_startedAt : Z
}.

Inductive Settled :=
| Resolved (release : nat)
| Rejected (e : Error).

(** The limiter and the part of the JavaScript runtime it lives in. *)
Record Limiter := {
  buckets : gmap string nat;          (* this.buckets: session id -> bucket object *)
  heap : gmap nat SessionBucket;      (* the bucket objects, by address *)
  owner : gmap nat string;            (* ghost: the session id a bucket was created for *)
  nextBucket : nat;
  timers : gmap nat Timer;            (* pending setTimeout callbacks, by handle *)
  nextHandle : nat;
  promises : gmap nat Settled;        (* settled acquireLocal promises, by waiter *)
  nextWaiter : nat;
  releases : list ReleaseClosure;     (* the release closures, in order of creation *)
  clock : Z;                          (* the last value Date.now() returned *)
  reads : nat                         (* how many times Date.now() was read *)
}.

Definition init (start : Z) : Limiter :=
  {| buckets := ∅; heap := ∅; owner := ∅; nextBucket := 0; timers := ∅;
     nextHandle := 0; promises := ∅; nextWaiter := 0; releases := [];
     clock := start; reads := 0 |}.

Definition deref (s : Limiter) (bucket : nat) : SessionBucket :=
  default created (heap s !! bucket).

Definition upd_heap (f : gmap nat SessionBucket -> gmap nat SessionBucket) (s : Limiter)
  : Limiter :=
  {| buckets := buckets s; heap := f (heap s); owner := owner s;
     nextBucket := nextBucket s; timers := timers s; nextHandle := nextHandle s;
     promises := promises s; nextWaiter := nextWaiter s; releases := releases s;
     clock := clock s; reads := reads s |}.

Definition upd_buckets (f : gmap string nat -> gmap string nat) (s : Limiter) : Limiter :=
  {| buckets := f (buckets s); heap := heap s; owner := owner s;
     nextBucket := nextBucket s; timers := timers s; nextHandle := nextHandle s;
     promises := promises s; nextWaiter := nextWaiter s; releases := releases s;
     clock := clock s; reads := reads s |}.

Definition upd_timers (f : gmap nat Timer -> gmap nat Timer) (s : Limiter) : Limiter :=
  {| buckets := buckets s; heap := heap s; owner := owner s;
     nextBucket := nextBucket s; timers := f (timers s); nextHandle := nextHandle s;
     promises := promises s; nextWaiter := nextWaiter s; releases := releases s;
     clock := clock s; reads := reads s |}.

Definition upd_promises (f : gmap nat Settled -> gmap nat Settled) (s : Limiter) : Limiter :=
  {| buckets := buckets s; heap := heap s; owner := owner s;
     nextBucket := nextBucket s; timers := timers s; nextHandle := nextHandle s;
     promises := f (promises s); nextWaiter := nextWaiter s; releases := releases s;
     clock := clock s; reads := reads s |}.

Definition upd_releases (f : list ReleaseClosure -> list ReleaseClosure) (s : Limiter)
  : Limiter :=
  {| buckets := buckets s; heap := heap s; owner := owner s;
     nextBucket := nextBucket s; timers := timers s; nextHandle := nextHandle s;
     promises := promises s; nextWaiter := nextWaiter s; releases := f (releases s);
     clock := clock s; reads := reads s |}.

(** Field updates of a bucket object, in place. *)
Definition with_active (a : Z) (b : SessionBucket) : SessionBucket :=
  {| active := a; lastStartedAt := lastStartedAt b; queue := queue b; timer := timer b |}.
Definition with_lastStartedAt (t : Z) (b : SessionBucket) : SessionBucket :=
  {| active := active b; lastStartedAt := t; queue := queue b; timer := timer b |}.
Definition with_queue (q : list QueueWaiter) (b : SessionBucket) : SessionBucket :=
  {| active := active b; lastStartedAt := lastStartedAt b; queue := q; timer := timer b |}.
Definition with_timer (h : option nat) (b : SessionBucket) : SessionBucket :=
  {| active := active b; lastStartedAt := lastStartedAt b; queue := queue b; timer := h |}.

Definition upd_bucket (bucket : nat) (f : SessionBucket -> SessionBucket) (s : Limiter)
  : Limiter :=
  upd_heap <[bucket := f (deref s bucket)]> s.

(** [setTimeout(cb, ms)] returns a fresh handle; [clearTimeout(h)] drops it. *)
Definition setTimeout (cb : Callback) (ms : Z) (s : Limiter) : nat * Limiter :=
  (nextHandle s,
   {| buckets := buckets s; heap := heap s; owner := owner s;
      nextBucket := nextBucket s;
      timers := <[nextHandle s := {| delay := ms; callback := cb |}]> (timers s);
      nextHandle := S (nextHandle s);
      promises := promises s; nextWaiter := nextWaiter s; releases := releases s;
      clock := clock s; reads := reads s |}).

Definition clearTimeout (h : nat) (s : Limiter) : Limiter := upd_timers (delete h) s.

(** A promise settles once; later calls of [resolve] or [reject] do nothing. *)
Definition settle (w : nat) (o : Settled) (s : Limiter) : Limiter :=
  match promises s !! w with
  | Some _ => s
  | None => upd_promises <[w := o]> s
  end.

Definition new_waiter (s : Limiter) : nat * Limiter :=
  (nextWaiter s,
   {| buckets := buckets s; heap := heap s; owner := owner s;
      nextBucket := nextBucket s; timers := timers s; nextHandle := nextHandle s;
      promises := promises s; nextWaiter := S (nextWaiter s); releases := releases s;
      clock := clock s; reads := reads s |}).

Definition elapse (ms : nat) (s : Limiter) : Limiter :=
  {| buckets := buckets s; heap := heap s; owner := owner s;
     nextBucket := nextBucket s; timers := timers s; nextHandle := nextHandle s;
     promises := promises s; nextWaiter := nextWaiter s; releases := releases s;
     clock := clock s + Z.of_nat ms; reads := reads s |}.

(** [bucket.queue.indexOf(waiter)] *)
Fixpoint indexOf (q : list QueueWaiter) (w : nat) : option nat :=
  match q with
  | [] => None
  | x :: q' => if Nat.eqb (wid x) w then Some O else S <$> indexOf q' w
  end.

(** Counting release closures: [count p l] is how many closures of [l]
    satisfy [p]. *)
Fixpoint count (p : ReleaseClosure -> bool) (l : list ReleaseClosure) : Z :=
  match l with
  | [] => 0
  | c :: l' => (if p c then 1 else 0) + count p l'
  end.

Definition holds_bucket (bucket : nat) (c : ReleaseClosure) : bool :=
  negb (rc_released c) && Nat.eqb (rc_bucket c) bucket.

Definition holds_session (sessionId : string) (c : ReleaseClosure) : bool :=
  negb (rc_released c) && String.eqb (rc_session c) sessionId.

(** The granted and not yet released acquisitions of a credential. *)
Definition held (s : Limiter) (sessionId : string) : Z :=
  count (holds_session sessionId) (releases s).

(** A bucket that [cleanupBucket] keeps: active work, a waiter, or a
    pending retry timer. *)
Definition busy (b : SessionBucket) : bool :=
  (active b >? 0) || (0 <? length (queue b))%nat || bool_decide (is_Some (timer b)).

Section Machine.
Variable cfg : Config.Settings.
(** [tick n] is how far the wall clock has moved, in milliseconds, when
    [Date.now()] is read for the [n]-th time since the previous read. *)
Variable tick : nat -> nat.

Definition Date_now (s : Limiter) : Z * Limiter :=
  let t := clock s + Z.of_nat (tick (reads s)) in
  (t,
   {| buckets := buckets s; heap := heap s; owner := owner s;
      nextBucket := nextBucket s; timers := timers s; nextHandle := nextHandle s;
      promises := promises s; nextWaiter := nextWaiter s; releases := releases s;
      clock := t; reads := S (reads s) |}).

Definition getBucket (sessionId : string) (s : Limiter) : nat * Limiter :=
  match buckets s !! sessionId with
  | Some existing => (existing, s)
  | None =>
      (nextBucket s,
       {| buckets := <[sessionId := nextBucket s]> (buckets s);
          heap := <[nextBucket s := created]> (heap s);
          owner := <[nextBucket s := sessionId]> (owner s);
          nextBucket := S (nextBucket s);
          timers := timers s; nextHandle := nextHandle s;
          promises := promises s; nextWaiter := nextWaiter s; releases := releases s;
          clock := clock s; reads := reads s |})
  end.

Definition cleanupBucket (sessionId : string) (bucket : nat) (s : Limiter) : Limiter :=
  let b := deref s bucket in
  if active b >? 0 then s
  else if (0 <? length (queue b))%nat then s
  else
    match timer b with
    | Some _ => s
    | None => upd_buckets (delete sessionId) s
    end.

(** [processQueue].  It calls itself after a grant, when the queue has
    just lost its head; [fuel] bounds that recursion. *)
Fixpoint processQueue_fuel (fuel : nat) (sessionId : string) (bucket : nat)
    (s : Limiter) : Limiter :=
  match fuel with
  | O => s
  | S fuel' =>
      if negb (Config.enabled cfg) then s
      else if active (deref s bucket) >=? Config.maxConcurrent cfg then s
      else
        match queue (deref s bucket) with
        | [] => cleanupBucket sessionId bucket s
        | waiter :: rest =>
            let '(now, s1) := Date_now s in
            let waitMs :=
              Z.max 0 (lastStartedAt (deref s1 bucket) + Config.minIntervalMs cfg - now) in
            if waitMs >? 0 then
              match timer (deref s1 bucket) with
              | Some _ => s1
              | None =>
                  let '(h, s2) := setTimeout (RetryTimer sessionId bucket) waitMs s1 in
                  upd_bucket bucket (with_timer (Some h)) s2
              end
            else
              let s2 := upd_bucket bucket (with_queue rest) s1 in
              let s3 :=
                match timeoutHandle waiter with
                | Some h => clearTimeout h s2
                | None => s2
                end in
              let s4 := upd_bucket bucket (fun b => with_active (active b + 1) b) s3 in
              let '(started, s5) := Date_now s4 in
              let s6 := upd_bucket bucket (with_lastStartedAt started) s5 in
              let release := length (releases s6) in
              let s7 :=
                upd_releases
                  (fun l => (l ++ [{| rc_session := sessionId; rc_bucket := bucket;
                                      rc_released := false; rc_startedAt := started |}])%list)
                  s6 in
              let s8 := settle (wid waiter) (Resolved release) s7 in
              if active (deref s8 bucket) <? Config.maxConcurrent cfg
              then processQueue_fuel fuel' sessionId bucket s8
              else s8
        end
  end.

Definition processQueue (sessionId : string) (bucket : nat) (s : Limiter) : Limiter :=
  processQueue_fuel (S (length (queue (deref s bucket)))) sessionId bucket s.

(** The body of the closure [release]. *)
Definition release (k : nat) (s : Limiter) : Limiter :=
  match releases s !! k with
  | Some c =>
      if rc_released c then s
      else
        let s1 :=
          upd_releases
            <[k := {| rc_session := rc_session c; rc_bucket := rc_bucket c;
                      rc_released := true; rc_startedAt := rc_startedAt c |}]> s in
        let s2 :=
          upd_bucket (rc_bucket c) (fun b => with_active (Z.max 0 (active b - 1)) b) s1 in
        let s3 := processQueue (rc_session c) (rc_bucket c) s2 in
        cleanupBucket (rc_session c) (rc_bucket c) s3
  | None => s
  end.

(** The bodies of the two timer callbacks. *)
Definition run_callback (cb : Callback) (s : Limiter) : Limiter :=
  match cb with
  | WaiterTimeout sessionId bucket waiter =>
      match indexOf (queue (deref s bucket)) waiter with
      | None => s
      | Some index =>
          let s1 := upd_bucket bucket (fun b => with_queue (delete index (queue b)) b) s in
          let s2 :=
            settle waiter
              (Rejected (timeoutError sessionId (Config.queueTimeoutMs cfg))) s1 in
          cleanupBucket sessionId bucket s2
      end
  | RetryTimer sessionId bucket =>
      let s1 := upd_bucket bucket (with_timer None) s in
      processQueue sessionId bucket s1
  end.

(** A pending timer expires: the runtime forgets the handle and runs
    the callback. *)
Definition fire (h : nat) (s : Limiter) : Limiter :=
  match timers s !! h with
  | Some tm => run_callback (callback tm) (upd_timers (delete h) s)
  | None => s
  end.

Definition acquireLocal (sessionId : string) (s : Limiter) : (Error + nat) * Limiter :=
  let '(bucket, s1) := getBucket sessionId s in
  if (Z.of_nat (length (queue (deref s1 bucket))) >=? Config.maxQueuePerSession cfg) then
    (inl (overflowError sessionId (Config.maxQueuePerSession cfg)), s1)
  else
    let '(w, s2) := new_waiter s1 in
    let '(handle, s3) :=
      if Config.queueTimeoutMs cfg >? 0 then
        let '(h, s') :=
          setTimeout (WaiterTimeout sessionId bucket w) (Config.queueTimeoutMs cfg) s2 in
        (Some h, s')
      else (None, s2) in
    let waiter := {| wid := w; timeoutHandle := handle |} in
    let s4 := upd_bucket bucket (fun b => with_queue (queue b ++ [waiter])%list b) s3 in
    (inr w, processQueue sessionId bucket s4).

(** What a caller of [acquire] gets when no Redis client is in use. *)
Inductive Acquired :=
| Passthrough                 (* the no-op release, without admission *)
| Thrown (e : Error)
| Waiting (w : nat).          (* the promise of waiter [w] *)

Definition acquire_local_mode (sessionId : string) (s : Limiter) : Acquired * Limiter :=
  if negb (Config.enabled cfg) || String.eqb sessionId "" then (Passthrough, s)
  else
    match acquireLocal sessionId s with
    | (inl e, s') => (Thrown e, s')
    | (inr w, s') => (Waiting w, s')
    end.

(** What can happen to the limiter, one event-loop task at a time. *)
Inductive Event :=
| Acquire (sessionId : string)
| Release (k : nat)
| Fire (h : nat)
| Elapse (ms : nat).

Definition step (s : Limiter) (e : Event) : Limiter :=
  match e with
  | Acquire sessionId => snd (acquire_local_mode sessionId s)
  | Release k => release k s
  | Fire h => fire h s
  | Elapse ms => elapse ms s
  end.

Definition run (start : Z) (evs : list Event) : Limiter :=
  fold_left step evs (init start).

End Machine.

End Local.

(** ** Distributed mode: the polling loop, the release closure, the fallback *)

Module Distributed.

(** What one call of [acquireDistributed] sees of the outside: the wall
    clock, the shared Redis database, and how many times it has been
    suspended ([await]) so far. *)
Record World := {
  now : Z;
  store : gmap string Redis.Entry;
  awaits : nat
}.

Inductive Polled :=
| Granted (inflightKey : string)   (* the release closure, which captures the key *)
| Threw (e : Error)
| OutOfFuel.

Section Poller.
Variable cfg : Config.Settings.
Variable sha1_hex : string -> string.
(** The environment, indexed by the number of the suspension:
    how long it lasts beyond what was asked for, the Redis server's
    clock when the script runs, whether [redis.eval] throws, what other
    clients did to the database in the meantime, and the value of
    [Math.floor(Math.random() * 40)]. *)
Variable latency : nat -> nat.
Variable server_time : nat -> Z.
Variable fault : nat -> option Error.
Variable interference : nat -> gmap string Redis.Entry -> gmap string Redis.Entry.
Variable random : nat -> nat.

Definition intervalTtlMs : Z := Z.max (Config.minIntervalMs cfg * 50) 60000.

(** [await redis.eval(REDIS_ACQUIRE_SCRIPT, 2, inflightKey, intervalKey,
    now, minIntervalMs, maxConcurrent, inflightTtlMs, intervalTtlMs)] *)
Definition eval_acquire (sessionId : string) (nowMs : Z) (w : World)
  : (Error + Redis.Reply) * World :=
  let n := awaits w in
  let db := interference n (store w) in
  let woke := now w + Z.of_nat (latency n) in
  match fault n with
  | Some e => (inl e, {| now := woke; store := db; awaits := S n |})
  | None =>
      let '(inflightKey, intervalKey) := Redis.getRedisKeys sha1_hex sessionId in
      let '(reply, db') :=
        Redis.REDIS_ACQUIRE_SCRIPT (server_time n) inflightKey intervalKey nowMs
          (Config.minIntervalMs cfg) (Config.maxConcurrent cfg)
          (Config.inflightTtlMs cfg) intervalTtlMs db in
      (inr reply, {| now := woke; store := db'; awaits := S n |})
  end.

(** [await this.sleep(ms)] *)
Definition sleep (ms : Z) (w : World) : World :=
  if ms <=? 0 then w
  else {| now := now w + ms + Z.of_nat (latency (awaits w));
          store := store w; awaits := S (awaits w) |}.

(** The [while (true)] loop of [acquireDistributed]; [fuel] bounds the
    number of iterations. *)
Fixpoint poll (fuel : nat) (sessionId : string) (deadlineAt : Z) (w : World)
  : Polled * World :=
  match fuel with
  | O => (OutOfFuel, w)
  | S fuel' =>
      let now1 := now w in
      if now1 >=? deadlineAt then
        (Threw (timeoutError sessionId (Config.queueTimeoutMs cfg)), w)
      else
        match eval_acquire sessionId now1 w with
        | (inl e, w1) => (Threw e, w1)
        | (inr result, w1) =>
            let granted := Redis.granted result =? 1 in
            let reason := Redis.reason result in
            let waitMs := Z.max 0 (Redis.waitMs result) in
            if granted then (Granted (Redis.getRedisKeys sha1_hex sessionId).1, w1)
            else
              let leftMs := deadlineAt - now w1 in
              if leftMs <=? 0 then
                (Threw (timeoutError sessionId (Config.queueTimeoutMs cfg)), w1)
              else if String.eqb reason "interval" && (waitMs >? 0) then
                poll fuel' sessionId deadlineAt (sleep (Z.min waitMs leftMs) w1)
              else
                let backoffMs :=
                  Z.min (Config.redisPollIntervalMs cfg
                         + Z.of_nat (random (awaits w1) mod 40)) leftMs in
                poll fuel' sessionId deadlineAt (sleep backoffMs w1)
        end
  end.

Definition acquireDistributed (sessionId : string) (w : World) : Polled * World :=
  let startedAt := now w in
  let deadlineAt := startedAt + Config.queueTimeoutMs cfg in
  poll (S (Z.to_nat (Config.queueTimeoutMs cfg))) sessionId deadlineAt w.

End Poller.

(** The whole fleet in distributed mode: the shared database and every
    release closure handed out by any process.  [h_key] is the captured
    [inflightKey], [h_released] the closure's flag. *)
Record Holder := { h_session : string; h_key : string; h_released : bool }.

Record Fleet := {
  db : gmap string Redis.Entry;
  holders : list Holder
}.

Definition fleet0 : Fleet := {| db := ∅; holders := [] |}.

Inductive FleetEvent :=
| Poll (sessionId : string) (t nowMs : Z)    (* a process evaluates the acquire script *)
| ReleaseCall (g : nat) (t : Z) (ok : bool). (* closure [g] is called; [ok = false]:
                                                its [redis.eval] throws *)

Fixpoint count_holders (p : Holder -> bool) (l : list Holder) : Z :=
  match l with
  | [] => 0
  | h :: l' => (if p h then 1 else 0) + count_holders p l'
  end.

(** The granted and not yet released acquisitions of a credential. *)
Definition held (f : Fleet) (sessionId : string) : Z :=
  count_holders (fun h => negb (h_released h) && String.eqb (h_session h) sessionId)
    (holders f).

Section FleetMachine.
Variable cfg : Config.Settings.
Variable sha1_hex : string -> string.

Definition try_acquire (sessionId : string) (t nowMs : Z) (f : Fleet) : Fleet :=
  let '(inflightKey, intervalKey) := Redis.getRedisKeys sha1_hex sessionId in
  let '(reply, db') :=
    Redis.REDIS_ACQUIRE_SCRIPT t inflightKey intervalKey nowMs
      (Config.minIntervalMs cfg) (Config.maxConcurrent cfg)
      (Config.inflightTtlMs cfg) (intervalTtlMs cfg) (db f) in
  if Redis.granted reply =? 1 then
    {| db := db';
       holders := holders f ++ [{| h_session := sessionId; h_key := inflightKey;
                                   h_released := false |}] |}
  else {| db := db'; holders := holders f |}.

(** The body of the closure returned by [acquireDistributed]. *)
Definition release (g : nat) (t : Z) (ok : bool) (f : Fleet) : Fleet :=
  match holders f !! g with
  | Some h =>
      if h_released h then f
      else
        let marked :=
          <[g := {| h_session := h_session h; h_key := h_key h;
                    h_released := true |}]> (holders f) in
        if ok then
          {| db := (Redis.REDIS_RELEASE_SCRIPT t (h_key h) (db f)).2; holders := marked |}
        else {| db := db f; holders := marked |}
  | None => f
  end.

Definition fleet_step (f : Fleet) (e : FleetEvent) : Fleet :=
  match e with
  | Poll sessionId t nowMs => try_acquire sessionId t nowMs f
  | ReleaseCall g t ok => release g t ok f
  end.

Definition fleet_run (evs : list FleetEvent) : Fleet := fold_left fleet_step evs fleet0.

(** No event of the run finds the inflight key it touches expired. *)
Definition unexpired (t : Z) (key : string) (f : Fleet) : bool :=
  match db f !! key with
  | Some e => Redis.live t e
  | None => true
  end.

Definition event_unexpired (f : Fleet) (e : FleetEvent) : bool :=
  match e with
  | Poll sessionId t _ => unexpired t (Redis.getRedisKeys sha1_hex sessionId).1 f
  | ReleaseCall g t _ =>
      match holders f !! g with
      | Some h => unexpired t (h_key h) f
      | None => true
      end
  end.

Fixpoint no_expiry_from (f : Fleet) (evs : list FleetEvent) : bool :=
  match evs with
  | [] => true
  | e :: evs' => event_unexpired f e && no_expiry_from (fleet_step f e) evs'
  end.

Definition no_expiry (evs : list FleetEvent) : bool := no_expiry_from fleet0 evs.

End FleetMachine.

(** [acquire]: the pass-through, the distributed attempt and the fallback. *)
Record Process := {
  limiter : Local.Limiter;
  world : World;
  redis : bool;                         (* this.redis holds a connected client *)
  logs : list (string * string)         (* logger output: level and message *)
}.

Inductive Outcome :=
| Passthrough
| DistributedGrant (inflightKey : string)
| LocalThrown (e : Error)
| LocalWaiting (w : nat)
| Diverged.

(** What happens in one process, one event-loop task at a time: a caller
    invokes [acquire]; a release closure of the local limiter is called;
    one of its timers expires; time passes.  [acquire] touches the local
    limiter in its last synchronous stretch only, after the polling, so a
    call stands in the sequence where that stretch runs. *)
Inductive ProcessEvent :=
| Call (sessionId : string)
| LocalRelease (k : nat)
| TimerFires (h : nat)
| TimePasses (ms : nat).

Section Acquire.
Variable cfg : Config.Settings.
Variable tick : nat -> nat.
Variable sha1_hex : string -> string.
Variable latency : nat -> nat.
Variable server_time : nat -> Z.
Variable fault : nat -> option Error.
Variable interference : nat -> gmap string Redis.Entry -> gmap string Redis.Entry.
Variable random : nat -> nat.
(** The outcome of [client.connect()]: [Some e] when it throws. *)
Variable connect : option Error.

Definition getRedisClient (p : Process) : bool * Process :=
  if negb (Config.useRedisDistributed cfg) then (false, p)
  else if redis p then (true, p)
  else
    match connect with
    | None =>
        (true,
         {| limiter := limiter p; world := world p; redis := true;
            logs := logs p ++ [("info",
              "[SessionRateLimiter] distributed mode enabled (Redis connected)")] |})
    | Some err =>
        (false,
         {| limiter := limiter p; world := world p; redis := false;
            logs := logs p ++ [("warn",
              "[SessionRateLimiter] redis unavailable, fallback to local mode: "
              +:+ message err)] |})
    end.

Definition acquire_locally (sessionId : string) (p : Process) : Outcome * Process :=
  match Local.acquireLocal cfg tick sessionId (limiter p) with
  | (inl e, l') =>
      (LocalThrown e, {| limiter := l'; world := world p; redis := redis p; logs := logs p |})
  | (inr w, l') =>
      (LocalWaiting w, {| limiter := l'; world := world p; redis := redis p; logs := logs p |})
  end.

Definition acquire (sessionId : string) (p : Process) : Outcome * Process :=
  if negb (Config.enabled cfg) || String.eqb sessionId "" then (Passthrough, p)
  else
    let '(client, p1) := getRedisClient p in
    if client then
      match acquireDistributed cfg sha1_hex latency server_time fault interference random
              sessionId (world p1) with
      | (Granted key, w') =>
          (DistributedGrant key,
           {| limiter := limiter p1; world := w'; redis := redis p1; logs := logs p1 |})
      | (Threw err, w') =>
          acquire_locally sessionId
            {| limiter := limiter p1; world := w'; redis := redis p1;
               logs := logs p1 ++ [("warn",
                 "[SessionRateLimiter] distributed acquire failed, fallback to local: "
                 +:+ message err)] |}
      | (OutOfFuel, w') =>
          (Diverged,
           {| limiter := limiter p1; world := w'; redis := redis p1; logs := logs p1 |})
      end
    else acquire_locally sessionId p1.

Definition process_step (p : Process) (e : ProcessEvent) : Process :=
  match e with
  | Call sessionId => (acquire sessionId p).2
  | LocalRelease k =>
      {| limiter := Local.release cfg tick k (limiter p); world := world p;
         redis := redis p; logs := logs p |}
  | TimerFires h =>
      {| limiter := Local.fire cfg tick h (limiter p); world := world p;
         redis := redis p; logs := logs p |}
  | TimePasses ms =>
      {| limiter := Local.elapse ms (limiter p);
         world := {| now := now (world p) + Z.of_nat ms; store := store (world p);
                     awaits := awaits (world p) |};
         redis := redis p; logs := logs p |}
  end.

Definition process_run (p : Process) (evs : list ProcessEvent) : Process :=
  fold_left process_step evs p.

End Acquire.

End Distributed.

(** ** The route [POST /v1/videos/generations] *)

Module VideoRoute.

(** JavaScript values, as far as the route looks into them.  A number is
    an integer or one of the kinds the validators tell apart. *)
Inductive JsNumber := Integer (z : Z) | Fraction | NaN | Infinite.

#[local] Unset Elimination Schemes.
Inductive JsValue :=
| JsUndefined
| JsNull
| JsBool (b : bool)
| JsNum (n : JsNumber)
| JsString (s : string)
| JsArray (l : list JsValue)
| JsObject.                       (* any other object, such as an uploaded file *)
#[local] Set Elimination Schemes.

Definition truthy (v : JsValue) : bool :=
  match v with
  | JsUndefined | JsNull => false
  | JsBool b => b
  | JsNum (Integer z) => negb (z =? 0)
  | JsNum NaN => false
  | JsNum _ => true
  | JsString s => negb (String.eqb s "")
  | JsArray _ | JsObject => true
  end.

(** [a || b] *)
Definition js_or (a b : JsValue) : JsValue := if truthy a then a else b.

(** [x = d] in a destructuring pattern: the default applies to [undefined] only. *)
Definition or_default (v d : JsValue) : JsValue :=
  match v with
  | JsUndefined => d
  | _ => v
  end.

Definition isUndefined (v : JsValue) : bool :=
  match v with JsUndefined => true | _ => false end.
Definition isString (v : JsValue) : bool :=
  match v with JsString _ => true | _ => false end.
Definition isArray (v : JsValue) : bool :=
  match v with JsArray _ => true | _ => false end.
Definition isBoolean (v : JsValue) : bool :=
  match v with JsBool _ => true | _ => false end.
Definition isFinite (v : JsValue) : bool :=
  match v with JsNum (Integer _) | JsNum Fraction => true | _ => false end.
Definition startsWith (p : string) (v : JsValue) : bool :=
  match v with JsString s => String.prefix p s | _ => false end.
Definition strict_eq_string (v : JsValue) (s : string) : bool :=
  match v with JsString x => String.eqb x s | _ => false end.
Definition array_items (v : JsValue) : list JsValue :=
  match v with JsArray l => l | _ => [] end.

Record Request := {
  content_type : string;              (* request.headers['content-type'] || '' *)
  body : gmap string JsValue;
  files : option (list (string * JsValue));   (* Object.entries(request.files) *)
  authorization : JsValue
}.

Definition field (req : Request) (key : string) : JsValue :=
  default JsUndefined (body req !! key).

Definition MAX_STANDARD_INPUT_IMAGES : Z := 2.
Definition MAX_OMNI_MATERIALS : Z := 9.

(** [Number(digits)] for a string matched by [\d+]. *)
Fixpoint digits_value (acc : Z) (s : string) : option Z :=
  match s with
  | EmptyString => Some acc
  | String c s' =>
      let n := Z.of_nat (Ascii.nat_of_ascii c) in
      if (48 <=? n) && (n <=? 57) then digits_value (10 * acc + (n - 48)) s' else None
  end.

Definition material_index (digits : string) : bool :=
  match digits with
  | EmptyString => false
  | _ =>
      match digits_value 0 digits with
      | Some idx => (1 <=? idx) && (idx <=? MAX_OMNI_MATERIALS)
      | None => false
      end
  end.

Definition strip_prefix (p s : string) : option string :=
  if String.prefix p s
  then Some (String.substring (String.length p) (String.length s - String.length p) s)
  else None.

(** [/^image_file_(\d+)$/] and [/^video_file(?:_(\d+))?$/] *)
Definition isOmniMaterialField (fieldName : string) : bool :=
  match strip_prefix "image_file_" fieldName with
  | Some digits => material_index digits
  | None =>
      if String.eqb fieldName "video_file" then true
      else
        match strip_prefix "video_file_" fieldName with
        | Some digits => material_index digits
        | None => false
        end
  end.

Definition collectUploadedFileEntries (files : option (list (string * JsValue)))
  : list (string * JsValue) :=
  match files with
  | None => []
  | Some entries =>
      flat_map
        (fun '(fieldName, fieldValue) =>
           let fileList :=
             match fieldValue with JsArray l => l | _ => [fieldValue] end in
           List.map (fun file => (fieldName, file)) (List.filter truthy fileList))
        entries
  end.

Definition collectOmniBodyMaterialUrls (b : gmap string JsValue) : gmap string JsValue :=
  filter (fun kv => startsWith "http" kv.2 = true /\ isOmniMaterialField kv.1 = true) b.

(** The options object handed to [generateVideo]. *)
Record VideoOptions := {
  o_ratio : JsValue;
  o_resolution : JsValue;
  o_duration : JsValue;
  o_filePaths : JsValue;
  o_files : option (list (string * JsValue));
  o_materialUrls : gmap string JsValue;
  o_functionMode : JsValue;
  o_msToken : JsValue;
  o_a_bogus : JsValue;
  o_webId : JsValue;
  o_os : JsValue;
  o_userAgent : JsValue;
  o_secChUaPlatform : JsValue;
  o_referer : JsValue
}.

Record GeneratedVideo := {
  gv_url : JsValue;
  gv_history_id : JsValue;
  gv_item_id : JsValue;
  gv_preview_url : JsValue;
  gv_hq_url : JsValue
}.

(** One element of [data]: [url] or [b64_json], and the rest. *)
Record VideoItem := {
  url : JsValue;
  b64_json : JsValue;
  revised_prompt : JsValue;
  history_id : JsValue;
  item_id : JsValue;
  preview_url : JsValue;
  hq_url : JsValue
}.

Record ResultData := { created : Z; data : list VideoItem }.

(** Modelled from the spec: the task record of section 3 (TaskStore lives
    in lib/task-store.ts, which is not among the sources).  Ids are
    opaque; here the n-th task created has id n. *)
Record Task := {
  id : nat;
  type : string;
  status : string;
  model : JsValue;
  prompt : JsValue;
  callback_url : JsValue;
  result : option ResultData;
  error : option string;
  progress : option string;
  created_at : Z;
  completed_at : option Z
}.

(** The partial record given to [taskStore.update]. *)
Record Patch := {
  p_status : option string;
  p_result : option ResultData;
  p_error : option string;
  p_progress : option string;
  p_completed_at : option Z
}.

(** The closure given to [taskQueue.enqueue], by the variables it captures. *)
Record Work := {
  w_task : nat;
  w_model : JsValue;
  w_prompt : JsValue;
  w_options : VideoOptions;
  w_token : string;
  w_response_format : JsValue
}.

Record Backend := {
  tasks : gmap nat Task;            (* the task store *)
  nextTask : nat;
  queue : list (nat * Work);        (* work handed to the task queue, oldest first *)
  webhooks : list (JsValue * Task); (* webhook dispatches, oldest first *)
  errors : list string;             (* logger.error *)
  clock : Z;                        (* Date.now() *)
  generations : nat                 (* calls of generateVideo so far *)
}.

Inductive Response :=
| AsyncAccepted (task_id : nat) (status : string)
| SyncResult (r : ResultData).

(** Modelled from the spec: [create(fields)] assigns a fresh id,
    status=pending, created_at=now, and returns the full record. *)
Definition taskStore_create (type : string) (model prompt callback_url : JsValue)
    (b : Backend) : Task * Backend :=
  let t := {| id := nextTask b; type := type; status := "pending"; model := model;
              prompt := prompt; callback_url := callback_url; result := None;
              error := None; progress := None; created_at := clock b;
              completed_at := None |} in
  (t, {| tasks := <[nextTask b := t]> (tasks b); nextTask := S (nextTask b);
         queue := queue b; webhooks := webhooks b; errors := errors b;
         clock := clock b; generations := generations b |}).

Definition merge {A} (new old : option A) : option A :=
  match new with Some _ => new | None => old end.

Definition apply_patch (p : Patch) (t : Task) : Task :=
  {| id := id t; type := type t;
     status := default (status t) (p_status p);
     model := model t; prompt := prompt t; callback_url := callback_url t;
     result := merge (p_result p) (result t);
     error := merge (p_error p) (error t);
     progress := merge (p_progress p) (progress t);
     created_at := created_at t;
     completed_at := merge (p_completed_at p) (completed_at t) |}.

(** Modelled from the spec: [update(id, partial)] merges the given fields
    into the existing record and persists the merged record. *)
Definition taskStore_update (i : nat) (p : Patch) (b : Backend) : Backend :=
  {| tasks := alter (apply_patch p) i (tasks b); nextTask := nextTask b;
     queue := queue b; webhooks := webhooks b; errors := errors b;
     clock := clock b; generations := generations b |}.

(** Modelled from the spec: [get(id)] returns the task or nothing. *)
Definition taskStore_get (i : nat) (b : Backend) : option Task := tasks b !! i.

(** Modelled from the spec: [enqueue(taskId, work)]; excess work waits in
    submission order. *)
Definition taskQueue_enqueue (i : nat) (w : Work) (b : Backend) : Backend :=
  {| tasks := tasks b; nextTask := nextTask b; queue := queue b ++ [(i, w)];
     webhooks := webhooks b; errors := errors b; clock := clock b;
     generations := generations b |}.

(** Modelled from the spec: [sendWebhook(url, task)] posts the record;
    a failed delivery is logged and never surfaces. *)
Definition sendWebhook (target : JsValue) (t : Task) (b : Backend) : Backend :=
  {| tasks := tasks b; nextTask := nextTask b; queue := queue b;
     webhooks := webhooks b ++ [(target, t)]; errors := errors b; clock := clock b;
     generations := generations b |}.

Definition logger_error (msg : string) (b : Backend) : Backend :=
  {| tasks := tasks b; nextTask := nextTask b; queue := queue b;
     webhooks := webhooks b; errors := errors b ++ [msg]; clock := clock b;
     generations := generations b |}.

(** Asynchronous code that may throw: a state and error monad. *)
Definition Async (A : Type) : Type := Backend -> (Error + A) * Backend.

Definition ret {A} (x : A) : Async A := fun b => (inr x, b).
Definition throw {A} (e : Error) : Async A := fun b => (inl e, b).
Definition bind {A B} (m : Async A) (k : A -> Async B) : Async B :=
  fun b =>
    match m b with
    | (inl e, b') => (inl e, b')
    | (inr x, b') => k x b'
    end.
Definition try_catch {A} (m : Async A) (handler : Error -> Async A) : Async A :=
  fun b =>
    match m b with
    | (inl e, b') => handler e b'
    | (inr x, b') => (inr x, b')
    end.
Definition effect (f : Backend -> Backend) : Async unit := fun b => (inr tt, f b).
Definition Date_now : Async Z := fun b => (inr (clock b), b).

Notation "x <- m ;; k" := (bind m (fun x => k))
  (at level 100, m at next level, right associativity).
Notation "m ;;; k" := (bind m (fun _ => k))
  (at level 100, right associativity).

Section Route.
(** What the route imports from modules that are not among the sources. *)
Variable DEFAULT_MODEL : string.
Variable parseInt : string -> JsNumber.
(** [_.sample(tokenSplit(authorization))] *)
Variable pick_token : string -> string.
(** [generateVideo(model, prompt, options, token)]: what the n-th call
    yields, and how many milliseconds it takes. *)
Variable generateVideo :
  JsValue -> JsValue -> VideoOptions -> string -> nat -> (Error + GeneratedVideo) * nat.
Variable parseProxyFromToken : string -> JsValue.
Variable fetchFileBASE64 : JsValue -> JsValue -> Error + string.
Variable unixTimestamp : Z -> Z.
(** The error [request.validate] throws for a key whose check fails. *)
Variable validation_error : string -> Error.

Definition call_generateVideo (model prompt : JsValue) (o : VideoOptions) (token : string)
  : Async GeneratedVideo :=
  fun b =>
    let '(outcome, elapsed) := generateVideo model prompt o token (generations b) in
    (outcome,
     {| tasks := tasks b; nextTask := nextTask b; queue := queue b;
        webhooks := webhooks b; errors := errors b;
        clock := clock b + Z.of_nat elapsed; generations := S (generations b) |}).

Definition call_fetchFileBASE64 (target proxyUrl : JsValue) : Async string :=
  fun b => (fetchFileBASE64 target proxyUrl, b).

Definition isMultiPart (req : Request) : bool :=
  String.prefix "multipart/form-data" (content_type req).

Definition duration_ok (req : Request) (v : JsValue) : bool :=
  match v with
  | JsUndefined => true
  | _ =>
      let num :=
        match v with
        | JsString s => if isMultiPart req then Some (parseInt s) else None
        | JsNum n => if isFinite v then Some n else None
        | _ => None
        end in
      match num with
      | Some (Integer n) => (4 <=? n) && (n <=? 15)
      | _ => false
      end
  end.

Definition undefined_or (p : JsValue -> bool) (v : JsValue) : bool :=
  isUndefined v || p v.

(** The chain of [request.validate] calls, in order: key and verdict. *)
Definition checks (req : Request) : list (string * bool) :=
  [ ("body.model", undefined_or isString (field req "model"));
    ("body.prompt", isString (field req "prompt"));
    ("body.ratio", undefined_or isString (field req "ratio"));
    ("body.resolution", undefined_or isString (field req "resolution"));
    ("body.duration", duration_ok req (field req "duration"));
    ("body.file_paths", undefined_or isArray (field req "file_paths"));
    ("body.filePaths", undefined_or isArray (field req "filePaths"));
    ("body.functionMode",
      undefined_or (fun v => strict_eq_string v "first_last_frames"
                             || strict_eq_string v "omni_reference")
        (field req "functionMode"));
    ("body.response_format", undefined_or isString (field req "response_format"));
    ("body.async",
      undefined_or (fun v => isBoolean v || strict_eq_string v "true"
                             || strict_eq_string v "false")
        (field req "async"));
    ("body.callback_url", undefined_or (startsWith "http") (field req "callback_url"));
    ("body.msToken", undefined_or isString (field req "msToken"));
    ("body.ms_token", undefined_or isString (field req "ms_token"));
    ("body.a_bogus", undefined_or isString (field req "a_bogus"));
    ("body.aBogus", undefined_or isString (field req "aBogus"));
    ("body.webId", undefined_or (fun v => isString v || isFinite v) (field req "webId"));
    ("body.web_id", undefined_or (fun v => isString v || isFinite v) (field req "web_id"));
    ("body.os", undefined_or isString (field req "os"));
    ("body.userAgent", undefined_or isString (field req "userAgent"));
    ("body.user_agent", undefined_or isString (field req "user_agent"));
    ("body.secChUaPlatform", undefined_or isString (field req "secChUaPlatform"));
    ("body.sec_ch_ua_platform", undefined_or isString (field req "sec_ch_ua_platform"));
    ("body.referer", undefined_or isString (field req "referer"));
    ("headers.authorization", isString (authorization req)) ].

Fixpoint first_failure (l : list (string * bool)) : option string :=
  match l with
  | [] => None
  | (key, ok) :: l' => if ok then first_failure l' else Some key
  end.

Definition validate (req : Request) : Async unit :=
  match first_failure (checks req) with
  | Some key => throw (validation_error key)
  | None => ret tt
  end.

Definition functionMode_of (req : Request) : JsValue :=
  js_or (field req "functionMode") (JsString "first_last_frames").

Definition isOmniMode (req : Request) : bool :=
  strict_eq_string (functionMode_of req) "omni_reference".

Definition finalFilePaths (req : Request) : JsValue :=
  let file_paths := or_default (field req "file_paths") (JsArray []) in
  let filePaths := or_default (field req "filePaths") (JsArray []) in
  if (0 <? length (array_items filePaths))%nat then filePaths else file_paths.

Definition materialUrls_of (req : Request) : gmap string JsValue :=
  if isOmniMode req then collectOmniBodyMaterialUrls (body req) else ∅.

(** The explicit [throw]s between the validators and the token choice. *)
Definition material_checks (req : Request) : Async unit :=
  let isOmni := isOmniMode req in
  let paths := Z.of_nat (length (array_items (finalFilePaths req))) in
  if negb isOmni && (paths >? MAX_STANDARD_INPUT_IMAGES) then
    throw {| message := "最多支持2张输入图片" |}
  else if isOmni && (paths >? MAX_OMNI_MATERIALS) then
    throw {| message := "全能模式通过 file_paths/filePaths 最多支持9个素材URL" |}
  else
    let uploadedFileEntries := collectUploadedFileEntries (files req) in
    let omniUploadedEntries :=
      List.filter (fun entry => isOmniMaterialField entry.1) uploadedFileEntries in
    let uploadedMaterialCount :=
      Z.of_nat (if isOmni then length omniUploadedEntries
                else length uploadedFileEntries) in
    let maxUploadedFiles :=
      if isOmni then MAX_OMNI_MATERIALS else MAX_STANDARD_INPUT_IMAGES in
    if uploadedMaterialCount >? maxUploadedFiles then
      throw {| message := if isOmni then "全能模式最多上传9个素材文件"
                          else "最多只能上传2个图片文件" |}
    else if isOmni && (length omniUploadedEntries <? length uploadedFileEntries)%nat then
      throw {| message :=
        "全能模式仅支持 image_file_1~image_file_9、video_file、video_file_1~video_file_9 字段" |}
    else
      let hasFilePaths := (0 <? paths) in
      let hasMaterialUrls := (0 <? size (materialUrls_of req))%nat in
      if isOmni && (uploadedMaterialCount =? 0) && negb hasFilePaths
         && negb hasMaterialUrls then
        throw {| message :=
          "全能模式(omni_reference)至少需要上传1个素材文件(图片或视频)或提供素材URL" |}
      else ret tt.

Definition token_of (req : Request) : string :=
  match authorization req with
  | JsString a => pick_token a
  | _ => pick_token ""
  end.

Definition finalDuration (req : Request) : JsValue :=
  let duration := or_default (field req "duration") (JsNum (Integer 5)) in
  match duration with
  | JsString s => if isMultiPart req then JsNum (parseInt s) else duration
  | _ => duration
  end.

Definition isAsync (req : Request) : bool :=
  match field req "async" with
  | JsString s => if isMultiPart req then String.eqb s "true" else false
  | JsBool b => b
  | _ => false
  end.

Definition options_of (req : Request) : VideoOptions :=
  {| o_ratio := or_default (field req "ratio") (JsString "1:1");
     o_resolution := or_default (field req "resolution") (JsString "720p");
     o_duration := finalDuration req;
     o_filePaths := finalFilePaths req;
     o_files := files req;
     o_materialUrls := materialUrls_of req;
     o_functionMode := functionMode_of req;
     o_msToken := js_or (field req "msToken") (field req "ms_token");
     o_a_bogus := js_or (field req "a_bogus") (field req "aBogus");
     o_webId := js_or (field req "webId") (field req "web_id");
     o_os := field req "os";
     o_userAgent := js_or (field req "userAgent") (field req "user_agent");
     o_secChUaPlatform :=
       js_or (field req "secChUaPlatform") (field req "sec_ch_ua_platform");
     o_referer := field req "referer" |}.

(** Generation and formatting, shared by both branches. *)
Definition produce (model prompt : JsValue) (o : VideoOptions) (token : string)
    (response_format : JsValue) : Async ResultData :=
  generatedVideo <- call_generateVideo model prompt o token ;;
  if strict_eq_string response_format "b64_json" then
    let proxyUrl := parseProxyFromToken token in
    videoBase64 <- call_fetchFileBASE64 (gv_url generatedVideo)
                     (js_or proxyUrl JsUndefined) ;;
    now <- Date_now ;;
    ret {| created := unixTimestamp now;
           data := [{| url := JsUndefined; b64_json := JsString videoBase64;
                       revised_prompt := prompt;
                       history_id := gv_history_id generatedVideo;
                       item_id := gv_item_id generatedVideo;
                       preview_url := gv_preview_url generatedVideo;
                       hq_url := gv_hq_url generatedVideo |}] |}
  else
    now <- Date_now ;;
    ret {| created := unixTimestamp now;
           data := [{| url := gv_url generatedVideo; b64_json := JsUndefined;
                       revised_prompt := prompt;
                       history_id := gv_history_id generatedVideo;
                       item_id := gv_item_id generatedVideo;
                       preview_url := gv_preview_url generatedVideo;
                       hq_url := gv_hq_url generatedVideo |}] |}.

Definition processing_patch : Patch :=
  {| p_status := Some "processing"; p_result := None; p_error := None;
     p_progress := Some "生成中"; p_completed_at := None |}.

Definition completed_patch (resultData : ResultData) (now : Z) : Patch :=
  {| p_status := Some "completed"; p_result := Some resultData; p_error := None;
     p_progress := None; p_completed_at := Some (now / 1000) |}.

Definition failed_patch (err : Error) (now : Z) : Patch :=
  {| p_status := Some "failed"; p_result := None; p_error := Some (message err);
     p_progress := None; p_completed_at := Some (now / 1000) |}.

(** The body of the closure enqueued by the asynchronous branch. *)
Definition work (w : Work) : Async unit :=
  try_catch
    (effect (taskStore_update (w_task w) processing_patch) ;;;
     resultData <- produce (w_model w) (w_prompt w) (w_options w) (w_token w)
                     (w_response_format w) ;;
     now <- Date_now ;;
     effect (taskStore_update (w_task w) (completed_patch resultData now)))
    (fun err =>
       effect (logger_error ("[Async] 视频生成任务 " +:+ pretty (w_task w)
                             +:+ " 失败: " +:+ message err)) ;;;
       now <- Date_now ;;
       effect (taskStore_update (w_task w) (failed_patch err now))) ;;;
  fun b =>
    match taskStore_get (w_task w) b with
    | Some finalTask =>
        if truthy (callback_url finalTask)
        then effect (sendWebhook (callback_url finalTask) finalTask) b
        else ret tt b
    | None => ret tt b
    end.

(** The handler of [POST /generations]. *)
Definition post_generations (req : Request) : Async Response :=
  validate req ;;;
  material_checks req ;;;
  let model := or_default (field req "model") (JsString DEFAULT_MODEL) in
  let prompt := field req "prompt" in
  let response_format := or_default (field req "response_format") (JsString "url") in
  let token := token_of req in
  if isAsync req then
    fun b =>
      let '(task, b1) :=
        taskStore_create "video" model prompt (field req "callback_url") b in
      let b2 :=
        taskQueue_enqueue (id task)
          {| w_task := id task; w_model := model; w_prompt := prompt;
             w_options := options_of req; w_token := token;
             w_response_format := response_format |} b1 in
      ret (AsyncAccepted (id task) "pending") b2
  else
    resultData <- produce model prompt (options_of req) token response_format ;;
    ret (SyncResult resultData).

End Route.

End VideoRoute.

(** * Vocabulary of the statements *)

Module Spec.
Import Local.

Section LocalVocabulary.
Variable cfg : Config.Settings.
Variable tick : nat -> nat.

(** The invariant of the reachable states of the local limiter.  While a
    handler is at work on a bucket, that bucket may be registered
    although it is not busy; [ex] names it. *)
Record Inv (ex : option nat) (s : Limiter) : Prop := {
  inv_heap_fresh : forall r, (nextBucket s <= r)%nat -> heap s !! r = None;
  inv_owner_dom : forall r, is_Some (owner s !! r) <-> is_Some (heap s !! r);
  inv_timer_fresh : forall h, (nextHandle s <= h)%nat -> timers s !! h = None;
  inv_promise_fresh : forall w, (nextWaiter s <= w)%nat -> promises s !! w = None;
  inv_registry : forall sid r, buckets s !! sid = Some r -> owner s !! r = Some sid;
  inv_busy : forall sid r,
    owner s !! r = Some sid -> busy (deref s r) = true -> buckets s !! sid = Some r;
  inv_gc : forall sid r,
    buckets s !! sid = Some r -> busy (deref s r) = true \/ ex = Some r;
  inv_release : forall (k : nat) c,
    releases s !! k = Some c -> rc_released c = false ->
    owner s !! rc_bucket c = Some (rc_session c);
  inv_count : forall r, active (deref s r) = count (holds_bucket r) (releases s);
  inv_retry : forall h d sid r,
    timers s !! h = Some {| delay := d; callback := RetryTimer sid r |} ->
    owner s !! r = Some sid /\ timer (deref s r) = Some h;
  inv_timer : forall r h,
    timer (deref s r) = Some h ->
    exists d sid, timers s !! h = Some {| delay := d; callback := RetryTimer sid r |};
  inv_waiter_timeout : forall h d sid r w,
    timers s !! h = Some {| delay := d; callback := WaiterTimeout sid r w |} ->
    owner s !! r = Some sid;
  inv_active_max : forall r, active (deref s r) <= Config.maxConcurrent cfg;
  inv_queue_max : forall r,
    Z.of_nat (length (queue (deref s r))) <= Config.maxQueuePerSession cfg;
  inv_waiter_fresh : forall r w, w ∈ queue (deref s r) -> (wid w < nextWaiter s)%nat;
  inv_nodup : forall r, NoDup (wid <$> queue (deref s r));
  inv_one_queue : forall r1 r2 w1 w2,
    w1 ∈ queue (deref s r1) -> w2 ∈ queue (deref s r2) -> wid w1 = wid w2 -> r1 = r2;
  inv_deadline : forall r w,
    w ∈ queue (deref s r) ->
    exists h sid,
      timeoutHandle w = Some h /\
      timers s !! h = Some {| delay := Config.queueTimeoutMs cfg;
                              callback := WaiterTimeout sid r (wid w) |};
  inv_unsettled : forall r w, w ∈ queue (deref s r) -> promises s !! wid w = None;
  inv_disabled : Config.enabled cfg = false -> releases s = [] /\ timers s = ∅;
  inv_anonymous : buckets s !! "" = None
}.

(** The state after a grant, as [processQueue] builds it. *)
Definition granted_state (sid : string) (r : nat) (waiter : QueueWaiter)
    (rest : list QueueWaiter) (s1 : Limiter) : Limiter :=
  let s2 := upd_bucket r (with_queue rest) s1 in
  let s3 :=
    match timeoutHandle waiter with
    | Some h => clearTimeout h s2
    | None => s2
    end in
  let s4 := upd_bucket r (fun b => with_active (active b + 1) b) s3 in
  let '(started, s5) := Date_now tick s4 in
  let s6 := upd_bucket r (with_lastStartedAt started) s5 in
  let release := length (releases s6) in
  let s7 :=
    upd_releases
      (fun l => (l ++ [{| rc_session := sid; rc_bucket := r;
                          rc_released := false; rc_startedAt := started |}])%list)
      s6 in
  settle (wid waiter) (Resolved release) s7.

(** The same state, field by field. *)
Definition granted_explicit (sid : string) (r : nat) (waiter : QueueWaiter)
    (rest : list QueueWaiter) (s1 : Limiter) : Limiter :=
  let started := clock s1 + Z.of_nat (tick (reads s1)) in
  {| buckets := buckets s1;
     heap := <[r := {| active := active (deref s1 r) + 1;
                       lastStartedAt := started;
                       queue := rest;
                       timer := timer (deref s1 r) |}]> (heap s1);
     owner := owner s1;
     nextBucket := nextBucket s1;
     timers := match timeoutHandle waiter with
               | Some h => delete h (timers s1)
               | None => timers s1
               end;
     nextHandle := nextHandle s1;
     promises := <[wid waiter := Resolved (length (releases s1))]> (promises s1);
     nextWaiter := nextWaiter s1;
     releases := releases s1 ++ [{| rc_session := sid; rc_bucket := r;
                                    rc_released := false; rc_startedAt := started |}];
     clock := started;
     reads := S (reads s1) |}.

(** The state once the new waiter sits in the queue, before
    [processQueue] runs. *)
Definition enqueued (sid : string) (r : nat) (s1 : Limiter) : Limiter :=
  upd_bucket r
    (fun b => with_queue (queue b ++ [{| wid := nextWaiter s1;
                                         timeoutHandle := Some (nextHandle s1) |}]) b)
    (setTimeout (WaiterTimeout sid r (nextWaiter s1)) (Config.queueTimeoutMs cfg)
       (new_waiter s1).2).2.
End LocalVocabulary.

(** The value a Redis key holds when its time to live is ignored. *)
Definition raw (key : string) (db : gmap string Redis.Entry) : Z :=
  match db !! key with
  | Some e => Redis.value e
  | None => 0
  end.

Section FleetVocabulary.
Variable cfg : Config.Settings.
Variable sha1_hex : string -> string.

Definition key_of (sessionId : string) : string :=
  (Redis.getRedisKeys sha1_hex sessionId).1.

Definition holds_key (key : string) (h : Distributed.Holder) : bool :=
  negb (Distributed.h_released h) && String.eqb (Distributed.h_key h) key.

(** Every closure captured the inflight key of its session, and each
    inflight counter covers the closures not yet released and stays
    within [maxConcurrent]. *)
Record FleetInv (f : Distributed.Fleet) : Prop := {
  fi_key : forall (g : nat) h,
    Distributed.holders f !! g = Some h ->
    Distributed.h_key h = key_of (Distributed.h_session h);
  fi_count : forall sid,
    Distributed.count_holders (holds_key (key_of sid)) (Distributed.holders f)
    <= raw (key_of sid) (Distributed.db f);
  fi_max : forall sid, raw (key_of sid) (Distributed.db f) <= Config.maxConcurrent cfg
}.
End FleetVocabulary.

Section RouteVocabulary.
Variable generateVideo :
  VideoRoute.JsValue -> VideoRoute.JsValue -> VideoRoute.VideoOptions -> string -> nat ->
  (Error + VideoRoute.GeneratedVideo) * nat.
Variable parseProxyFromToken : string -> VideoRoute.JsValue.
Variable fetchFileBASE64 : VideoRoute.JsValue -> VideoRoute.JsValue -> Error + string.
Variable unixTimestamp : Z -> Z.

(** The webhook step of the closure: read the record again, post it to
    its callback URL if it has one. *)
Definition dispatch (i : nat) (b : VideoRoute.Backend) : VideoRoute.Backend :=
  match VideoRoute.tasks b !! i with
  | Some finalTask =>
      if VideoRoute.truthy (VideoRoute.callback_url finalTask)
      then VideoRoute.sendWebhook (VideoRoute.callback_url finalTask) finalTask b
      else b
  | None => b
  end.

(** The task store after the [try] and [catch] of the closure. *)
Definition settled (w : VideoRoute.Work) (b : VideoRoute.Backend) : VideoRoute.Backend :=
  match VideoRoute.produce generateVideo parseProxyFromToken fetchFileBASE64
          unixTimestamp (VideoRoute.w_model w) (VideoRoute.w_prompt w)
          (VideoRoute.w_options w) (VideoRoute.w_token w)
          (VideoRoute.w_response_format w)
          (VideoRoute.taskStore_update (VideoRoute.w_task w)
             VideoRoute.processing_patch b) with
  | (inl err, b1) =>
      VideoRoute.taskStore_update (VideoRoute.w_task w)
        (VideoRoute.failed_patch err (VideoRoute.clock b1))
        (VideoRoute.logger_error
           ("[Async] 视频生成任务 " +:+ pretty (VideoRoute.w_task w)
            +:+ " 失败: " +:+ message err) b1)
  | (inr resultData, b1) =>
      VideoRoute.taskStore_update (VideoRoute.w_task w)
        (VideoRoute.completed_patch resultData (VideoRoute.clock b1)) b1
  end.
End RouteVocabulary.

End Spec.

(** * Scenarios *)

(** One credential, at most one grant at a time, room for one waiter. *)
Definition one_at_a_time : Config.ProcessEnv :=
  {| Config.SESSION_RATE_LIMIT_ENABLED := None;
     Config.SESSION_MIN_INTERVAL_MS := None;
     Config.SESSION_MAX_CONCURRENT := Some 1;
     Config.SESSION_MAX_QUEUE_PER_SESSION := Some 1;
     Config.SESSION_QUEUE_TIMEOUT_MS := None;
     Config.REDIS_URL := "redis://cache:6379";
     Config.SESSION_RATE_LIMIT_DISTRIBUTED := None;
     Config.SESSION_INFLIGHT_TTL_MS := None;
     Config.SESSION_REDIS_POLL_INTERVAL_MS := None |}.

(** The same without Redis, and room for two waiters. *)
Definition two_in_queue : Config.ProcessEnv :=
  {| Config.SESSION_RATE_LIMIT_ENABLED := None;
     Config.SESSION_MIN_INTERVAL_MS := None;
     Config.SESSION_MAX_CONCURRENT := Some 1;
     Config.SESSION_MAX_QUEUE_PER_SESSION := Some 2;
     Config.SESSION_QUEUE_TIMEOUT_MS := None;
     Config.REDIS_URL := "";
     Config.SESSION_RATE_LIMIT_DISTRIBUTED := None;
     Config.SESSION_INFLIGHT_TTL_MS := None;
     Config.SESSION_REDIS_POLL_INTERVAL_MS := None |}.

(** A holder that keeps its grant beyond the time to live of the
    inflight key (120 s by default) while a second caller polls. *)
Definition slow_holder : list Distributed.FleetEvent :=
  [Distributed.Poll "session-a" 0 0; Distributed.Poll "session-a" 120001 120001].

(** Two polls one second apart and a release: no key expires. *)
Definition brisk_holders : list Distributed.FleetEvent :=
  [Distributed.Poll "session-a" 0 0; Distributed.Poll "session-a" 1000 1000;
   Distributed.ReleaseCall 0 2000 true].

(** A call that finishes within a millisecond, and the next call one
    millisecond later. *)
Definition quick_succession : list Local.Event :=
  [Local.Acquire "session-a"; Local.Elapse 1; Local.Release 0; Local.Elapse 1;
   Local.Acquire "session-a"].

(** The same schedule against the fleet. *)
Definition quick_succession_fleet : list Distributed.FleetEvent :=
  [Distributed.Poll "session-a" 1700000000000 1700000000000;
   Distributed.ReleaseCall 0 1700000000001 true;
   Distributed.Poll "session-a" 1700000000002 1700000000002].


(** Three callers of one credential: the first is granted, two wait. *)
Definition two_waiting : list Local.Event :=
  [Local.Acquire "session-a"; Local.Acquire "session-a"; Local.Acquire "session-a"].

(** One grant at a time, room for one waiter, and a wait of one second
    at most, with Redis configured. *)
Definition impatient : Config.ProcessEnv :=
  {| Config.SESSION_RATE_LIMIT_ENABLED := None;
     Config.SESSION_MIN_INTERVAL_MS := None;
     Config.SESSION_MAX_CONCURRENT := Some 1;
     Config.SESSION_MAX_QUEUE_PER_SESSION := Some 1;
     Config.SESSION_QUEUE_TIMEOUT_MS := Some 1000;
     Config.REDIS_URL := "redis://cache:6379";
     Config.SESSION_RATE_LIMIT_DISTRIBUTED := None;
     Config.SESSION_INFLIGHT_TTL_MS := None;
     Config.SESSION_REDIS_POLL_INTERVAL_MS := None |}.

(** The clock of a Redis server that answers each [eval] a millisecond
    after the one before. *)
Definition busy_server : nat -> Z := fun n => 1700000000000 + Z.of_nat n.

(** Redis answers the first [eval] and drops the connection at every
    later one. *)
Definition connection_lost_later : nat -> option Error :=
  fun n =>
    match n with
    | O => None
    | S _ => Some {| message := "Connection is closed." |}
    end.

(** Redis drops the connection at every [eval]. *)
Definition connection_lost : nat -> option Error :=
  fun _ => Some {| message := "Connection is closed." |}.

Definition fresh_process : Distributed.Process :=
  {| Distributed.limiter := Local.init 1700000000000;
     Distributed.world :=
       {| Distributed.now := 1700000000000; Distributed.store := ∅;
          Distributed.awaits := 0 |};
     Distributed.redis := true;
     Distributed.logs := [] |}.

(** A JSON submission with [async: true] and a callback URL. *)
Definition async_request : VideoRoute.Request :=
  {| VideoRoute.content_type := "application/json";
     VideoRoute.body :=
       <["prompt" := VideoRoute.JsString "a lighthouse at dusk"]>
         (<["async" := VideoRoute.JsBool true]>
            (<["callback_url" := VideoRoute.JsString "https://example.com/hook"]> ∅));
     VideoRoute.files := None;
     VideoRoute.authorization := VideoRoute.JsString "Bearer session-a" |}.

Definition empty_backend : VideoRoute.Backend :=
  {| VideoRoute.tasks := ∅; VideoRoute.nextTask := 0; VideoRoute.queue := [];
     VideoRoute.webhooks := []; VideoRoute.errors := []; VideoRoute.clock := 1700000000000;
     VideoRoute.generations := 0 |}.

(** An upstream that fails every call after a second and a half. *)
Definition upstream_down :
  VideoRoute.JsValue -> VideoRoute.JsValue -> VideoRoute.VideoOptions -> string -> nat ->
  (Error + VideoRoute.GeneratedVideo) * nat :=
  fun _ _ _ _ _ => (inl {| message := "upstream unavailable" |}, 1500%nat).

(** * Vocabulary of the further properties *)

Module Discipline.
Import Local.

(** A queue lists its waiters in the order they arrived: waiter ids are
    handed out in increasing order by [new_waiter]. *)
Definition arrival_order (q : list QueueWaiter) : Prop :=
  forall (i j : nat) w1 w2,
    (i < j)%nat -> q !! i = Some w1 -> q !! j = Some w2 -> (wid w1 < wid w2)%nat.

Section LocalDiscipline.
Variable cfg : Config.Settings.

(** How the local limiter serves its queues.  As with [Spec.Inv], [ex]
    names the bucket a handler is at work on; only [fair_progress] looks
    at it. *)
Record Fair (ex : option nat) (s : Limiter) : Prop := {
  fair_sorted : forall r, arrival_order (queue (deref s r));
  fair_order : forall r sid w w' (k : nat) c,
    owner s !! r = Some sid -> w ∈ queue (deref s r) ->
    promises s !! w' = Some (Resolved k) -> releases s !! k = Some c ->
    rc_session c = sid -> (w' < wid w)%nat;
  fair_progress : forall r,
    ex <> Some r ->
    Config.maxConcurrent cfg <= active (deref s r)
    \/ queue (deref s r) = []
    \/ is_Some (timer (deref s r));
  fair_spacing : forall (k1 k2 : nat) c1 c2,
    (k1 < k2)%nat -> releases s !! k1 = Some c1 -> releases s !! k2 = Some c2 ->
    rc_bucket c1 = rc_bucket c2 ->
    rc_startedAt c1 + Config.minIntervalMs cfg <= rc_startedAt c2;
  fair_last : forall (k : nat) c,
    releases s !! k = Some c -> rc_startedAt c <= lastStartedAt (deref s (rc_bucket c));
  fair_timer : forall h d sid r w,
    timers s !! h = Some {| delay := d; callback := WaiterTimeout sid r w |} ->
    exists x, x ∈ queue (deref s r) /\ wid x = w /\ timeoutHandle x = Some h;
  fair_closure : forall w (k : nat),
    promises s !! w = Some (Resolved k) -> is_Some (releases s !! k);
  fair_own : forall w1 w2 (k : nat),
    promises s !! w1 = Some (Resolved k) -> promises s !! w2 = Some (Resolved k) ->
    w1 = w2
}.
End LocalDiscipline.

End Discipline.

(** * Further scenarios *)

(** Two callers of one credential under the default settings: the second
    waits for the interval, then its retry timer (handle 2) fires. *)
Definition paced : list Local.Event :=
  [Local.Acquire "session-a"; Local.Acquire "session-a"; Local.Elapse 200; Local.Fire 2].

(** The same two callers before the interval has passed. *)
Definition interval_wait : list Local.Event :=
  [Local.Acquire "session-a"; Local.Acquire "session-a"].

(** [SESSION_RATE_LIMIT_ENABLED=false] *)
Definition limiter_off : Config.ProcessEnv :=
  {| Config.SESSION_RATE_LIMIT_ENABLED := Some "false";
     Config.SESSION_MIN_INTERVAL_MS := None;
     Config.SESSION_MAX_CONCURRENT := None;
     Config.SESSION_MAX_QUEUE_PER_SESSION := None;
     Config.SESSION_QUEUE_TIMEOUT_MS := None;
     Config.REDIS_URL := "";
     Config.SESSION_RATE_LIMIT_DISTRIBUTED := None;
     Config.SESSION_INFLIGHT_TTL_MS := None;
     Config.SESSION_REDIS_POLL_INTERVAL_MS := None |}.

(** A process that has no Redis client yet. *)
Definition redis_down : Distributed.Process :=
  {| Distributed.limiter := Local.init 1700000000000;
     Distributed.world :=
       {| Distributed.now := 1700000000000; Distributed.store := ∅;
          Distributed.awaits := 0 |};
     Distributed.redis := false;
     Distributed.logs := [] |}.

(** A JSON submission without a prompt. *)
Definition no_prompt_request : VideoRoute.Request :=
  {| VideoRoute.content_type := "application/json";
     VideoRoute.body := <["model" := VideoRoute.JsString "jimeng-video-3.0"]> ∅;
     VideoRoute.files := None;
     VideoRoute.authorization := VideoRoute.JsString "Bearer session-a" |}.

(** The work of task 7. *)
Definition later_work : VideoRoute.Work :=
  {| VideoRoute.w_task := 7;
     VideoRoute.w_model := VideoRoute.JsString "jimeng-video-3.0";
     VideoRoute.w_prompt := VideoRoute.JsString "a lighthouse at dusk";
     VideoRoute.w_options :=
       {| VideoRoute.o_ratio := VideoRoute.JsString "1:1";
          VideoRoute.o_resolution := VideoRoute.JsString "720p";
          VideoRoute.o_duration := VideoRoute.JsNum (VideoRoute.Integer 5);
          VideoRoute.o_filePaths := VideoRoute.JsArray [];
          VideoRoute.o_files := None;
          VideoRoute.o_materialUrls := ∅;
          VideoRoute.o_functionMode := VideoRoute.JsString "first_last_frames";
          VideoRoute.o_msToken := VideoRoute.JsUndefined;
          VideoRoute.o_a_bogus := VideoRoute.JsUndefined;
          VideoRoute.o_webId := VideoRoute.JsUndefined;
          VideoRoute.o_os := VideoRoute.JsUndefined;
          VideoRoute.o_userAgent := VideoRoute.JsUndefined;
          VideoRoute.o_secChUaPlatform := VideoRoute.JsUndefined;
          VideoRoute.o_referer := VideoRoute.JsUndefined |};
     VideoRoute.w_token := "session-a";
     VideoRoute.w_response_format := VideoRoute.JsString "url" |}.

(** A Redis database in which the credential is at its concurrency
    limit for good: the inflight counter is 1 and never expires. *)
Definition saturated : Distributed.World :=
  {| Distributed.now := 0;
     Distributed.store :=
       <[(Redis.getRedisKeys (fun x => x) "session-a").1 :=
           {| Redis.value := 1; Redis.expireAt := None |}]> ∅;
     Distributed.awaits := 0 |}.

(** * The Redis client options and the image uploader *)

Module Client.

(** [retryStrategy(times)] of the client [getRedisClient] creates: the
    delay before the next reconnection, or [None] for [null]. *)
Definition retryStrategy (times : Z) : option Z :=
  if times >? 4 then None else Some (Z.min (times * 300) 1500).

End Client.

Module Uploader.

Definition DEFAULT_RETRY_DELAY_MS : Z := 5000.
Definition DEFAULT_MAX_RETRIES : Z := 3.

Definition RETRYABLE_ERROR_CODES : list string :=
  ["ECONNABORTED"; "ETIMEDOUT"; "ECONNRESET"; "ENOTFOUND"; "ECONNREFUSED";
   "EAI_AGAIN"; "EPIPE"; "ENETUNREACH"; "EHOSTUNREACH"].

(** What [isRetryableNetworkError] reads of an error:
    [String(error?.code || "")] and [String(error?.message || "")]. *)
Record NetError := { code : string; emessage : string }.

(** [hay.includes(needle)] *)
Fixpoint includes (needle hay : string) : bool :=
  String.prefix needle hay
  || match hay with
     | EmptyString => false
     | String _ hay' => includes needle hay'
     end.

Definition isRetryableNetworkError (error : NetError) : bool :=
  bool_decide (code error ∈ RETRYABLE_ERROR_CODES)
  || includes "timeout" (emessage error)
  || includes "network" (emessage error)
  || includes "ECONNRESET" (emessage error)
  || includes "socket hang up" (emessage error)
  || includes "wrong version number" (emessage error)
  || includes "Client network socket disconnected" (emessage error)
  || includes "Proxy connection" (emessage error).

Definition at_sign : Ascii.ascii := Ascii.ascii_of_nat 64.
Definition slash : Ascii.ascii := Ascii.ascii_of_nat 47.

(** [proxyUrl.replace(/\/\/([^@/]+)@/i, "//***@")].  [credentials s seen]
    matches [[^@/]+@] at the head of [s] and returns what follows the
    [@]; [seen] says that the run is not empty. *)
Fixpoint credentials (s : string) (seen : bool) : option string :=
  match s with
  | EmptyString => None
  | String c s' =>
      if Ascii.eqb c at_sign then (if seen then Some s' else None)
      else if Ascii.eqb c slash then None
      else credentials s' true
  end.

Fixpoint maskProxyUrl (proxyUrl : string) : string :=
  match proxyUrl with
  | EmptyString => EmptyString
  | String c rest =>
      if Ascii.eqb c slash then
        match rest with
        | String c' rest' =>
            if Ascii.eqb c' slash then
              match credentials rest' false with
              | Some tail => "//***@" +:+ tail
              | None => String c (maskProxyUrl rest)
              end
            else String c (maskProxyUrl rest)
        | EmptyString => String c (maskProxyUrl rest)
        end
      else String c (maskProxyUrl rest)
  end.

(** The part of the runtime [axiosWithRetry] acts on: how many times the
    operation was called, the warnings logged, and the time slept. *)
Record Net := {
  calls : nat;
  warnings : list string;
  slept : Z
}.

Inductive Returned (T : Type) :=
| Value (x : T)
| Raised (e : NetError)
| Spinning.
Arguments Value {T} x.
Arguments Raised {T} e.
Arguments Spinning {T}.

(** The [options] argument of [axiosWithRetry]. *)
Record RetryOptions := { maxRetries : option Z; retryDelayMs : option Z }.

Section Retry.
Context {T : Type}.
(** The outcome of the n-th call of [operation()]. *)
Variable operation : nat -> NetError + T.
(** The line given to [logger.warn], from the error and the number of
    the retry. *)
Variable warning : NetError -> Z -> string.

(** The [while (true)] loop; [fuel] bounds the number of iterations. *)
Fixpoint retry_loop (maxRetries retryDelayMs : Z) (fuel : nat) (retries : Z) (n : Net)
  : Returned T * Net :=
  match fuel with
  | O => (Spinning, n)
  | S fuel' =>
      let called := {| calls := S (calls n); warnings := warnings n; slept := slept n |} in
      match operation (calls n) with
      | inr x => (Value x, called)
      | inl error =>
          if negb (isRetryableNetworkError error) || (retries >=? maxRetries)
          then (Raised error, called)
          else
            let retries' := retries + 1 in
            retry_loop maxRetries retryDelayMs fuel' retries'
              {| calls := calls called;
                 warnings := warnings called ++ [warning error retries'];
                 slept := slept called + retryDelayMs |}
      end
  end.

Definition axiosWithRetry (options : option RetryOptions) (n : Net) : Returned T * Net :=
  let maxRetries := default DEFAULT_MAX_RETRIES (options ≫= maxRetries) in
  let retryDelayMs := default DEFAULT_RETRY_DELAY_MS (options ≫= retryDelayMs) in
  retry_loop maxRetries retryDelayMs (S (Z.to_nat maxRetries)) 0 n.

End Retry.

End Uploader.

(** * Scenarios for the uploader *)

(** An upload that meets two connection resets and then succeeds. *)
Definition flaky_upload : nat -> Uploader.NetError + string :=
  fun n =>
    if (n <? 2)%nat
    then inl {| Uploader.code := "ECONNRESET"; Uploader.emessage := "read ECONNRESET" |}
    else inr "tos-cn-i-a9rns2rl98/5f1c2e".

Definition quiet_net : Uploader.Net :=
  {| Uploader.calls := 0; Uploader.warnings := []; Uploader.slept := 0 |}.

(** * Lemmas *)

Module LocalFacts.
Import Local Spec.

(** Reduce record projections and nothing else. *)
Ltac fs :=
  cbn [buckets heap owner nextBucket timers nextHandle promises nextWaiter releases
       clock reads active lastStartedAt queue timer wid timeoutHandle
       rc_session rc_bucket rc_released rc_startedAt delay callback
       from_option id fst snd].
Tactic Notation "fs" "in" hyp(H) :=
  cbn [buckets heap owner nextBucket timers nextHandle promises nextWaiter releases
       clock reads active lastStartedAt queue timer wid timeoutHandle
       rc_session rc_bucket rc_released rc_startedAt delay callback
       from_option id fst snd] in H.

Lemma count_app p l1 l2 : count p (l1 ++ l2) = count p l1 + count p l2.
Proof. induction l1 as [|c l1 IH]; simpl; [done | rewrite IH; lia]. Qed.

Lemma count_nonneg p l : 0 <= count p l.
Proof. induction l as [|c l IH]; simpl; [lia | destruct (p c); lia]. Qed.

Lemma count_insert p l (k : nat) c c' :
  l !! k = Some c ->
  count p (<[k := c']> l) = count p l - (if p c then 1 else 0) + (if p c' then 1 else 0).
Proof.
  revert k. induction l as [|x l IH]; intros [|k] Hk; simpl in *; try done.
  - injection Hk as ->. lia.
  - rewrite (IH k Hk). lia.
Qed.

Lemma count_lookup p l (k : nat) c : l !! k = Some c -> p c = true -> 1 <= count p l.
Proof.
  revert k. induction l as [|x l IH]; intros [|k] Hk Hp; simpl in *; try done.
  - injection Hk as ->. rewrite Hp. pose proof (count_nonneg p l). lia.
  - specialize (IH k Hk Hp). destruct (p x); lia.
Qed.

Lemma count_pos p l : 0 < count p l -> exists (k : nat) c, l !! k = Some c /\ p c = true.
Proof.
  induction l as [|x l IH]; simpl; [lia |].
  destruct (p x) eqn:Hp.
  - intros _. by exists O, x.
  - intros H. destruct IH as (k & c & Hk & Hc); [lia |]. by exists (S k), c.
Qed.

Lemma count_ext p q l :
  (forall (k : nat) c, l !! k = Some c -> p c = q c) -> count p l = count q l.
Proof.
  induction l as [|x l IH]; intros H; simpl; [done |].
  rewrite (H O x eq_refl), IH; [done |]. intros k c Hk. by apply (H (S k)).
Qed.

Lemma indexOf_Some q w i :
  indexOf q w = Some i -> exists x, q !! i = Some x /\ wid x = w.
Proof.
  revert i. induction q as [|x q IH]; intros i; simpl; [done |].
  destruct (Nat.eqb_spec (wid x) w) as [Heq | Hne].
  - intros [= <-]. by exists x.
  - destruct (indexOf q w) as [j|] eqn:Hj; simpl; [| done].
    intros [= <-]. destruct (IH j eq_refl) as (y & Hy & Hw). by exists y.
Qed.

Lemma indexOf_None q w : indexOf q w = None -> forall x, x ∈ q -> wid x <> w.
Proof.
  induction q as [|x q IH]; simpl; intros H y Hy; [by apply elem_of_nil in Hy |].
  destruct (Nat.eqb_spec (wid x) w) as [Heq | Hne]; [done |].
  destruct (indexOf q w) eqn:Hj; simpl in H; [done |].
  apply elem_of_cons in Hy as [-> | Hy]; [done | by apply IH].
Qed.

Lemma deref_upd_heap_insert s r x r0 :
  deref (upd_heap <[r := x]> s) r0 = if decide (r = r0) then x else deref s r0.
Proof.
  unfold deref; simpl. rewrite lookup_insert. by case_decide.
Qed.

Lemma deref_upd_bucket s r f r0 :
  deref (upd_bucket r f s) r0 = if decide (r = r0) then f (deref s r) else deref s r0.
Proof. apply deref_upd_heap_insert. Qed.

Lemma NoDup_delete_notin {A} (l : list A) (i : nat) x :
  NoDup l -> l !! i = Some x -> x ∉ delete i l.
Proof.
  revert i. induction l as [|y l IH]; intros [|i] Hnd Hi; simpl in *; try done.
  - injection Hi as ->. by apply NoDup_cons in Hnd as [? _].
  - apply NoDup_cons in Hnd as [Hy Hnd]. rewrite not_elem_of_cons. split.
    + intros ->. apply Hy. by eapply list_elem_of_lookup_2.
    + by apply IH.
Qed.

Lemma indexOf_lookup q (i : nat) x :
  NoDup (wid <$> q) -> q !! i = Some x -> indexOf q (wid x) = Some i.
Proof.
  revert i. induction q as [|y q IH]; intros [|i] Hnd Hi; simpl in *; try done.
  - injection Hi as ->. by rewrite Nat.eqb_refl.
  - apply NoDup_cons in Hnd as [Hy Hnd].
    destruct (Nat.eqb_spec (wid y) (wid x)) as [E | _].
    + exfalso. apply Hy. rewrite E. apply list_elem_of_fmap. exists x.
      split; [done |]. by eapply list_elem_of_lookup_2.
    + by rewrite (IH i Hnd Hi).
Qed.

Section Invariant.
Variable cfg : Config.Settings.
Variable tick : nat -> nat.


Hypothesis cfg_wf : Config.well_formed cfg.

Lemma Inv_init start : Inv cfg None (init start).
Proof.
  pose proof (Config.wf_concurrent cfg cfg_wf).
  pose proof (Config.wf_queue cfg cfg_wf).
  split; unfold deref; simpl; intros; rewrite ?lookup_empty in *; simpl in *;
    try done; try lia.
  all: try (exfalso; eapply elem_of_nil; eassumption).
  all: try constructor.
Qed.

(** The invariant does not read the clock. *)
Lemma Inv_frame ex s s' :
  buckets s' = buckets s -> heap s' = heap s -> owner s' = owner s ->
  nextBucket s' = nextBucket s -> timers s' = timers s ->
  nextHandle s' = nextHandle s -> promises s' = promises s ->
  nextWaiter s' = nextWaiter s -> releases s' = releases s ->
  Inv cfg ex s -> Inv cfg ex s'.
Proof.
  intros E1 E2 E3 E4 E5 E6 E7 E8 E9 [].
  split; unfold deref in *; rewrite ?E1, ?E2, ?E3, ?E4, ?E5, ?E6, ?E7, ?E8, ?E9;
    assumption.
Qed.

Lemma Inv_Date_now ex s : Inv cfg ex s -> Inv cfg ex (Date_now tick s).2.
Proof. by apply Inv_frame. Qed.

Lemma Inv_elapse ex s ms : Inv cfg ex s -> Inv cfg ex (elapse ms s).
Proof. by apply Inv_frame. Qed.

Lemma Inv_open ex s : Inv cfg None s -> Inv cfg ex s.
Proof. intros []; split; try assumption. intros sid r H. left. 
  destruct (inv_gc0 sid r H); done. Qed.

Lemma Inv_close ex s :
  Inv cfg ex s ->
  (forall r sid, ex = Some r -> buckets s !! sid = Some r -> busy (deref s r) = true) ->
  Inv cfg None s.
Proof.
  intros [] Hex; split; try assumption.
  intros sid r H. left. destruct (inv_gc0 sid r H) as [|E]; [done |]. by eapply Hex.
Qed.

Lemma busy_false b :
  busy b = false <-> active b <= 0 /\ queue b = [] /\ timer b = None.
Proof.
  unfold busy. rewrite !orb_false_iff, bool_decide_eq_false, Z.gtb_ltb, Z.ltb_ge, Nat.ltb_ge.
  split.
  - intros [[Ha Hq] Ht]. split; [done |]. split.
    + destruct (queue b); simpl in *; [done | lia].
    + destruct (timer b); [| done]. exfalso. apply Ht. eauto.
  - intros (Ha & Hq & Ht). rewrite Hq, Ht. simpl.
    split; [split; [lia | done] | by intros [? ?]].
Qed.

Lemma cleanupBucket_busy sid r s :
  busy (deref s r) = true -> cleanupBucket sid r s = s.
Proof.
  unfold cleanupBucket, busy. intros H.
  destruct (active (deref s r) >? 0); [done |].
  destruct (0 <? length (queue (deref s r)))%nat; [done |].
  destruct (timer (deref s r)); [done |]. done.
Qed.

Lemma cleanupBucket_idle sid r s :
  busy (deref s r) = false -> cleanupBucket sid r s = upd_buckets (delete sid) s.
Proof.
  unfold cleanupBucket, busy. rewrite !orb_false_iff. intros [[-> ->] Ht].
  destruct (timer (deref s r)); [| done]. apply bool_decide_eq_false in Ht.
  exfalso. apply Ht. eauto.
Qed.

Lemma Inv_cleanupBucket ex s sid r :
  Inv cfg ex s -> owner s !! r = Some sid ->
  buckets s !! sid = Some r \/ buckets s !! sid = None ->
  ex = None \/ ex = Some r ->
  Inv cfg None (cleanupBucket sid r s).
Proof.
  intros HI Hown Hreg Hex.
  destruct (busy (deref s r)) eqn:Hb.
  - rewrite cleanupBucket_busy by done. eapply Inv_close; [done |].
    intros r0 sid0 E _. destruct Hex as [-> | ->]; [done |]. by injection E as <-.
  - rewrite cleanupBucket_idle by done. destruct HI.
    split; unfold deref in *; simpl; try assumption.
    + intros sid0 r0. rewrite lookup_delete. case_decide; [done |]. apply inv_registry0.
    + intros sid0 r0 Ho Hbz. rewrite lookup_delete. case_decide as E.
      * subst sid0. pose proof (inv_busy0 _ _ Ho Hbz) as Hr.
        destruct Hreg as [Hreg | Hreg]; rewrite Hreg in Hr; [| done].
        injection Hr as ->. unfold deref in Hb. congruence.
      * by apply inv_busy0.
    + intros sid0 r0. rewrite lookup_delete. case_decide as E; [done |].
      intros H. left. destruct (inv_gc0 _ _ H) as [|E0]; [done |]. exfalso.
      destruct Hex as [-> | ->]; [done |]. injection E0 as ->.
      apply inv_registry0 in H. congruence.
    + rewrite lookup_delete. by case_decide.
Qed.

Lemma cleanupBucket_registry sid r s sid0 :
  buckets (cleanupBucket sid r s) !! sid0 = buckets s !! sid0 \/
  (sid0 = sid /\ buckets (cleanupBucket sid r s) !! sid0 = None).
Proof.
  unfold cleanupBucket.
  destruct (active (deref s r) >? 0); [by left |].
  destruct (0 <? length (queue (deref s r)))%nat; [by left |].
  destruct (timer (deref s r)); [by left |]. simpl.
  rewrite lookup_delete. case_decide; [by right | by left].
Qed.


Lemma processQueue_fuel_S n sid r s :
  processQueue_fuel cfg tick (S n) sid r s =
    if negb (Config.enabled cfg) then s
    else if active (deref s r) >=? Config.maxConcurrent cfg then s
    else
      match queue (deref s r) with
      | [] => cleanupBucket sid r s
      | waiter :: rest =>
          let s1 := (Date_now tick s).2 in
          let now := (Date_now tick s).1 in
          let waitMs :=
            Z.max 0 (lastStartedAt (deref s1 r) + Config.minIntervalMs cfg - now) in
          if waitMs >? 0 then
            match timer (deref s1 r) with
            | Some _ => s1
            | None =>
                upd_bucket r (with_timer (Some (nextHandle s1)))
                  (setTimeout (RetryTimer sid r) waitMs s1).2
            end
          else
            let s8 := granted_state tick sid r waiter rest s1 in
            if active (deref s8 r) <? Config.maxConcurrent cfg
            then processQueue_fuel cfg tick n sid r s8
            else s8
      end.
Proof. reflexivity. Qed.



Lemma granted_state_eq sid r waiter rest s1 :
  promises s1 !! wid waiter = None ->
  granted_state tick sid r waiter rest s1 = granted_explicit tick sid r waiter rest s1.
Proof.
  destruct s1 as [bk hp ow nb tm nh pr nw rl ck rd]. intros Hp. fs in Hp.
  destruct waiter as [w [h|]];
    cbv beta iota zeta delta
      [granted_state granted_explicit settle upd_bucket upd_heap upd_releases
       upd_promises clearTimeout upd_timers Date_now deref with_queue with_active
       with_lastStartedAt buckets heap owner nextBucket timers nextHandle promises
       nextWaiter releases clock reads wid timeoutHandle];
    fs in Hp; rewrite Hp, !lookup_insert_eq; fs; rewrite !insert_insert_eq;
    reflexivity.
Qed.

Lemma deref_granted sid r waiter rest s1 r0 :
  deref (granted_explicit tick sid r waiter rest s1) r0 =
    if decide (r = r0)
    then {| active := active (deref s1 r) + 1;
            lastStartedAt := clock s1 + Z.of_nat (tick (reads s1));
            queue := rest;
            timer := timer (deref s1 r) |}
    else deref s1 r0.
Proof. unfold deref at 1. simpl. rewrite lookup_insert. by case_decide. Qed.

Lemma active_nonneg ex s r : Inv cfg ex s -> 0 <= active (deref s r).
Proof. intros HI. rewrite (inv_count _ _ _ HI). apply count_nonneg. Qed.

Lemma owner_heap ex s r sid : Inv cfg ex s -> owner s !! r = Some sid -> is_Some (heap s !! r).
Proof. intros HI H. apply (inv_owner_dom _ _ _ HI). eauto. Qed.

Lemma Inv_granted ex s1 sid r waiter rest :
  Inv cfg ex s1 -> ex = None \/ ex = Some r ->
  Config.enabled cfg = true ->
  owner s1 !! r = Some sid -> buckets s1 !! sid = Some r ->
  queue (deref s1 r) = waiter :: rest ->
  active (deref s1 r) < Config.maxConcurrent cfg ->
  Inv cfg None (granted_explicit tick sid r waiter rest s1).
Proof.
  intros HI Hex Hen Hown Hreg Hq Hact.
  pose proof (active_nonneg _ _ r HI) as Hnn.
  pose proof (owner_heap _ _ _ _ HI Hown) as Hheap.
  assert (Hin : waiter ∈ queue (deref s1 r)) by (rewrite Hq; apply list_elem_of_here).
  destruct (inv_deadline _ _ _ HI _ _ Hin) as (hw & sidw & Hhw & Htw).
  pose proof (inv_nodup _ _ _ HI r) as Hnd. rewrite Hq, fmap_cons in Hnd.
  apply NoDup_cons in Hnd as [Hnotin Hnd].
  assert (Hsub : forall r0 w, w ∈ queue (deref (granted_explicit tick sid r waiter rest s1) r0) ->
                     w ∈ queue (deref s1 r0) /\ (r0 = r -> w ∈ rest)).
  { intros r0 w. rewrite deref_granted. case_decide as E; simpl.
    - subst r0. rewrite Hq. intros Hw. split; [by apply list_elem_of_further | done].
    - intros Hw. split; [done | congruence]. }
  assert (Hwid : forall r0 w, w ∈ queue (deref (granted_explicit tick sid r waiter rest s1) r0) ->
                     wid w <> wid waiter).
  { intros r0 w Hw E. destruct (Hsub _ _ Hw) as [Hw1 Hw2].
    pose proof (inv_one_queue _ _ _ HI _ _ _ _ Hw1 Hin E) as ->.
    apply Hnotin. rewrite <- E. apply list_elem_of_fmap. exists w. auto. }
  assert (Htimers : timers (granted_explicit tick sid r waiter rest s1) = delete hw (timers s1)).
  { simpl. by rewrite Hhw. }
  split.
  - intros r0 Hr0. simpl. rewrite lookup_insert_ne.
    + by apply (inv_heap_fresh _ _ _ HI).
    + intros ->. rewrite (inv_heap_fresh _ _ _ HI _ Hr0) in Hheap. by destruct Hheap.
  - intros r0. simpl. rewrite lookup_insert. case_decide as E.
    + subst r0. split; eauto.
    + apply (inv_owner_dom _ _ _ HI).
  - intros h Hh. rewrite Htimers, lookup_delete. case_decide; [done |].
    by apply (inv_timer_fresh _ _ _ HI).
  - intros w Hw. simpl in *. rewrite lookup_insert_ne.
    + by apply (inv_promise_fresh _ _ _ HI).
    + pose proof (inv_waiter_fresh _ _ _ HI _ _ Hin). lia.
  - apply (inv_registry _ _ _ HI).
  - intros sid0 r0 Ho. rewrite deref_granted. simpl in Ho. case_decide as E.
    + subst r0. intros _. simpl. congruence.
    + apply (inv_busy _ _ _ HI), Ho.
  - intros sid0 r0 Hr. left. rewrite deref_granted. case_decide as E.
    + unfold busy; simpl. replace (active (deref s1 r) + 1 >? 0) with true; [done |].
      symmetry. apply Z.gtb_lt. lia.
    + destruct (inv_gc _ _ _ HI _ _ Hr) as [|E0]; [done |].
      destruct Hex as [-> | ->]; [done |]. congruence.
  - intros k c. simpl. rewrite lookup_snoc_Some. intros [[_ Hk] | [_ <-]] Hc.
    + by apply (inv_release _ _ _ HI k).
    + done.
  - intros r0. rewrite deref_granted. simpl. rewrite count_app. simpl.
    unfold holds_bucket at 2. simpl. case_decide as E.
    + subst r0. simpl. rewrite Nat.eqb_refl, (inv_count _ _ _ HI). lia.
    + apply Nat.eqb_neq in E. rewrite E, (inv_count _ _ _ HI). lia.
  - intros h d sid0 r0. rewrite Htimers, lookup_delete. case_decide; [done |].
    intros Ht. destruct (inv_retry _ _ _ HI _ _ _ _ Ht) as [Ho Hti]. split; [done |].
    rewrite deref_granted. by case_decide as E; [subst r0 |].
  - intros r0 h Hti.
    assert (timer (deref s1 r0) = Some h) as Hti'.
    { rewrite deref_granted in Hti. by case_decide as E; [subst r0 |]. }
    destruct (inv_timer _ _ _ HI _ _ Hti') as (d & sid0 & Ht). exists d, sid0.
    rewrite Htimers, lookup_delete. case_decide; [congruence | done].
  - intros h d sid0 r0 w. rewrite Htimers, lookup_delete. case_decide; [done |].
    apply (inv_waiter_timeout _ _ _ HI).
  - intros r0. rewrite deref_granted. case_decide; simpl; [lia |].
    apply (inv_active_max _ _ _ HI).
  - intros r0. rewrite deref_granted. case_decide as E; simpl.
    + subst r0. pose proof (inv_queue_max _ _ _ HI r) as Hm. rewrite Hq in Hm.
      simpl in Hm. lia.
    + apply (inv_queue_max _ _ _ HI).
  - intros r0 w Hw. simpl. apply (inv_waiter_fresh _ _ _ HI r0), Hsub, Hw.
  - intros r0. rewrite deref_granted. case_decide; simpl; [done |].
    apply (inv_nodup _ _ _ HI).
  - intros r1 r2 w1 w2 H1 H2. apply (inv_one_queue _ _ _ HI); by apply Hsub.
  - intros r0 w Hw. destruct (Hsub _ _ Hw) as [Hw1 _].
    destruct (inv_deadline _ _ _ HI _ _ Hw1) as (h & sid0 & Hh & Ht).
    exists h, sid0. split; [done |]. rewrite Htimers, lookup_delete.
    case_decide as E; [| done]. subst h. rewrite Htw in Ht. injection Ht as _ _ E.
    exfalso. by eapply Hwid.
  - intros r0 w Hw. simpl. rewrite lookup_insert_ne.
    + apply (inv_unsettled _ _ _ HI r0), Hsub, Hw.
    + intros E. by eapply Hwid.
  - congruence.
  - apply (inv_anonymous _ _ _ HI).
Qed.

Lemma Inv_retry_scheduled ex s1 sid r waitMs :
  Inv cfg ex s1 -> ex = None \/ ex = Some r ->
  Config.enabled cfg = true ->
  owner s1 !! r = Some sid -> buckets s1 !! sid = Some r ->
  timer (deref s1 r) = None ->
  Inv cfg None (upd_bucket r (with_timer (Some (nextHandle s1)))
              (setTimeout (RetryTimer sid r) waitMs s1).2).
Proof.
  intros HI Hex Hen Hown Hreg Hnone.
  pose proof (owner_heap _ _ _ _ HI Hown) as Hheap.
  pose proof (inv_timer_fresh _ _ _ HI (nextHandle s1) (le_n _)) as Hfresh.
  set (s' := upd_bucket r _ _).
  assert (Hd : forall r0, deref s' r0 =
            if decide (r = r0) then with_timer (Some (nextHandle s1)) (deref s1 r)
            else deref s1 r0).
  { intros r0. unfold s'. rewrite deref_upd_bucket. by case_decide. }
  assert (Hq : forall r0, queue (deref s' r0) = queue (deref s1 r0)).
  { intros r0. rewrite Hd. by case_decide as E; [subst r0 |]. }
  assert (Ha : forall r0, active (deref s' r0) = active (deref s1 r0)).
  { intros r0. rewrite Hd. by case_decide as E; [subst r0 |]. }
  split.
  - intros r0 Hr0. simpl. rewrite lookup_insert_ne.
    + by apply (inv_heap_fresh _ _ _ HI).
    + intros ->. rewrite (inv_heap_fresh _ _ _ HI _ Hr0) in Hheap. by destruct Hheap.
  - intros r0. simpl. rewrite lookup_insert. case_decide as E.
    + subst r0. split; eauto.
    + apply (inv_owner_dom _ _ _ HI).
  - intros h Hh. simpl in *. rewrite lookup_insert_ne by lia.
    apply (inv_timer_fresh _ _ _ HI). lia.
  - apply (inv_promise_fresh _ _ _ HI).
  - apply (inv_registry _ _ _ HI).
  - intros sid0 r0 Ho. rewrite Hd. simpl in Ho. case_decide as E.
    + subst r0. intros _. simpl. congruence.
    + apply (inv_busy _ _ _ HI), Ho.
  - intros sid0 r0 Hr. left. rewrite Hd. case_decide as E.
    + unfold busy; simpl. by rewrite orb_true_r.
    + destruct (inv_gc _ _ _ HI _ _ Hr) as [|E0]; [done |].
      destruct Hex as [-> | ->]; [done |]. congruence.
  - apply (inv_release _ _ _ HI).
  - intros r0. rewrite Ha. apply (inv_count _ _ _ HI).
  - intros h d sid0 r0. simpl. rewrite lookup_insert. case_decide as E.
    + subst h. intros [= _ <- <-]. split; [done |]. rewrite Hd.
      by rewrite decide_True.
    + intros Ht. destruct (inv_retry _ _ _ HI _ _ _ _ Ht) as [Ho Hti]. split; [done |].
      rewrite Hd. case_decide as E'; [| done]. subst r0. congruence.
  - intros r0 h. rewrite Hd. case_decide as E; simpl.
    + subst r0. intros [= <-]. exists waitMs, sid. by rewrite lookup_insert_eq.
    + intros Hti. destruct (inv_timer _ _ _ HI _ _ Hti) as (d & sid0 & Ht).
      exists d, sid0. rewrite lookup_insert_ne; [done |]. congruence.
  - intros h d sid0 r0 w. simpl. rewrite lookup_insert. case_decide; [done |].
    apply (inv_waiter_timeout _ _ _ HI).
  - intros r0. rewrite Ha. apply (inv_active_max _ _ _ HI).
  - intros r0. rewrite Hq. apply (inv_queue_max _ _ _ HI).
  - intros r0 w. rewrite Hq. apply (inv_waiter_fresh _ _ _ HI).
  - intros r0. rewrite Hq. apply (inv_nodup _ _ _ HI).
  - intros r1 r2 w1 w2. rewrite !Hq. apply (inv_one_queue _ _ _ HI).
  - intros r0 w. rewrite Hq. intros Hw.
    destruct (inv_deadline _ _ _ HI _ _ Hw) as (h & sid0 & Hh & Ht).
    exists h, sid0. split; [done |]. simpl. rewrite lookup_insert_ne; [done |]. congruence.
  - intros r0 w. rewrite Hq. apply (inv_unsettled _ _ _ HI).
  - congruence.
  - apply (inv_anonymous _ _ _ HI).
Qed.

(** What [processQueue] leaves alone. *)
Lemma processQueue_fuel_frame n sid r s :
  let s' := processQueue_fuel cfg tick n sid r s in
  owner s' = owner s /\ nextBucket s' = nextBucket s /\ nextWaiter s' = nextWaiter s /\
  (forall sid0, buckets s' !! sid0 = buckets s !! sid0 \/
                (sid0 = sid /\ buckets s' !! sid0 = None)).
Proof.
  revert s. induction n as [|n IH]; intros s; [simpl; by auto |].
  cbv zeta. rewrite processQueue_fuel_S.
  destruct (negb (Config.enabled cfg)); [by auto |].
  destruct (active (deref s r) >=? Config.maxConcurrent cfg); [by auto |].
  destruct (queue (deref s r)) as [|waiter rest].
  { repeat split; try by (unfold cleanupBucket; repeat case_match).
    intros sid0. apply cleanupBucket_registry. }
  cbv zeta. case_match.
  { case_match; simpl; by auto. }
  assert (Hg : let g := granted_state tick sid r waiter rest (Date_now tick s).2 in
               owner g = owner s /\ nextBucket g = nextBucket s /\
               nextWaiter g = nextWaiter s /\ buckets g = buckets s).
  { unfold granted_state, settle. simpl. repeat case_match; simpl; auto. }
  destruct Hg as (Ho & Hb & Hw & Hr).
  case_match; [| rewrite Ho, Hb, Hw, Hr; by auto].
  specialize (IH (granted_state tick sid r waiter rest (Date_now tick s).2)).
  cbv zeta in IH. destruct IH as (Ho' & Hb' & Hw' & Hr').
  rewrite Ho', Hb', Hw'. repeat split; try done.
  intros sid0. rewrite <- Hr. apply Hr'.
Qed.

Lemma Inv_processQueue_fuel n sid r : forall ex s,
  Inv cfg ex s -> ex = None \/ ex = Some r ->
  Config.enabled cfg = true ->
  owner s !! r = Some sid -> buckets s !! sid = Some r ->
  (0 < n)%nat \/ ex = None ->
  Inv cfg None (processQueue_fuel cfg tick n sid r s).
Proof.
  pose proof (Config.wf_concurrent cfg cfg_wf) as Hmax.
  induction n as [|n IH]; intros ex s HI Hex Hen Hown Hreg Hn.
  { destruct Hn as [Hn | ->]; [lia | done]. }
  rewrite processQueue_fuel_S, Hen. simpl negb. cbv iota.
  destruct (active (deref s r) >=? Config.maxConcurrent cfg) eqn:Hfull.
  { eapply Inv_close; [done |]. intros r0 sid0 E _.
    destruct Hex as [-> | ->]; [done |]. injection E as <-.
    unfold busy. replace (active (deref s r) >? 0) with true; [done |].
    symmetry. apply Z.gtb_lt. apply Z.geb_le in Hfull. lia. }
  rewrite Z.geb_leb in Hfull. apply Z.leb_gt in Hfull.
  destruct (queue (deref s r)) as [|waiter rest] eqn:Hq.
  { by eapply Inv_cleanupBucket; eauto. }
  cbv zeta.
  pose proof (Inv_Date_now _ _ HI) as HI1.
  set (s1 := (Date_now tick s).2) in *.
  assert (Hd1 : deref s1 r = deref s r) by reflexivity.
  case_match.
  { destruct (timer (deref s1 r)) eqn:Ht.
    - eapply Inv_close; [done |]. intros r0 sid0 E _.
      destruct Hex as [-> | ->]; [done |]. injection E as <-.
      unfold busy. rewrite Ht. simpl. by rewrite orb_true_r.
    - by eapply Inv_retry_scheduled. }
  assert (Hin : waiter ∈ queue (deref s1 r)).
  { rewrite Hd1, Hq. apply list_elem_of_here. }
  rewrite granted_state_eq by (by eapply inv_unsettled).
  assert (HI8 : Inv cfg None (granted_explicit tick sid r waiter rest s1)).
  { eapply Inv_granted; eauto. }
  case_match; [| done].
  eapply IH; eauto.
Qed.

Lemma Inv_processQueue ex s sid r :
  Inv cfg ex s -> ex = None \/ ex = Some r ->
  Config.enabled cfg = true ->
  owner s !! r = Some sid -> buckets s !! sid = Some r ->
  Inv cfg None (processQueue cfg tick sid r s).
Proof. intros. eapply Inv_processQueue_fuel; eauto. left. lia. Qed.

(** State after the flag and the counter of a release are updated. *)
Lemma Inv_release_begin s (k : nat) c :
  Inv cfg None s -> releases s !! k = Some c -> rc_released c = false ->
  let s1 :=
    upd_releases
      <[k := {| rc_session := rc_session c; rc_bucket := rc_bucket c;
                rc_released := true; rc_startedAt := rc_startedAt c |}]> s in
  let s2 :=
    upd_bucket (rc_bucket c) (fun b => with_active (Z.max 0 (active b - 1)) b) s1 in
  Inv cfg (Some (rc_bucket c)) s2 /\ buckets s2 !! rc_session c = Some (rc_bucket c) /\
  active (deref s2 (rc_bucket c)) = active (deref s (rc_bucket c)) - 1.
Proof.
  intros HI Hk Hc s1 s2.
  pose proof (inv_release _ _ _ HI _ _ Hk Hc) as Hown.
  pose proof (owner_heap _ _ _ _ HI Hown) as Hheap.
  assert (Hone : 1 <= active (deref s (rc_bucket c))).
  { rewrite (inv_count _ _ _ HI). eapply count_lookup; [done |].
    unfold holds_bucket. by rewrite Hc, Nat.eqb_refl. }
  assert (Hreg : buckets s !! rc_session c = Some (rc_bucket c)).
  { apply (inv_busy _ _ _ HI); [done |]. unfold busy.
    replace (active (deref s (rc_bucket c)) >? 0) with true; [done |].
    symmetry. apply Z.gtb_lt. lia. }
  assert (Hd : forall r0, deref s2 r0 =
            if decide (rc_bucket c = r0)
            then with_active (active (deref s (rc_bucket c)) - 1) (deref s (rc_bucket c))
            else deref s r0).
  { intros r0. unfold s2. rewrite deref_upd_bucket. case_decide; [| done].
    change (deref s1 (rc_bucket c)) with (deref s (rc_bucket c)).
    by rewrite Z.max_r by lia. }
  assert (Hq : forall r0, queue (deref s2 r0) = queue (deref s r0)).
  { intros r0. rewrite Hd. by case_decide as E; [subst r0 |]. }
  assert (Ht : forall r0, timer (deref s2 r0) = timer (deref s r0)).
  { intros r0. rewrite Hd. by case_decide as E; [subst r0 |]. }
  split; [| split; [done | by rewrite Hd, decide_True]].
  split.
  - intros r0 Hr0. simpl. rewrite lookup_insert_ne.
    + by apply (inv_heap_fresh _ _ _ HI).
    + intros E. rewrite E, (inv_heap_fresh _ _ _ HI _ Hr0) in Hheap. by destruct Hheap.
  - intros r0. simpl. rewrite lookup_insert. case_decide as E.
    + subst r0. split; eauto.
    + apply (inv_owner_dom _ _ _ HI).
  - apply (inv_timer_fresh _ _ _ HI).
  - apply (inv_promise_fresh _ _ _ HI).
  - apply (inv_registry _ _ _ HI).
  - intros sid0 r0 Ho. simpl in Ho. rewrite Hd. case_decide as E.
    + subst r0. intros _. simpl. congruence.
    + apply (inv_busy _ _ _ HI), Ho.
  - intros sid0 r0 Hr. destruct (decide (rc_bucket c = r0)) as [<- | E]; [by right |].
    left. rewrite Hd, decide_False by done.
    by destruct (inv_gc _ _ _ HI _ _ Hr).
  - intros k0 c0. simpl. intros Hk0 Hc0.
    apply list_lookup_insert_Some in Hk0 as [(-> & <- & _) | [Hne Hk0]]; [done |].
    by apply (inv_release _ _ _ HI k0).
  - intros r0. simpl releases. rewrite (count_insert _ _ _ _ _ Hk).
    unfold holds_bucket at 2 3. simpl. rewrite Hc. simpl. rewrite Hd.
    case_decide as E.
    + subst r0. simpl. rewrite Nat.eqb_refl, (inv_count _ _ _ HI). lia.
    + apply Nat.eqb_neq in E. rewrite E, (inv_count _ _ _ HI). lia.
  - intros h d sid0 r0 Hh. rewrite Ht. by apply (inv_retry _ _ _ HI _ d).
  - intros r0 h. rewrite Ht. apply (inv_timer _ _ _ HI).
  - apply (inv_waiter_timeout _ _ _ HI).
  - intros r0. rewrite Hd. case_decide; simpl.
    + pose proof (inv_active_max _ _ _ HI (rc_bucket c)). lia.
    + apply (inv_active_max _ _ _ HI).
  - intros r0. rewrite Hq. apply (inv_queue_max _ _ _ HI).
  - intros r0 w. rewrite Hq. apply (inv_waiter_fresh _ _ _ HI).
  - intros r0. rewrite Hq. apply (inv_nodup _ _ _ HI).
  - intros r1 r2 w1 w2. rewrite !Hq. apply (inv_one_queue _ _ _ HI).
  - intros r0 w. rewrite Hq. apply (inv_deadline _ _ _ HI).
  - intros r0 w. rewrite Hq. apply (inv_unsettled _ _ _ HI).
  - intros Hdis. destruct (inv_disabled _ _ _ HI Hdis) as [Hnil _].
    by rewrite Hnil in Hk.
  - apply (inv_anonymous _ _ _ HI).
Qed.

Lemma enabled_of_release ex s (k : nat) c :
  Inv cfg ex s -> releases s !! k = Some c -> Config.enabled cfg = true.
Proof.
  intros HI Hk. destruct (Config.enabled cfg) eqn:E; [done |].
  destruct (inv_disabled _ _ _ HI E) as [Hnil _]. by rewrite Hnil in Hk.
Qed.

Lemma enabled_of_timer ex s h tm :
  Inv cfg ex s -> timers s !! h = Some tm -> Config.enabled cfg = true.
Proof.
  intros HI Hk. destruct (Config.enabled cfg) eqn:E; [done |].
  destruct (inv_disabled _ _ _ HI E) as [_ Hnil]. by rewrite Hnil in Hk.
Qed.

Lemma Inv_release s k : Inv cfg None s -> Inv cfg None (release cfg tick k s).
Proof.
  intros HI. unfold release.
  destruct (releases s !! k) as [c|] eqn:Hk; [| done].
  destruct (rc_released c) eqn:Hc; [done |].
  pose proof (enabled_of_release _ _ _ _ HI Hk) as Hen.
  pose proof (inv_release _ _ _ HI _ _ Hk Hc) as Hown.
  destruct (Inv_release_begin _ _ _ HI Hk Hc) as (HI2 & Hreg2 & _).
  cbv zeta in HI2, Hreg2.
  match goal with |- Inv cfg None (cleanupBucket _ _ (processQueue _ _ _ _ ?s2)) =>
    set (S2 := s2) in * end.
  assert (HI3 : Inv cfg None (processQueue cfg tick (rc_session c) (rc_bucket c) S2)).
  { eapply Inv_processQueue; eauto. }
  destruct (processQueue_fuel_frame (S (length (queue (deref S2 (rc_bucket c)))))
              (rc_session c) (rc_bucket c) S2) as (Ho & _ & _ & Hb).
  fold (processQueue cfg tick (rc_session c) (rc_bucket c) S2) in Ho, Hb.
  eapply Inv_cleanupBucket; eauto.
  - by rewrite Ho.
  - destruct (Hb (rc_session c)) as [-> | [_ ->]]; auto.
Qed.

Lemma Inv_retry_fired s h d sid r :
  Inv cfg None s ->
  timers s !! h = Some {| delay := d; callback := RetryTimer sid r |} ->
  let s1 := upd_bucket r (with_timer None) (upd_timers (delete h) s) in
  Inv cfg (Some r) s1 /\ owner s1 !! r = Some sid /\ buckets s1 !! sid = Some r.
Proof.
  intros HI Hh s1.
  destruct (inv_retry _ _ _ HI _ _ _ _ Hh) as [Hown Hti].
  pose proof (owner_heap _ _ _ _ HI Hown) as Hheap.
  assert (Hreg : buckets s !! sid = Some r).
  { apply (inv_busy _ _ _ HI); [done |]. unfold busy. rewrite Hti. simpl.
    by rewrite orb_true_r. }
  assert (Hd : forall r0, deref s1 r0 =
            if decide (r = r0) then with_timer None (deref s r) else deref s r0).
  { intros r0. unfold s1. rewrite deref_upd_bucket. by case_decide. }
  assert (Hq : forall r0, queue (deref s1 r0) = queue (deref s r0)).
  { intros r0. rewrite Hd. by case_decide as E; [subst r0 |]. }
  assert (Ha : forall r0, active (deref s1 r0) = active (deref s r0)).
  { intros r0. rewrite Hd. by case_decide as E; [subst r0 |]. }
  assert (Htm : timers s1 = delete h (timers s)) by reflexivity.
  split; [| by split]. split.
  - intros r0 Hr0. simpl. rewrite lookup_insert_ne.
    + by apply (inv_heap_fresh _ _ _ HI).
    + intros ->. rewrite (inv_heap_fresh _ _ _ HI _ Hr0) in Hheap. by destruct Hheap.
  - intros r0. simpl. rewrite lookup_insert. case_decide as E.
    + subst r0. split; eauto.
    + apply (inv_owner_dom _ _ _ HI).
  - intros h0 Hh0. rewrite Htm, lookup_delete. case_decide; [done |].
    by apply (inv_timer_fresh _ _ _ HI).
  - apply (inv_promise_fresh _ _ _ HI).
  - apply (inv_registry _ _ _ HI).
  - intros sid0 r0 Ho. change (owner s1) with (owner s) in Ho. rewrite Hd.
    case_decide as E.
    + subst r0. intros _. change (buckets s1) with (buckets s). congruence.
    + apply (inv_busy _ _ _ HI), Ho.
  - intros sid0 r0 Hr. destruct (decide (r = r0)) as [<- | E]; [by right |].
    left. rewrite Hd, decide_False by done. by destruct (inv_gc _ _ _ HI _ _ Hr).
  - apply (inv_release _ _ _ HI).
  - intros r0. rewrite Ha. apply (inv_count _ _ _ HI).
  - intros h0 d0 sid0 r0. rewrite Htm, lookup_delete. case_decide as E; [done |].
    intros Ht. destruct (inv_retry _ _ _ HI _ _ _ _ Ht) as [Ho Hti0]. split; [done |].
    rewrite Hd. case_decide as E'; [| done]. subst r0. congruence.
  - intros r0 h0. rewrite Hd. case_decide as E; [done |]. intros Hti0.
    destruct (inv_timer _ _ _ HI _ _ Hti0) as (d0 & sid0 & Ht). exists d0, sid0.
    rewrite Htm, lookup_delete. case_decide; [| done]. congruence.
  - intros h0 d0 sid0 r0 w. rewrite Htm, lookup_delete. case_decide; [done |].
    apply (inv_waiter_timeout _ _ _ HI).
  - intros r0. rewrite Ha. apply (inv_active_max _ _ _ HI).
  - intros r0. rewrite Hq. apply (inv_queue_max _ _ _ HI).
  - intros r0 w. rewrite Hq. apply (inv_waiter_fresh _ _ _ HI).
  - intros r0. rewrite Hq. apply (inv_nodup _ _ _ HI).
  - intros r1 r2 w1 w2. rewrite !Hq. apply (inv_one_queue _ _ _ HI).
  - intros r0 w. rewrite Hq. intros Hw.
    destruct (inv_deadline _ _ _ HI _ _ Hw) as (h0 & sid0 & Hh0 & Ht).
    exists h0, sid0. split; [done |]. rewrite Htm, lookup_delete.
    case_decide; [congruence | done].
  - intros r0 w. rewrite Hq. apply (inv_unsettled _ _ _ HI).
  - intros Hdis. destruct (inv_disabled _ _ _ HI Hdis) as [_ Hnil].
    rewrite Hnil in Hh. by rewrite lookup_empty in Hh.
  - apply (inv_anonymous _ _ _ HI).
Qed.

Lemma Inv_timeout_missed s h d sid r w :
  Inv cfg None s ->
  timers s !! h = Some {| delay := d; callback := WaiterTimeout sid r w |} ->
  indexOf (queue (deref s r)) w = None ->
  Inv cfg None (upd_timers (delete h) s).
Proof.
  intros HI Hh Hidx. set (s0 := upd_timers (delete h) s).
  assert (Hd : forall r0, deref s0 r0 = deref s r0) by reflexivity.
  split; try (apply HI);
    try (intros; rewrite ?Hd in *; by eapply HI).
  - intros h0 Hh0. simpl. rewrite lookup_delete. case_decide; [done |].
    by apply (inv_timer_fresh _ _ _ HI).
  - intros h0 d0 sid0 r0. simpl. rewrite lookup_delete. case_decide; [done |].
    apply (inv_retry _ _ _ HI).
  - intros r0 h0. rewrite Hd. intros Hti.
    destruct (inv_timer _ _ _ HI _ _ Hti) as (d0 & sid0 & Ht). exists d0, sid0.
    simpl. rewrite lookup_delete. case_decide; [congruence | done].
  - intros h0 d0 sid0 r0 w0. simpl. rewrite lookup_delete. case_decide; [done |].
    apply (inv_waiter_timeout _ _ _ HI).
  - intros r0 w0. rewrite Hd. intros Hw.
    destruct (inv_deadline _ _ _ HI _ _ Hw) as (h0 & sid0 & Hh0 & Ht).
    exists h0, sid0. split; [done |]. simpl. rewrite lookup_delete.
    case_decide as E; [| done]. subst h0. rewrite Hh in Ht. injection Ht as _ _ <- Ew.
    exfalso. by eapply (indexOf_None _ _ Hidx).
  - intros Hdis. destruct (inv_disabled _ _ _ HI Hdis) as [_ Hnil].
    rewrite Hnil in Hh. by rewrite lookup_empty in Hh.
Qed.

Lemma Inv_timeout_fired s h d sid r w index :
  Inv cfg None s ->
  timers s !! h = Some {| delay := d; callback := WaiterTimeout sid r w |} ->
  indexOf (queue (deref s r)) w = Some index ->
  let s1 := upd_bucket r (fun b => with_queue (delete index (queue b)) b)
              (upd_timers (delete h) s) in
  let s2 := settle w (Rejected (timeoutError sid (Config.queueTimeoutMs cfg))) s1 in
  s2 = upd_promises
         <[w := Rejected (timeoutError sid (Config.queueTimeoutMs cfg))]> s1 /\
  Inv cfg (Some r) s2 /\ owner s2 !! r = Some sid /\ buckets s2 !! sid = Some r.
Proof.
  intros HI Hh Hidx s1 s2.
  pose proof (inv_waiter_timeout _ _ _ HI _ _ _ _ _ Hh) as Hown.
  pose proof (owner_heap _ _ _ _ HI Hown) as Hheap.
  destruct (indexOf_Some _ _ _ Hidx) as (x & Hx & Hwx).
  assert (Hin : x ∈ queue (deref s r)) by (by eapply list_elem_of_lookup_2).
  assert (Hreg : buckets s !! sid = Some r).
  { apply (inv_busy _ _ _ HI); [done |]. unfold busy.
    destruct (queue (deref s r)); [by apply elem_of_nil in Hin |]. simpl.
    by rewrite orb_true_r. }
  assert (Hun : promises s1 !! w = None).
  { rewrite <- Hwx. by apply (inv_unsettled _ _ _ HI r). }
  assert (Hs2 : s2 = upd_promises
            <[w := Rejected (timeoutError sid (Config.queueTimeoutMs cfg))]> s1).
  { unfold s2, settle. by rewrite Hun. }
  split; [done |]. rewrite Hs2. clear Hs2 s2.
  set (s2 := upd_promises _ s1).
  assert (Hd : forall r0, deref s2 r0 =
            if decide (r = r0)
            then with_queue (delete index (queue (deref s r))) (deref s r)
            else deref s r0).
  { intros r0. change (deref s2 r0) with (deref s1 r0). unfold s1.
    rewrite deref_upd_bucket. by case_decide. }
  assert (Ht : forall r0, timer (deref s2 r0) = timer (deref s r0)).
  { intros r0. rewrite Hd. by case_decide as E; [subst r0 |]. }
  assert (Ha : forall r0, active (deref s2 r0) = active (deref s r0)).
  { intros r0. rewrite Hd. by case_decide as E; [subst r0 |]. }
  assert (Hsub : forall r0 w0, w0 ∈ queue (deref s2 r0) ->
            w0 ∈ queue (deref s r0) /\ wid w0 <> w).
  { intros r0 w0. rewrite Hd. case_decide as E; simpl.
    - subst r0. intros Hw0. split; [by eapply list_elem_of_delete_inv |].
      intros Ew. pose proof (inv_nodup _ _ _ HI r) as Hnd.
      eapply (NoDup_delete_notin _ index (wid x)) in Hnd;
        [| by rewrite list_lookup_fmap, Hx].
      apply Hnd. rewrite <- list_fmap_delete. apply list_elem_of_fmap.
      exists w0. split; [congruence | done].
    - intros Hw0. split; [done |]. intros Ew.
      apply E. symmetry. apply (inv_one_queue _ _ _ HI _ _ _ _ Hw0 Hin). congruence. }
  assert (Htm : timers s2 = delete h (timers s)) by reflexivity.
  split; [| by split]. split.
  - intros r0 Hr0. simpl. rewrite lookup_insert_ne.
    + by apply (inv_heap_fresh _ _ _ HI).
    + intros ->. rewrite (inv_heap_fresh _ _ _ HI _ Hr0) in Hheap. by destruct Hheap.
  - intros r0. simpl. rewrite lookup_insert. case_decide as E.
    + subst r0. split; eauto.
    + apply (inv_owner_dom _ _ _ HI).
  - intros h0 Hh0. rewrite Htm, lookup_delete. case_decide; [done |].
    by apply (inv_timer_fresh _ _ _ HI).
  - intros w0 Hw0. simpl in *. rewrite lookup_insert_ne.
    + by apply (inv_promise_fresh _ _ _ HI).
    + pose proof (inv_waiter_fresh _ _ _ HI _ _ Hin). lia.
  - apply (inv_registry _ _ _ HI).
  - intros sid0 r0 Ho. change (owner s2) with (owner s) in Ho. rewrite Hd.
    case_decide as E.
    + subst r0. intros _. change (buckets s2) with (buckets s). congruence.
    + apply (inv_busy _ _ _ HI), Ho.
  - intros sid0 r0 Hr. destruct (decide (r = r0)) as [<- | E]; [by right |].
    left. rewrite Hd, decide_False by done. by destruct (inv_gc _ _ _ HI _ _ Hr).
  - apply (inv_release _ _ _ HI).
  - intros r0. rewrite Ha. apply (inv_count _ _ _ HI).
  - intros h0 d0 sid0 r0. rewrite Htm, lookup_delete. case_decide as E; [done |].
    intros Ht0. rewrite Ht. by apply (inv_retry _ _ _ HI _ d0).
  - intros r0 h0. rewrite Ht. intros Hti0.
    destruct (inv_timer _ _ _ HI _ _ Hti0) as (d0 & sid0 & Ht0). exists d0, sid0.
    rewrite Htm, lookup_delete. case_decide; [| done]. congruence.
  - intros h0 d0 sid0 r0 w0. rewrite Htm, lookup_delete. case_decide; [done |].
    apply (inv_waiter_timeout _ _ _ HI).
  - intros r0. rewrite Ha. apply (inv_active_max _ _ _ HI).
  - intros r0. rewrite Hd. case_decide as E; simpl.
    + pose proof (inv_queue_max _ _ _ HI r).
      rewrite length_delete by eauto. lia.
    + apply (inv_queue_max _ _ _ HI).
  - intros r0 w0 Hw0. simpl. apply (inv_waiter_fresh _ _ _ HI r0), Hsub, Hw0.
  - intros r0. rewrite Hd. case_decide as E; simpl; [| apply (inv_nodup _ _ _ HI)].
    rewrite list_fmap_delete.
    apply (sublist_NoDup _ (wid <$> queue (deref s r))); [apply (inv_nodup _ _ _ HI r) |].
    apply sublist_delete.
  - intros r1 r2 w1 w2 H1 H2. apply (inv_one_queue _ _ _ HI); by apply Hsub.
  - intros r0 w0 Hw0. destruct (Hsub _ _ Hw0) as [Hw1 Hne].
    destruct (inv_deadline _ _ _ HI _ _ Hw1) as (h0 & sid0 & Hh0 & Ht0).
    exists h0, sid0. split; [done |]. rewrite Htm, lookup_delete.
    case_decide as E; [| done]. subst h0. rewrite Hh in Ht0. by injection Ht0 as _ _ _ Ew.
  - intros r0 w0 Hw0. destruct (Hsub _ _ Hw0) as [Hw1 Hne]. simpl.
    rewrite lookup_insert_ne by done. by apply (inv_unsettled _ _ _ HI r0).
  - intros Hdis. destruct (inv_disabled _ _ _ HI Hdis) as [_ Hnil].
    rewrite Hnil in Hh. by rewrite lookup_empty in Hh.
  - apply (inv_anonymous _ _ _ HI).
Qed.

Lemma Inv_fire s h : Inv cfg None s -> Inv cfg None (fire cfg tick h s).
Proof.
  intros HI. unfold fire.
  destruct (timers s !! h) as [[d cb]|] eqn:Hh; [| done].
  pose proof (enabled_of_timer _ _ _ _ HI Hh) as Hen.
  destruct cb as [sid r w | sid r]; cbn [callback run_callback].
  - change (deref (upd_timers (delete h) s) r) with (deref s r).
    destruct (indexOf (queue (deref s r)) w) as [index|] eqn:Hidx.
    + destruct (Inv_timeout_fired _ _ _ _ _ _ _ HI Hh Hidx) as (_ & HI2 & Ho & Hr).
      cbv zeta in HI2, Ho, Hr. eapply Inv_cleanupBucket; eauto.
    + by eapply Inv_timeout_missed.
  - destruct (Inv_retry_fired _ _ _ _ _ HI Hh) as (HI1 & Ho & Hr).
    cbv zeta in HI1, Ho, Hr. eapply Inv_processQueue; eauto.
Qed.

Lemma count_none p l :
  (forall (k : nat) c, l !! k = Some c -> p c = false) -> count p l = 0.
Proof.
  intros H. pose proof (count_nonneg p l).
  destruct (decide (0 < count p l)) as [Hpos | ?]; [| lia].
  destruct (count_pos _ _ Hpos) as (k & c & Hk & Hc). rewrite (H _ _ Hk) in Hc. done.
Qed.

Lemma Inv_getBucket s sid :
  Inv cfg None s -> sid <> "" ->
  let r := (getBucket sid s).1 in
  let s1 := (getBucket sid s).2 in
  Inv cfg (Some r) s1 /\ owner s1 !! r = Some sid /\ buckets s1 !! sid = Some r /\
  (s1 = s \/ queue (deref s1 r) = []).
Proof.
  intros HI Hsid. unfold getBucket.
  destruct (buckets s !! sid) as [existing|] eqn:Hb; cbn [fst snd].
  { split; [by apply Inv_open |]. split; [by apply (inv_registry _ _ _ HI) |]. auto. }
  set (r := nextBucket s).
  set (s1 := Build_Limiter _ _ _ _ _ _ _ _ _ _ _).
  pose proof (inv_heap_fresh _ _ _ HI r (le_n _)) as Hfresh.
  assert (Hofresh : owner s !! r = None).
  { destruct (owner s !! r) eqn:E; [| done].
    assert (is_Some (heap s !! r)) as [? ?] by (apply (inv_owner_dom _ _ _ HI); eauto).
    congruence. }
  assert (Hd : forall r0, deref s1 r0 = if decide (r = r0) then created else deref s r0).
  { intros r0. unfold deref, s1. cbn [heap]. rewrite lookup_insert. by case_decide. }
  assert (Hold : forall r0 sid0, owner s !! r0 = Some sid0 -> r <> r0) by congruence.
  assert (Hmem : forall r0 w, w ∈ queue (deref s1 r0) -> w ∈ queue (deref s r0)).
  { intros r0 w. rewrite Hd. case_decide; [| done]. simpl. by intros ?%elem_of_nil. }
  split; [| split; [| split]].
  2: { unfold s1; cbn [owner]. by rewrite lookup_insert_eq. }
  2: { unfold s1; cbn [buckets]. by rewrite lookup_insert_eq. }
  2: { right. by rewrite Hd, decide_True. }
  pose proof (Config.wf_concurrent cfg cfg_wf).
  pose proof (Config.wf_queue cfg cfg_wf).
  split.
  - intros r0 Hr0. unfold s1 in *; cbn [heap nextBucket] in *.
    rewrite lookup_insert_ne by (unfold r; lia). apply (inv_heap_fresh _ _ _ HI).
    unfold r in *. lia.
  - intros r0. unfold s1; cbn [heap owner]. rewrite !lookup_insert.
    case_decide; [split; eauto |]. apply (inv_owner_dom _ _ _ HI).
  - apply (inv_timer_fresh _ _ _ HI).
  - apply (inv_promise_fresh _ _ _ HI).
  - intros sid0 r0. unfold s1; cbn [buckets owner]. rewrite !lookup_insert.
    case_decide as E1.
    + intros [= <-]. rewrite decide_True by done. congruence.
    + intros Hr. pose proof (inv_registry _ _ _ HI _ _ Hr) as Ho.
      rewrite decide_False; [done |]. by eapply Hold.
  - intros sid0 r0. rewrite Hd. unfold s1; cbn [buckets owner]. rewrite !lookup_insert.
    case_decide as E1; [done |]. intros Ho Hbz.
    pose proof (inv_busy _ _ _ HI _ _ Ho Hbz) as Hr.
    case_decide as E2; [congruence | done].
  - intros sid0 r0. unfold s1; cbn [buckets]. rewrite lookup_insert.
    case_decide as E1.
    + intros [= <-]. by right.
    + intros Hr. left. rewrite Hd, decide_False.
      * by destruct (inv_gc _ _ _ HI _ _ Hr).
      * eapply Hold. by apply (inv_registry _ _ _ HI).
  - intros k c Hk Hc. unfold s1; cbn [owner releases] in *.
    pose proof (inv_release _ _ _ HI _ _ Hk Hc) as Ho.
    rewrite lookup_insert_ne; [done |]. by eapply Hold.
  - intros r0. rewrite Hd. case_decide as E; [| apply (inv_count _ _ _ HI)].
    subst r0. simpl. symmetry. apply count_none. intros k c Hk.
    unfold holds_bucket. destruct (rc_released c) eqn:Hc; [done |]. simpl.
    apply Nat.eqb_neq. pose proof (inv_release _ _ _ HI _ _ Hk Hc) as Ho. intros E.
    by eapply Hold.
  - intros h d sid0 r0 Hh. destruct (inv_retry _ _ _ HI _ _ _ _ Hh) as [Ho Hti].
    unfold s1 at 1; cbn [owner]. rewrite Hd.
    pose proof (Hold _ _ Ho). rewrite lookup_insert_ne, decide_False by done. done.
  - intros r0 h. rewrite Hd. case_decide; [done |]. apply (inv_timer _ _ _ HI).
  - intros h d sid0 r0 w Hh. pose proof (inv_waiter_timeout _ _ _ HI _ _ _ _ _ Hh) as Ho.
    unfold s1; cbn [owner]. pose proof (Hold _ _ Ho). by rewrite lookup_insert_ne.
  - intros r0. rewrite Hd. case_decide; [simpl; lia |]. apply (inv_active_max _ _ _ HI).
  - intros r0. rewrite Hd. case_decide; [simpl; lia |]. apply (inv_queue_max _ _ _ HI).
  - intros r0 w Hw. apply (inv_waiter_fresh _ _ _ HI r0), Hmem, Hw.
  - intros r0. rewrite Hd. case_decide; [constructor |]. apply (inv_nodup _ _ _ HI).
  - intros r1 r2 w1 w2 H1 H2. apply (inv_one_queue _ _ _ HI); by apply Hmem.
  - intros r0 w Hw. apply (inv_deadline _ _ _ HI), Hmem, Hw.
  - intros r0 w Hw. apply (inv_unsettled _ _ _ HI r0), Hmem, Hw.
  - apply (inv_disabled _ _ _ HI).
  - unfold s1; cbn [buckets]. rewrite lookup_insert_ne by done.
    apply (inv_anonymous _ _ _ HI).
Qed.


Lemma acquireLocal_unfold sid s :
  acquireLocal cfg tick sid s =
    let r := (getBucket sid s).1 in
    let s1 := (getBucket sid s).2 in
    if Z.of_nat (length (queue (deref s1 r))) >=? Config.maxQueuePerSession cfg
    then (inl (overflowError sid (Config.maxQueuePerSession cfg)), s1)
    else (inr (nextWaiter s1), processQueue cfg tick sid r (enqueued cfg sid r s1)).
Proof.
  pose proof (Config.wf_timeout cfg cfg_wf) as Hto.
  unfold acquireLocal. destruct (getBucket sid s) as [r s1]. cbn [fst snd].
  case_match; [done |].
  replace (Config.queueTimeoutMs cfg >? 0) with true; [done |].
  symmetry. apply Z.gtb_lt. lia.
Qed.

Lemma Inv_enqueued ex s1 sid r :
  Inv cfg ex s1 -> ex = None \/ ex = Some r ->
  Config.enabled cfg = true ->
  owner s1 !! r = Some sid -> buckets s1 !! sid = Some r ->
  Z.of_nat (length (queue (deref s1 r))) < Config.maxQueuePerSession cfg ->
  Inv cfg None (enqueued cfg sid r s1).
Proof.
  intros HI Hex Hen Hown Hreg Hlen.
  pose proof (owner_heap _ _ _ _ HI Hown) as Hheap.
  pose proof (inv_timer_fresh _ _ _ HI (nextHandle s1) (le_n _)) as Hfresh.
  pose proof (inv_promise_fresh _ _ _ HI (nextWaiter s1) (le_n _)) as Hpfresh.
  set (waiter := {| wid := nextWaiter s1; timeoutHandle := Some (nextHandle s1) |}).
  set (s4 := enqueued cfg sid r s1).
  assert (Hd : forall r0, deref s4 r0 =
            if decide (r = r0)
            then with_queue (queue (deref s1 r) ++ [waiter]) (deref s1 r)
            else deref s1 r0).
  { intros r0. unfold s4, enqueued. rewrite deref_upd_bucket. by case_decide. }
  assert (Ht : forall r0, timer (deref s4 r0) = timer (deref s1 r0)).
  { intros r0. rewrite Hd. by case_decide as E; [subst r0 |]. }
  assert (Ha : forall r0, active (deref s4 r0) = active (deref s1 r0)).
  { intros r0. rewrite Hd. by case_decide as E; [subst r0 |]. }
  assert (Htm : timers s4 =
            <[nextHandle s1 := {| delay := Config.queueTimeoutMs cfg;
                                  callback := WaiterTimeout sid r (nextWaiter s1) |}]>
              (timers s1)) by reflexivity.
  assert (Hmem : forall r0 w, w ∈ queue (deref s4 r0) ->
            w ∈ queue (deref s1 r0) \/ (r0 = r /\ w = waiter)).
  { intros r0 w. rewrite Hd. case_decide as E; [| by left]. subst r0. simpl.
    rewrite elem_of_app, list_elem_of_singleton. intros [? | ?]; auto. }
  assert (Hlt : forall r0 w, w ∈ queue (deref s1 r0) -> wid w <> nextWaiter s1).
  { intros r0 w Hw. pose proof (inv_waiter_fresh _ _ _ HI _ _ Hw). lia. }
  split.
  - intros r0 Hr0. simpl. rewrite lookup_insert_ne.
    + by apply (inv_heap_fresh _ _ _ HI).
    + intros ->. rewrite (inv_heap_fresh _ _ _ HI _ Hr0) in Hheap. by destruct Hheap.
  - intros r0. simpl. rewrite lookup_insert. case_decide as E.
    + subst r0. split; eauto.
    + apply (inv_owner_dom _ _ _ HI).
  - intros h Hh. rewrite Htm. simpl in Hh. rewrite lookup_insert_ne by lia.
    apply (inv_timer_fresh _ _ _ HI). lia.
  - intros w Hw. simpl in *. apply (inv_promise_fresh _ _ _ HI). lia.
  - apply (inv_registry _ _ _ HI).
  - intros sid0 r0 Ho. change (owner s4) with (owner s1) in Ho. rewrite Hd.
    case_decide as E.
    + subst r0. intros _. change (buckets s4) with (buckets s1). congruence.
    + apply (inv_busy _ _ _ HI), Ho.
  - intros sid0 r0 Hr. left. rewrite Hd. case_decide as E.
    + unfold busy. simpl. rewrite length_app. simpl.
      replace (0 <? length (queue (deref s1 r)) + 1)%nat with true.
      * by rewrite orb_true_r.
      * symmetry. apply Nat.ltb_lt. lia.
    + destruct (inv_gc _ _ _ HI _ _ Hr) as [|E0]; [done |].
      destruct Hex as [-> | ->]; [done |]. congruence.
  - apply (inv_release _ _ _ HI).
  - intros r0. rewrite Ha. apply (inv_count _ _ _ HI).
  - intros h d sid0 r0. rewrite Htm, lookup_insert. case_decide as E; [done |].
    intros Hh. rewrite Ht. by apply (inv_retry _ _ _ HI _ d).
  - intros r0 h. rewrite Ht. intros Hti.
    destruct (inv_timer _ _ _ HI _ _ Hti) as (d & sid0 & Hh). exists d, sid0.
    rewrite Htm, lookup_insert_ne; [done |]. congruence.
  - intros h d sid0 r0 w. rewrite Htm, lookup_insert. case_decide as E.
    + intros [= _ <- <- _]. done.
    + apply (inv_waiter_timeout _ _ _ HI).
  - intros r0. rewrite Ha. apply (inv_active_max _ _ _ HI).
  - intros r0. rewrite Hd. case_decide as E; simpl.
    + rewrite length_app. simpl. lia.
    + apply (inv_queue_max _ _ _ HI).
  - intros r0 w Hw. simpl. destruct (Hmem _ _ Hw) as [Hw1 | [_ ->]].
    + pose proof (inv_waiter_fresh _ _ _ HI _ _ Hw1). lia.
    + simpl. lia.
  - intros r0. rewrite Hd. case_decide as E; simpl; [| apply (inv_nodup _ _ _ HI)].
    rewrite fmap_app. apply NoDup_app. split; [apply (inv_nodup _ _ _ HI) |]. split.
    + intros x Hx1 Hx2. simpl in Hx2. apply list_elem_of_singleton in Hx2.
      apply list_elem_of_fmap in Hx1 as (y & -> & Hy). by eapply Hlt.
    + simpl. apply NoDup_singleton.
  - intros r1 r2 w1 w2 H1 H2 Ew.
    destruct (Hmem _ _ H1) as [H1' | [-> ->]], (Hmem _ _ H2) as [H2' | [-> ->]].
    + by eapply (inv_one_queue _ _ _ HI).
    + exfalso. by eapply Hlt.
    + exfalso. eapply Hlt; [apply H2' |]. done.
    + done.
  - intros r0 w Hw. destruct (Hmem _ _ Hw) as [Hw1 | [-> ->]].
    + destruct (inv_deadline _ _ _ HI _ _ Hw1) as (h & sid0 & Hh & Hti).
      exists h, sid0. split; [done |]. rewrite Htm, lookup_insert_ne; [done |].
      congruence.
    + exists (nextHandle s1), sid. split; [done |]. by rewrite Htm, lookup_insert_eq.
  - intros r0 w Hw. change (promises s4) with (promises s1).
    destruct (Hmem _ _ Hw) as [Hw1 | [-> ->]]; [by eapply (inv_unsettled _ _ _ HI) | done].
  - congruence.
  - apply (inv_anonymous _ _ _ HI).
Qed.

Lemma Inv_acquireLocal s sid :
  Inv cfg None s -> Config.enabled cfg = true -> sid <> "" ->
  Inv cfg None (acquireLocal cfg tick sid s).2.
Proof.
  intros HI Hen Hsid. rewrite acquireLocal_unfold. cbv zeta.
  destruct (Inv_getBucket _ sid HI Hsid) as (HI1 & Hown & Hreg & Hnew).
  cbv zeta in HI1, Hown, Hreg, Hnew.
  set (r := (getBucket sid s).1) in *. set (s1 := (getBucket sid s).2) in *.
  pose proof (Config.wf_queue cfg cfg_wf) as Hq.
  destruct (Z.of_nat (length (queue (deref s1 r))) >=? Config.maxQueuePerSession cfg)
    eqn:Hfull; cbn [snd].
  - destruct Hnew as [-> | Hnil]; [done |].
    rewrite Hnil in Hfull. simpl in Hfull. apply Z.geb_le in Hfull. lia.
  - rewrite Z.geb_leb in Hfull. apply Z.leb_gt in Hfull.
    eapply Inv_processQueue; [eapply Inv_enqueued; eauto | auto | done | done | done].
Qed.

Lemma Inv_step s e : Inv cfg None s -> Inv cfg None (step cfg tick s e).
Proof.
  intros HI. destruct e as [sid | k | h | ms]; cbn [step].
  - unfold acquire_local_mode.
    destruct (Config.enabled cfg) eqn:Hen; cbn [negb orb]; [| done].
    destruct (String.eqb_spec sid "") as [| Hsid]; [done |].
    pose proof (Inv_acquireLocal _ sid HI Hen Hsid) as HI'.
    by destruct (acquireLocal cfg tick sid s) as [[e | w] s'].
  - by apply Inv_release.
  - by apply Inv_fire.
  - by apply Inv_elapse.
Qed.

Lemma Inv_fold s evs : Inv cfg None s -> Inv cfg None (fold_left (step cfg tick) evs s).
Proof.
  revert s. induction evs as [|e evs IH]; intros s HI; [done |].
  simpl. apply IH. by apply Inv_step.
Qed.

Lemma Inv_run start evs : Inv cfg None (run cfg tick start evs).
Proof. apply Inv_fold, Inv_init. Qed.

Lemma busy_true b :
  busy b = true <-> 0 < active b \/ queue b <> [] \/ is_Some (timer b).
Proof.
  destruct (busy b) eqn:Hb.
  - split; [intros _ | done]. unfold busy in Hb.
    apply orb_true_iff in Hb as [Hb | Hb]; [apply orb_true_iff in Hb as [Hb | Hb] |].
    + left. by apply Z.gtb_lt in Hb.
    + right; left. intros E. rewrite E in Hb. done.
    + right; right. by apply bool_decide_eq_true in Hb.
  - apply busy_false in Hb as (Ha & Hq & Ht). split; [done |].
    intros [? | [? | [? ?]]]; [lia | done | congruence].
Qed.

(** The unreleased grants of a credential are exactly what the [active]
    counter of its registered bucket says. *)
Lemma held_active s sid :
  Inv cfg None s ->
  held s sid = match buckets s !! sid with
               | Some r => active (deref s r)
               | None => 0
               end.
Proof.
  intros HI. unfold held.
  assert (Hreg : forall (k : nat) c, releases s !! k = Some c -> rc_released c = false ->
            buckets s !! rc_session c = Some (rc_bucket c)).
  { intros k c Hk Hc. apply (inv_busy _ _ _ HI); [by eapply inv_release |].
    apply busy_true. left.
    assert (1 <= active (deref s (rc_bucket c))); [| lia].
    rewrite (inv_count _ _ _ HI). eapply count_lookup; [done |].
    unfold holds_bucket. by rewrite Hc, Nat.eqb_refl. }
  destruct (buckets s !! sid) as [r|] eqn:Hb.
  - rewrite (inv_count _ _ _ HI). apply count_ext. intros k c Hk.
    unfold holds_session, holds_bucket. destruct (rc_released c) eqn:Hc; [done |].
    simpl. specialize (Hreg _ _ Hk Hc).
    destruct (String.eqb_spec (rc_session c) sid) as [E | E],
             (Nat.eqb_spec (rc_bucket c) r) as [E' | E']; try done.
    + congruence.
    + subst r. apply (inv_registry _ _ _ HI) in Hreg, Hb. congruence.
  - apply count_none. intros k c Hk. unfold holds_session.
    destruct (rc_released c) eqn:Hc; [done |]. simpl.
    specialize (Hreg _ _ Hk Hc). apply String.eqb_neq. congruence.
Qed.

Lemma held_bounded s sid : Inv cfg None s -> 0 <= held s sid <= Config.maxConcurrent cfg.
Proof.
  intros HI. split; [apply count_nonneg |]. rewrite held_active by done.
  destruct (buckets s !! sid); [apply (inv_active_max _ _ _ HI) |].
  pose proof (Config.wf_concurrent cfg cfg_wf). lia.
Qed.



Lemma cleanupBucket_frame sid r s :
  let s' := cleanupBucket sid r s in
  heap s' = heap s /\ timers s' = timers s /\ promises s' = promises s /\
  releases s' = releases s /\ owner s' = owner s.
Proof. unfold cleanupBucket. by repeat case_match. Qed.

(** What the expiry of a waiter's timer does while the waiter is queued. *)
Lemma fire_waiter_timeout s h d sid r w index :
  Inv cfg None s ->
  timers s !! h = Some {| delay := d; callback := WaiterTimeout sid r w |} ->
  indexOf (queue (deref s r)) w = Some index ->
  let s' := fire cfg tick h s in
  deref s' r = with_queue (delete index (queue (deref s r))) (deref s r) /\
  (forall r0, r0 <> r -> deref s' r0 = deref s r0) /\
  promises s' = <[w := Rejected (timeoutError sid (Config.queueTimeoutMs cfg))]>
                  (promises s) /\
  timers s' = delete h (timers s) /\
  releases s' = releases s.
Proof.
  intros HI Hh Hidx. cbv zeta. unfold fire. rewrite Hh. cbn [callback run_callback].
  change (deref (upd_timers (delete h) s) r) with (deref s r). rewrite Hidx.
  destruct (Inv_timeout_fired _ _ _ _ _ _ _ HI Hh Hidx) as (Hs2 & _). cbv zeta in Hs2.
  rewrite Hs2. clear Hs2.
  match goal with |- context [cleanupBucket sid r ?x] => set (s2 := x) end.
  destruct (cleanupBucket_frame sid r s2) as (Hheap & Htm & Hpr & Hrel & _).
  cbv zeta in Hheap, Htm, Hpr, Hrel.
  assert (Hd : forall r0, deref (cleanupBucket sid r s2) r0 = deref s2 r0).
  { intros r0. unfold deref. by rewrite Hheap. }
  assert (Hd2 : forall r0, deref s2 r0 =
            if decide (r = r0)
            then with_queue (delete index (queue (deref s r))) (deref s r)
            else deref s r0).
  { intros r0. unfold s2.
    change (deref (upd_promises _ ?x) r0) with (deref x r0).
    rewrite deref_upd_bucket. by case_decide. }
  repeat split.
  - by rewrite Hd, Hd2, decide_True.
  - intros r0 Hne. by rewrite Hd, Hd2, decide_False.
  - by rewrite Hpr.
  - by rewrite Htm.
  - by rewrite Hrel.
Qed.

Lemma enqueued_spec sid r s1 :
  let s4 := enqueued cfg sid r s1 in
  timers s4 !! nextHandle s1
    = Some {| delay := Config.queueTimeoutMs cfg;
              callback := WaiterTimeout sid r (nextWaiter s1) |} /\
  queue (deref s4 r)
    = (queue (deref s1 r)
       ++ [{| wid := nextWaiter s1; timeoutHandle := Some (nextHandle s1) |}])%list /\
  clock s4 = clock s1.
Proof.
  cbv zeta. split; [| split].
  - unfold enqueued. cbn [timers upd_bucket upd_heap setTimeout snd].
    apply lookup_insert_eq.
  - unfold enqueued. rewrite deref_upd_bucket, decide_True by done. reflexivity.
  - reflexivity.
Qed.
End Invariant.
End LocalFacts.

(** ** Facts about the Redis scripts *)

Module RedisFacts.
Import Redis.

Lemma keys_distinct sha a b : (getRedisKeys sha a).1 <> (getRedisKeys sha b).2.
Proof. unfold getRedisKeys, REDIS_KEY_PREFIX. intros H. injection H. discriminate. Qed.


(** The acquire script is one check-and-set. *)
Lemma acquire_script_spec t K K' nowMs minI maxC ttl ittl db :
  K <> K' ->
  let inflight := default 0 (GET t K db) in
  let nextAllowedAt := default 0 (GET t K' db) in
  REDIS_ACQUIRE_SCRIPT t K K' nowMs minI maxC ttl ittl db =
    if (inflight <? maxC) && (nextAllowedAt <=? nowMs)
    then ({| granted := 1; reason := "ok"; waitMs := 0; inflight := inflight + 1 |},
          <[K := {| value := inflight + 1; expireAt := Some (t + ttl) |}]>
            (<[K' := {| value := nowMs + minI; expireAt := Some (t + ittl) |}]> db))
    else if inflight >=? maxC
    then ({| granted := 0; reason := "concurrency"; waitMs := 0; inflight := inflight |}, db)
    else ({| granted := 0; reason := "interval"; waitMs := nextAllowedAt - nowMs;
             inflight := inflight |}, db).
Proof.
  intros Hne inflight nextAllowedAt. unfold REDIS_ACQUIRE_SCRIPT.
  fold inflight. fold nextAllowedAt.
  destruct (inflight >=? maxC) eqn:Hfull.
  { replace (inflight <? maxC) with false; [done |].
    symmetry. apply Z.ltb_ge. apply Z.geb_le in Hfull. lia. }
  replace (inflight <? maxC) with true
    by (symmetry; apply Z.ltb_lt; rewrite Z.geb_leb in Hfull; apply Z.leb_gt in Hfull; lia).
  destruct (nextAllowedAt >? nowMs) eqn:Hwait.
  { replace (nextAllowedAt <=? nowMs) with false; [done |].
    symmetry. apply Z.leb_gt. apply Z.gtb_lt in Hwait. lia. }
  replace (nextAllowedAt <=? nowMs) with true
    by (symmetry; apply Z.leb_le; rewrite Z.gtb_ltb in Hwait; apply Z.ltb_ge in Hwait; lia).
  cbn [andb]. unfold INCR, SET_PX, PEXPIRE.
  rewrite lookup_insert_ne by done.
  unfold inflight, GET.
  destruct (db !! K) as [e|] eqn:He; [destruct (live t e) eqn:Hl |];
    rewrite lookup_insert_eq; unfold live in *;
    cbn [expireAt value default from_option id]; rewrite ?Hl; cbn [value];
    rewrite insert_insert_eq; reflexivity.
Qed.

Lemma release_script_spec t K db :
  let inflight := default 0 (GET t K db) in
  REDIS_RELEASE_SCRIPT t K db =
    if inflight <=? 1 then (0, delete K db)
    else (inflight - 1,
          alter (fun e => {| value := value e - 1; expireAt := expireAt e |}) K db).
Proof.
  intros inflight. unfold REDIS_RELEASE_SCRIPT. fold inflight.
  destruct (inflight <=? 1) eqn:Hle; [done |].
  apply Z.leb_gt in Hle. unfold DECR. unfold inflight, GET in Hle |- *.
  destruct (db !! K) as [e|] eqn:He; [destruct (live t e) eqn:Hl |]; simpl in Hle;
    try lia.
  simpl. f_equal. apply map_eq. intros k. rewrite lookup_insert, lookup_alter.
  case_decide; subst; by rewrite ?He.
Qed.

(** After the release script the counter is the old one less one, and
    never negative. *)
Lemma release_script_counter t K db :
  default 0 (GET t K (REDIS_RELEASE_SCRIPT t K db).2) = Z.max 0 (default 0 (GET t K db) - 1).
Proof.
  rewrite release_script_spec. cbv zeta.
  destruct (default 0 (GET t K db) <=? 1) eqn:Hle; cbn [snd].
  - apply Z.leb_le in Hle. unfold GET at 1. rewrite lookup_delete_eq. simpl. lia.
  - apply Z.leb_gt in Hle. unfold GET in *. rewrite lookup_alter_eq.
    destruct (db !! K) as [e|]; simpl in *; [| lia].
    unfold live in *. simpl. destruct (expireAt e) as [x|];
      [destruct (t <=? x) |]; simpl in *; lia.
Qed.

End RedisFacts.

(** ** Facts about distributed mode *)

Module DistributedFacts.
Import Redis RedisFacts Distributed Spec.

Lemma count_holders_app p l1 l2 :
  count_holders p (l1 ++ l2) = count_holders p l1 + count_holders p l2.
Proof. induction l1 as [|h l1 IH]; simpl; [done | rewrite IH; lia]. Qed.

Lemma count_holders_nonneg p l : 0 <= count_holders p l.
Proof. induction l as [|h l IH]; simpl; [lia | destruct (p h); lia]. Qed.

Lemma count_holders_insert p l (g : nat) h h' :
  l !! g = Some h ->
  count_holders p (<[g := h']> l)
  = count_holders p l - (if p h then 1 else 0) + (if p h' then 1 else 0).
Proof.
  revert g. induction l as [|x l IH]; intros [|g] Hg; simpl in *; try done.
  - injection Hg as ->. lia.
  - rewrite (IH g Hg). lia.
Qed.

Lemma count_holders_le p q l :
  (forall (g : nat) h, l !! g = Some h -> p h = true -> q h = true) ->
  count_holders p l <= count_holders q l.
Proof.
  induction l as [|x l IH]; intros H; simpl; [lia |].
  assert (count_holders p l <= count_holders q l).
  { apply IH. intros g h Hg. by apply (H (S g)). }
  destruct (p x) eqn:Hp; [rewrite (H O x eq_refl Hp) |]; [lia |].
  destruct (q x); lia.
Qed.

Section Fleet.
Variable cfg : Config.Settings.
Variable sha1_hex : string -> string.
Hypothesis cfg_wf : Config.well_formed cfg.


Lemma FleetInv_init : FleetInv cfg sha1_hex fleet0.
Proof.
  pose proof (Config.wf_concurrent cfg cfg_wf).
  split; simpl; intros; unfold raw; rewrite ?lookup_empty; try done; lia.
Qed.

Lemma unexpired_GET t key f :
  unexpired t key f = true -> default 0 (GET t key (db f)) = raw key (db f).
Proof.
  unfold unexpired, GET, raw. destruct (db f !! key) as [e|]; [| done].
  by intros ->.
Qed.

Lemma FleetInv_try_acquire sid t nowMs f :
  FleetInv cfg sha1_hex f -> unexpired t (key_of sha1_hex sid) f = true ->
  FleetInv cfg sha1_hex (try_acquire cfg sha1_hex sid t nowMs f).
Proof.
  intros HI Hlive. unfold try_acquire.
  pose proof (keys_distinct sha1_hex sid sid) as Hne.
  destruct (getRedisKeys sha1_hex sid) as [K K'] eqn:HK.
  assert (HKey : key_of sha1_hex sid = K) by (unfold key_of; by rewrite HK).
  cbn [fst snd] in Hne.
  rewrite acquire_script_spec by done. cbv zeta.
  rewrite <- HKey, (unexpired_GET _ _ _ Hlive).
  destruct (raw (key_of sha1_hex sid) (db f) <? Config.maxConcurrent cfg) eqn:Hfree; cbn [andb].
  2: { destruct (raw (key_of sha1_hex sid) (db f) >=? Config.maxConcurrent cfg); cbn [granted];
       change (0 =? 1) with false; cbv iota; by destruct HI. }
  destruct (default 0 (GET t K' (db f)) <=? nowMs); cbn [andb].
  2: { destruct (raw (key_of sha1_hex sid) (db f) >=? Config.maxConcurrent cfg); cbn [granted];
       change (0 =? 1) with false; cbv iota; by destruct HI. }
  cbn [granted]. change (1 =? 1) with true. cbv iota.
  apply Z.ltb_lt in Hfree.
  assert (Hraw : forall sid0,
    raw (key_of sha1_hex sid0)
      (<[key_of sha1_hex sid := {| value := raw (key_of sha1_hex sid) (db f) + 1;
                          expireAt := Some (t + Config.inflightTtlMs cfg) |}]>
         (<[K' := {| value := nowMs + Config.minIntervalMs cfg;
                     expireAt := Some (t + intervalTtlMs cfg) |}]> (db f)))
    = if decide (key_of sha1_hex sid = key_of sha1_hex sid0) then raw (key_of sha1_hex sid) (db f) + 1
      else raw (key_of sha1_hex sid0) (db f)).
  { intros sid0. unfold raw at 1. rewrite lookup_insert. case_decide as E; [done |].
    rewrite lookup_insert_ne; [done |].
    pose proof (keys_distinct sha1_hex sid0 sid) as Hd. rewrite HK in Hd.
    cbn [snd] in Hd. unfold key_of. congruence. }
  split; cbn [db holders].
  - intros g h. rewrite lookup_snoc_Some. intros [[_ Hg] | [_ <-]].
    + by apply (fi_key _ _ _ HI g).
    + cbn [h_key h_session]. by rewrite HKey.
  - intros sid0. rewrite Hraw, count_holders_app. cbn [count_holders].
    unfold holds_key at 2. cbn [h_released h_key negb andb].
    pose proof (fi_count _ _ _ HI sid0).
    rewrite <- ?HKey.
    case_decide as E; destruct (String.eqb_spec (key_of sha1_hex sid) (key_of sha1_hex sid0));
      try done; [rewrite <- E in H |- * |]; lia.
  - intros sid0. rewrite Hraw. case_decide; [lia | apply (fi_max _ _ _ HI)].
Qed.

Lemma FleetInv_release g t ok f :
  FleetInv cfg sha1_hex f ->
  (forall h, holders f !! g = Some h -> unexpired t (h_key h) f = true) ->
  FleetInv cfg sha1_hex (release g t ok f).
Proof.
  intros HI Hlive. unfold release.
  destruct (holders f !! g) as [h|] eqn:Hg; [| done].
  destruct (h_released h) eqn:Hrel; [done |].
  specialize (Hlive h eq_refl).
  pose proof (fi_key _ _ _ HI _ _ Hg) as Hkey.
  set (h' := {| h_session := h_session h; h_key := h_key h; h_released := true |}).
  assert (Hcnt : forall sid0,
    count_holders (holds_key (key_of sha1_hex sid0)) (<[g := h']> (holders f))
    = count_holders (holds_key (key_of sha1_hex sid0)) (holders f)
      - (if decide (h_key h = key_of sha1_hex sid0) then 1 else 0)).
  { intros sid0. rewrite (count_holders_insert _ _ _ _ _ Hg).
    unfold holds_key, h'. cbn [h_released h_key negb andb]. rewrite Hrel.
    cbn [negb andb].
    destruct (String.eqb_spec (h_key h) (key_of sha1_hex sid0)); case_decide; try done; lia. }
  assert (Hkeys : forall (g0 : nat) h0,
    <[g := h']> (holders f) !! g0 = Some h0 -> h_key h0 = key_of sha1_hex (h_session h0)).
  { intros g0 h0 H0.
    apply list_lookup_insert_Some in H0 as [(-> & <- & _) | [_ H0]]; [done |].
    by apply (fi_key _ _ _ HI g0). }
  destruct ok.
  2: { split; cbn [db holders]; [done | | apply (fi_max _ _ _ HI)].
       intros sid0. rewrite Hcnt. pose proof (fi_count _ _ _ HI sid0). case_decide; lia. }
  rewrite release_script_spec. cbv zeta. rewrite (unexpired_GET _ _ _ Hlive).
  destruct (raw (h_key h) (db f) <=? 1) eqn:Hle; cbn [snd].
  - apply Z.leb_le in Hle. split; cbn [db holders]; [done | |].
    + intros sid0. rewrite Hcnt. pose proof (fi_count _ _ _ HI sid0).
      unfold raw at 1. rewrite lookup_delete.
      destruct (decide (h_key h = key_of sha1_hex sid0)) as [E | E].
      * rewrite E in Hle. lia.
      * fold (raw (key_of sha1_hex sid0) (db f)). lia.
    + intros sid0. unfold raw. rewrite lookup_delete. case_decide.
      * pose proof (Config.wf_concurrent cfg cfg_wf). lia.
      * apply (fi_max _ _ _ HI).
  - apply Z.leb_gt in Hle.
    assert (Hraw : forall sid0,
      raw (key_of sha1_hex sid0)
        (alter (fun e => {| value := value e - 1; expireAt := expireAt e |})
           (h_key h) (db f))
      = raw (key_of sha1_hex sid0) (db f) - (if decide (h_key h = key_of sha1_hex sid0) then 1 else 0)).
    { intros sid0. unfold raw. rewrite lookup_alter. case_decide as E.
      - rewrite <- E. unfold raw in Hle. destruct (db f !! h_key h); simpl; lia.
      - destruct (db f !! key_of sha1_hex sid0); lia. }
    split; cbn [db holders]; [done | |].
    + intros sid0. rewrite Hcnt, Hraw. pose proof (fi_count _ _ _ HI sid0). lia.
    + intros sid0. rewrite Hraw. pose proof (fi_max _ _ _ HI sid0). case_decide; lia.
Qed.

Lemma FleetInv_from f evs :
  FleetInv cfg sha1_hex f -> no_expiry_from cfg sha1_hex f evs = true ->
  FleetInv cfg sha1_hex (fold_left (fleet_step cfg sha1_hex) evs f).
Proof.
  revert f. induction evs as [|e evs IH]; intros f HI Hne; [done |].
  simpl in Hne. apply andb_true_iff in Hne as [He Hne].
  simpl. apply IH; [| done].
  destruct e as [sid t nowMs | g t ok]; cbn [fleet_step event_unexpired] in *.
  - by apply FleetInv_try_acquire.
  - apply FleetInv_release; [done |]. intros h Hh. by rewrite Hh in He.
Qed.

Lemma held_le_counter f sid :
  FleetInv cfg sha1_hex f -> Distributed.held f sid <= Config.maxConcurrent cfg.
Proof.
  intros HI. pose proof (fi_count _ _ _ HI sid). pose proof (fi_max _ _ _ HI sid).
  assert (Distributed.held f sid
          <= count_holders (holds_key (key_of sha1_hex sid)) (holders f)); [| lia].
  apply count_holders_le. intros g h Hg. unfold holds_key.
  intros [Hr Hs]%andb_true_iff. rewrite Hr. simpl.
  apply String.eqb_eq in Hs. apply String.eqb_eq.
  rewrite (fi_key _ _ _ HI _ _ Hg). by rewrite Hs.
Qed.

End Fleet.


Section Polling.
Variable cfg : Config.Settings.
Variable sha1_hex : string -> string.
Variable latency : nat -> nat.
Variable server_time : nat -> Z.
Variable fault : nat -> option Error.
Variable interference : nat -> gmap string Entry -> gmap string Entry.
Variable random : nat -> nat.
Hypothesis cfg_wf : Config.well_formed cfg.

Local Abbreviation poll := (poll cfg sha1_hex latency server_time fault interference random).
Local Abbreviation eval_acquire :=
  (eval_acquire cfg sha1_hex latency server_time fault interference).
Local Abbreviation sleep := (sleep latency).

Lemma eval_acquire_now sid nowMs w :
  now w <= now (eval_acquire sid nowMs w).2.
Proof.
  unfold Distributed.eval_acquire. destruct (fault (awaits w)); cbn [snd now]; [lia |].
  destruct (getRedisKeys sha1_hex sid) as [K K'].
  destruct (REDIS_ACQUIRE_SCRIPT _ _ _ _ _ _ _ _ _) as [reply db']. cbn [snd now]. lia.
Qed.

Lemma eval_acquire_fault sid nowMs w e w1 :
  eval_acquire sid nowMs w = (inl e, w1) -> fault (awaits w) = Some e.
Proof.
  unfold Distributed.eval_acquire. destruct (fault (awaits w)); [by intros [= -> _] |].
  destruct (getRedisKeys sha1_hex sid) as [K K'].
  by destruct (REDIS_ACQUIRE_SCRIPT _ _ _ _ _ _ _ _ _).
Qed.

Lemma sleep_now ms w : 0 < ms -> now w + ms <= now (sleep ms w).
Proof.
  intros Hms. unfold Distributed.sleep.
  destruct (ms <=? 0) eqn:E; [apply Z.leb_le in E; lia |]. cbn [now]. lia.
Qed.

(** An iteration that starts at or after the deadline throws the
    timeout error. *)
Lemma poll_past_deadline fuel sid deadlineAt w :
  deadlineAt <= now w ->
  poll (S fuel) sid deadlineAt w
  = (Threw (timeoutError sid (Config.queueTimeoutMs cfg)), w).
Proof.
  intros H. cbn [Distributed.poll].
  replace (now w >=? deadlineAt) with true; [done |].
  symmetry. apply Z.geb_le. lia.
Qed.

(** With fuel for every millisecond up to the deadline the loop ends:
    with a grant, with the timeout error, or with what [redis.eval]
    threw. *)
Lemma poll_result fuel sid deadlineAt w :
  Z.max 0 (deadlineAt - now w) < Z.of_nat fuel ->
  let r := poll fuel sid deadlineAt w in
  r.1 = Granted (getRedisKeys sha1_hex sid).1 \/
  r.1 = Threw (timeoutError sid (Config.queueTimeoutMs cfg)) \/
  exists n e, fault n = Some e /\ r.1 = Threw e.
Proof.
  pose proof (Config.wf_poll cfg cfg_wf) as Hpoll.
  revert w. induction fuel as [|fuel IH]; intros w Hfuel.
  { lia. }
  cbv zeta. cbn [Distributed.poll].
  destruct (now w >=? deadlineAt) eqn:Hdead; [by right; left |].
  rewrite Z.geb_leb in Hdead. apply Z.leb_gt in Hdead.
  pose proof (eval_acquire_now sid (now w) w) as Hnow.
  destruct (eval_acquire sid (now w) w) as [[e | result] w1] eqn:Heval.
  { right; right. exists (awaits w), e. split; [| done]. by eapply eval_acquire_fault. }
  cbn [snd] in Hnow.
  destruct (granted result =? 1); [by left |].
  destruct (deadlineAt - now w1 <=? 0) eqn:Hleft; [by right; left |].
  apply Z.leb_gt in Hleft.
  destruct (String.eqb (reason result) "interval" && (Z.max 0 (waitMs result) >? 0))
    eqn:Hwait.
  - apply andb_true_iff in Hwait as [_ Hwait]. apply Z.gtb_lt in Hwait.
    apply IH.
    pose proof (sleep_now (Z.min (Z.max 0 (waitMs result)) (deadlineAt - now w1)) w1).
    lia.
  - apply IH.
    pose proof (sleep_now
      (Z.min (Config.redisPollIntervalMs cfg + Z.of_nat (random (awaits w1) mod 40))
         (deadlineAt - now w1)) w1).
    lia.
Qed.

Lemma acquireDistributed_result sid w :
  let r := acquireDistributed cfg sha1_hex latency server_time fault interference random
             sid w in
  r.1 = Granted (getRedisKeys sha1_hex sid).1 \/
  r.1 = Threw (timeoutError sid (Config.queueTimeoutMs cfg)) \/
  exists n e, fault n = Some e /\ r.1 = Threw e.
Proof.
  pose proof (Config.wf_timeout cfg cfg_wf).
  unfold acquireDistributed. apply poll_result. lia.
Qed.

(** A grant of the loop is a granting evaluation of the acquire script,
    and the store is left as that evaluation wrote it. *)
Lemma poll_granted fuel sid deadlineAt w (key : string) w' :
  poll fuel sid deadlineAt w = (Granted key, w') ->
  key = (getRedisKeys sha1_hex sid).1 /\
  exists t nowMs db,
    let r :=
      REDIS_ACQUIRE_SCRIPT t key (getRedisKeys sha1_hex sid).2 nowMs
        (Config.minIntervalMs cfg) (Config.maxConcurrent cfg) (Config.inflightTtlMs cfg)
        (intervalTtlMs cfg) db in
    granted r.1 = 1 /\ store w' = r.2.
Proof.
  revert w. induction fuel as [|fuel IH]; intros w; [done |].
  cbn [Distributed.poll].
  destruct (now w >=? deadlineAt); [done |].
  destruct (eval_acquire sid (now w) w) as [[e | result] w1] eqn:Heval; [done |].
  destruct (granted result =? 1) eqn:Hg.
  - unfold Distributed.eval_acquire in Heval.
    destruct (fault (awaits w)); [done |].
    destruct (getRedisKeys sha1_hex sid) as [K K'] eqn:HK.
    destruct (REDIS_ACQUIRE_SCRIPT _ _ _ _ _ _ _ _ _) as [reply db'] eqn:Hscript.
    injection Heval as <- <-. intros [= <- <-]. cbn [fst snd store]. split; [done |].
    exists (server_time (awaits w)), (now w), (interference (awaits w) (store w)).
    cbv zeta. rewrite Hscript. cbn [fst snd]. split; [| done].
    by apply Z.eqb_eq.
  - destruct (deadlineAt - now w1 <=? 0); [done |].
    destruct (String.eqb (reason result) "interval" && (Z.max 0 (waitMs result) >? 0)).
    + intros H. destruct (IH _ H) as (-> & t & nowMs & db0 & Hr).
      split; [done |]. exists t, nowMs, db0. exact Hr.
    + intros H. destruct (IH _ H) as (-> & t & nowMs & db0 & Hr).
      split; [done |]. exists t, nowMs, db0. exact Hr.
Qed.
End Polling.

Section Process.
Variable cfg : Config.Settings.
Variable tick : nat -> nat.
Variable sha1_hex : string -> string.
Variable latency : nat -> nat.
Variable server_time : nat -> Z.
Variable fault : nat -> option Error.
Variable interference : nat -> gmap string Entry -> gmap string Entry.
Variable random : nat -> nat.
Variable connect : option Error.

Local Abbreviation acquire :=
  (acquire cfg tick sha1_hex latency server_time fault interference random connect).
Local Abbreviation process_run :=
  (process_run cfg tick sha1_hex latency server_time fault interference random connect).

Lemma getRedisClient_limiter p : limiter (getRedisClient cfg connect p).2 = limiter p.
Proof. unfold getRedisClient. by repeat case_match. Qed.

(** The fallback is [acquireLocal] on the limiter of the process: its
    outcome is what the caller gets, its limiter the one that is kept. *)
Lemma acquire_locally_spec sid p :
  acquire_locally cfg tick sid p
  = (match (Local.acquireLocal cfg tick sid (limiter p)).1 with
     | inl e => LocalThrown e
     | inr w => LocalWaiting w
     end,
     {| limiter := (Local.acquireLocal cfg tick sid (limiter p)).2;
        world := world p; redis := redis p; logs := logs p |}).
Proof.
  unfold acquire_locally.
  by destruct (Local.acquireLocal cfg tick sid (limiter p)) as [[e | w] l'].
Qed.

(** [acquire] leaves the local limiter alone, or does to it what a call
    in local mode does. *)
Lemma acquire_limiter sid p :
  limiter (acquire sid p).2 = limiter p \/
  limiter (acquire sid p).2 = Local.step cfg tick (limiter p) (Local.Acquire sid).
Proof.
  unfold Distributed.acquire. cbn [Local.step]. unfold Local.acquire_local_mode.
  destruct (negb (Config.enabled cfg) || String.eqb sid "") eqn:Hoff; [by left |].
  assert (Hstep : forall q, limiter q = limiter p ->
    limiter (acquire_locally cfg tick sid q).2
    = (match Local.acquireLocal cfg tick sid (limiter p) with
       | (inl e, s') => (Local.Thrown e, s')
       | (inr w, s') => (Local.Waiting w, s')
       end).2).
  { intros q Hq. rewrite acquire_locally_spec. cbn [snd limiter]. rewrite Hq.
    by destruct (Local.acquireLocal cfg tick sid (limiter p)) as [[e | w] l']. }
  pose proof (getRedisClient_limiter p) as Hlim.
  destruct (getRedisClient cfg connect p) as [client p1]. cbn [snd] in Hlim.
  destruct client; [| right; by apply Hstep].
  destruct (acquireDistributed _ _ _ _ _ _ _ _ _) as [[key | err |] w'].
  - left. done.
  - right. by apply Hstep.
  - left. done.
Qed.

(** The local limiter of a process goes through states of the local
    machine only. *)
Lemma process_run_limiter evs p :
  exists local_evs,
    limiter (process_run p evs) = fold_left (Local.step cfg tick) local_evs (limiter p).
Proof.
  revert p. induction evs as [|e evs IH]; intros p; [by exists [] |].
  cbn [Distributed.process_run fold_left].
  destruct (IH (process_step cfg tick sha1_hex latency server_time fault interference
                  random connect p e)) as [local_evs Hrun].
  unfold Distributed.process_run in Hrun |- *. rewrite Hrun.
  destruct e as [sid | k | h | ms]; cbn [process_step limiter].
  - destruct (acquire_limiter sid p) as [-> | ->].
    + by exists local_evs.
    + by exists (Local.Acquire sid :: local_evs).
  - by exists (Local.Release k :: local_evs).
  - by exists (Local.Fire h :: local_evs).
  - by exists (Local.Elapse ms :: local_evs).
Qed.

(** A distributed release closure is handed out only after a granting
    evaluation of the acquire script; the local limiter is not involved. *)
Lemma acquire_distributed_grant sid p (key : string) :
  (acquire sid p).1 = DistributedGrant key ->
  key = (getRedisKeys sha1_hex sid).1 /\
  limiter (acquire sid p).2 = limiter p /\
  exists t nowMs db,
    let r :=
      REDIS_ACQUIRE_SCRIPT t key (getRedisKeys sha1_hex sid).2 nowMs
        (Config.minIntervalMs cfg) (Config.maxConcurrent cfg) (Config.inflightTtlMs cfg)
        (intervalTtlMs cfg) db in
    granted r.1 = 1 /\ store (world (acquire sid p).2) = r.2.
Proof.
  unfold Distributed.acquire.
  destruct (negb (Config.enabled cfg) || String.eqb sid ""); [done |].
  pose proof (getRedisClient_limiter p) as Hlim.
  destruct (getRedisClient cfg connect p) as [client p1]. cbn [snd] in Hlim.
  destruct client.
  2: { rewrite acquire_locally_spec. cbn [fst]. by case_match. }
  destruct (acquireDistributed _ _ _ _ _ _ _ _ _) as [[key0 | err |] w'] eqn:Hpoll.
  - cbn [fst snd limiter world]. intros [= <-].
    unfold acquireDistributed in Hpoll.
    destruct (poll_granted cfg sha1_hex latency server_time fault interference random
                _ _ _ _ _ _ Hpoll) as (Hk & Hscript).
    done.
  - rewrite acquire_locally_spec. cbn [fst]. by case_match.
  - done.
Qed.
End Process.

End DistributedFacts.

(** ** Facts about the video route *)

Module RouteFacts.
Import VideoRoute Spec.

Section Route.
Variable DEFAULT_MODEL : string.
Variable parseInt : string -> JsNumber.
Variable pick_token : string -> string.
Variable generateVideo :
  JsValue -> JsValue -> VideoOptions -> string -> nat -> (Error + GeneratedVideo) * nat.
Variable parseProxyFromToken : string -> JsValue.
Variable fetchFileBASE64 : JsValue -> JsValue -> Error + string.
Variable unixTimestamp : Z -> Z.
Variable validation_error : string -> Error.

Local Abbreviation produce :=
  (produce generateVideo parseProxyFromToken fetchFileBASE64 unixTimestamp).
Local Abbreviation work :=
  (work generateVideo parseProxyFromToken fetchFileBASE64 unixTimestamp).
Local Abbreviation post_generations :=
  (post_generations DEFAULT_MODEL parseInt pick_token generateVideo parseProxyFromToken
     fetchFileBASE64 unixTimestamp validation_error).

(** Generation touches neither the task store, nor the queue, nor the
    webhooks, nor the error log. *)
Lemma produce_frame model prompt o token format b :
  let b' := (produce model prompt o token format b).2 in
  tasks b' = tasks b /\ nextTask b' = nextTask b /\ queue b' = queue b /\
  webhooks b' = webhooks b /\ errors b' = errors b /\
  generations b' = S (generations b).
Proof.
  unfold VideoRoute.produce, bind, call_generateVideo, call_fetchFileBASE64, Date_now, ret.
  destruct (generateVideo model prompt o token (generations b)) as [[e | v] elapsed];
    cbn [snd]; [done |].
  destruct (strict_eq_string format "b64_json"); [| done].
  by destruct (fetchFileBASE64 _ _).
Qed.


Lemma work_spec w b : work w b = (inr tt, dispatch (w_task w)
               (settled generateVideo parseProxyFromToken fetchFileBASE64 unixTimestamp w b)).
Proof.
  unfold VideoRoute.work, settled, dispatch, bind, try_catch, effect, Date_now, ret,
    taskStore_get.
  destruct (VideoRoute.produce _ _ _ _ _ _ _ _ _ _) as [[err | resultData] b1];
    cbn [clock logger_error taskStore_update tasks];
    repeat case_match; reflexivity.
Qed.

Lemma first_failure_None l :
  first_failure l = None -> forall (i : nat) key ok, l !! i = Some (key, ok) -> ok = true.
Proof.
  induction l as [|[k o] l IH]; intros H i key ok Hi; [done |].
  simpl in H. destruct o; [| done].
  destruct i as [|i]; simpl in Hi; [by injection Hi as _ <- | by eapply IH].
Qed.

(** In a submission that passed the validators, [callback_url] is
    truthy exactly when it is present. *)
Lemma valid_callback_url req :
  first_failure (checks parseInt req) = None ->
  truthy (field req "callback_url") = negb (isUndefined (field req "callback_url")).
Proof.
  intros H.
  pose proof (first_failure_None _ H 10%nat "body.callback_url"
                (undefined_or (startsWith "http") (field req "callback_url")) eq_refl)
    as Hcb.
  unfold undefined_or in Hcb.
  destruct (field req "callback_url") as [| |b|n|s|l|]; simpl in *; try done.
  by destruct s.
Qed.
End Route.

End RouteFacts.

(** * The claims *)

Lemma constructor_well_formed env : Config.well_formed (Config.constructor env).
Proof. split; simpl; lia. Qed.

(** ** Concurrency bound *)

(** C1, as stated, fails in distributed mode: with [maxConcurrent = 1]
    two acquisitions of one credential are granted and unreleased at the
    same instant, once the inflight key of the first has expired (the
    second poll runs one millisecond after the key's time to live). *)
Lemma C1_counterexample_inflight_ttl :
  Config.maxConcurrent (Config.constructor one_at_a_time) = 1 /\
  Distributed.held
    (Distributed.fleet_run (Config.constructor one_at_a_time) (fun s => s) slow_holder)
    "session-a" = 2.
Proof. split; vm_compute; reflexivity. Qed.

(** The two ways of admission side by side.  The first caller is granted
    by the acquire script; Redis then drops the connection, and the second
    caller is admitted by the local limiter, which counts on its own: with
    [maxConcurrent = 1] the credential holds a script grant, whose
    inflight key has not expired, and a local grant. *)
Lemma fallback_grant_beside_script_grant :
  let cfg := Config.constructor one_at_a_time in
  let acquire :=
    Distributed.acquire cfg (fun _ => O) (fun x => x) (fun _ => O) busy_server
      connection_lost_later (fun _ db => db) (fun _ => O) None in
  let first := acquire "session-a" fresh_process in
  let second := acquire "session-a" first.2 in
  let key := (Redis.getRedisKeys (fun x => x) "session-a").1 in
  first.1 = Distributed.DistributedGrant key
  /\ second.1 = Distributed.LocalWaiting 0
  /\ Local.promises (Distributed.limiter second.2) !! 0%nat = Some (Local.Resolved 0)
  /\ Local.held (Distributed.limiter second.2) "session-a" = 1
  /\ Redis.GET (busy_server (Distributed.awaits (Distributed.world second.2))) key
       (Distributed.store (Distributed.world second.2)) = Some 1.
Proof. vm_compute. repeat split; reflexivity. Qed.

(** C1, amended: the two ways of admission are counted apart, and each
    count stays within [maxConcurrent].

    The local limiter of a process: after any sequence of local-mode
    operations, and after any sequence of calls of [acquire] in a process
    of any mode (where [acquire] reaches the local limiter as it does in
    local mode, or not at all), releases, timers and pauses, the granted
    and unreleased acquisitions of a credential are what the [active]
    counter of its registered bucket says and never exceed
    [maxConcurrent].

    The acquire script: it denies, leaving the database as it is,
    whenever the inflight counter it reads has reached [maxConcurrent];
    [acquire] hands out a distributed release closure only after an
    evaluation of the script that granted, without touching the local
    limiter; and the acquisitions granted by the script and not yet
    released stay within [maxConcurrent], for the whole fleet, as long as
    no evaluation finds an inflight key expired. *)
Theorem C1_concurrency_bound env tick start evs sha1_hex fleet_evs sessionId
    latency server_time fault interference random connect p0 process_evs :
  let cfg := Config.constructor env in
  let s := Local.run cfg tick start evs in
  let acquire :=
    Distributed.acquire cfg tick sha1_hex latency server_time fault interference random
      connect in
  let p :=
    Distributed.process_run cfg tick sha1_hex latency server_time fault interference
      random connect p0 process_evs in
  (Local.held s sessionId
     = match Local.buckets s !! sessionId with
       | Some bucket => Local.active (Local.deref s bucket)
       | None => 0
       end
   /\ Local.held s sessionId <= Config.maxConcurrent cfg)
  /\ (forall t nowMs db,
        let keys := Redis.getRedisKeys sha1_hex sessionId in
        Config.maxConcurrent cfg <= default 0 (Redis.GET t keys.1 db) ->
        Redis.REDIS_ACQUIRE_SCRIPT t keys.1 keys.2 nowMs (Config.minIntervalMs cfg)
          (Config.maxConcurrent cfg) (Config.inflightTtlMs cfg)
          (Distributed.intervalTtlMs cfg) db
        = ({| Redis.granted := 0; Redis.reason := "concurrency"; Redis.waitMs := 0;
              Redis.inflight := default 0 (Redis.GET t keys.1 db) |}, db))
  /\ (Distributed.no_expiry cfg sha1_hex fleet_evs = true ->
      Distributed.held (Distributed.fleet_run cfg sha1_hex fleet_evs) sessionId
      <= Config.maxConcurrent cfg)
  /\ (Distributed.limiter p0 = Local.init start ->
      Local.held (Distributed.limiter p) sessionId
      = match Local.buckets (Distributed.limiter p) !! sessionId with
        | Some bucket => Local.active (Local.deref (Distributed.limiter p) bucket)
        | None => 0
        end
      /\ Local.held (Distributed.limiter p) sessionId <= Config.maxConcurrent cfg)
  /\ (forall q (key : string),
        (acquire sessionId q).1 = Distributed.DistributedGrant key ->
        key = (Redis.getRedisKeys sha1_hex sessionId).1 /\
        Distributed.limiter (acquire sessionId q).2 = Distributed.limiter q /\
        exists t nowMs db,
          let r :=
            Redis.REDIS_ACQUIRE_SCRIPT t key (Redis.getRedisKeys sha1_hex sessionId).2
              nowMs (Config.minIntervalMs cfg) (Config.maxConcurrent cfg)
              (Config.inflightTtlMs cfg) (Distributed.intervalTtlMs cfg) db in
          Redis.granted r.1 = 1 /\
          Distributed.store (Distributed.world (acquire sessionId q).2) = r.2).
Proof.
  intros cfg s acquire p. pose proof (constructor_well_formed env) as Hwf.
  pose proof (LocalFacts.Inv_run cfg tick Hwf start evs) as HI. fold s in HI.
  split; [| split; [| split; [| split]]].
  - split; [by apply (LocalFacts.held_active cfg) |].
    by apply (LocalFacts.held_bounded cfg).
  - intros t nowMs db keys Hfull. unfold Redis.REDIS_ACQUIRE_SCRIPT.
    replace (default 0 (Redis.GET t keys.1 db) >=? Config.maxConcurrent cfg) with true;
      [done |].
    symmetry. apply Z.geb_le. lia.
  - intros Hne. apply (DistributedFacts.held_le_counter cfg sha1_hex).
    apply DistributedFacts.FleetInv_from; [done | apply DistributedFacts.FleetInv_init | done].
    done.
  - intros Hstart.
    destruct (DistributedFacts.process_run_limiter cfg tick sha1_hex latency server_time
                fault interference random connect process_evs p0) as [local_evs Hrun].
    fold p in Hrun. rewrite Hstart in Hrun.
    pose proof (LocalFacts.Inv_run cfg tick Hwf start local_evs) as HJ.
    unfold Local.run in HJ. rewrite <- Hrun in HJ.
    split; [by apply (LocalFacts.held_active cfg) |].
    by apply (LocalFacts.held_bounded cfg).
  - intros q key Hgrant.
    by apply (DistributedFacts.acquire_distributed_grant cfg tick sha1_hex latency
                server_time fault interference random connect).
Qed.

(** No key expires in [brisk_holders]. *)
Lemma C1_concurrency_bound_witness :
  Distributed.held
    (Distributed.fleet_run (Config.constructor one_at_a_time) (fun s => s)
       brisk_holders)
    "session-a"
  <= Config.maxConcurrent (Config.constructor one_at_a_time).
Proof.
  refine (proj1 (proj2 (proj2
    (C1_concurrency_bound one_at_a_time (fun _ => O) 1700000000000 [] (fun s => s)
       brisk_holders "session-a" (fun _ => O) (fun _ => 0) (fun _ => None)
       (fun _ db => db) (fun _ => O) None fresh_process []))) _).
  vm_compute. reflexivity.
Defined.

(** ** Spacing between grants *)

(** C2: the code at the failing input.  With the default settings
    ([minIntervalMs = 200]) the release of the first grant empties the
    bucket, [cleanupBucket] drops it together with [lastStartedAt], and the
    second acquire, served from a fresh bucket, is granted 2 ms after the
    first. *)
Theorem C2_spacing_lost_after_cleanup :
  let cfg := Config.constructor Config.default_env in
  let s := Local.run cfg (fun _ => O) 1700000000000 quick_succession in
  Config.minIntervalMs cfg = 200 /\
  Local.rc_startedAt <$> Local.releases s = [1700000000000; 1700000000002] /\
  Local.rc_session <$> Local.releases s = ["session-a"; "session-a"] /\
  Local.rc_bucket <$> Local.releases s = [0%nat; 1%nat] /\
  Local.lastStartedAt (Local.deref s 1) - Local.lastStartedAt (Local.deref s 0) = 2.
Proof. vm_compute. repeat split; reflexivity. Qed.

(** The distributed path on the same schedule: the next-allowed-at key
    outlives the release, and the second poll is denied for the interval. *)
Lemma distributed_spacing_survives_release :
  let cfg := Config.constructor Config.default_env in
  let f := Distributed.fleet_run cfg (fun s => s) quick_succession_fleet in
  length (Distributed.holders f) = 1%nat.
Proof. vm_compute. reflexivity. Qed.

(** A grant of the acquire script moves next-allowed-at to [now +
    minIntervalMs], and needs it to be at most [now]. *)
Lemma script_grant_spacing t K K' nowMs minI maxC ttl ittl db :
  K <> K' ->
  let r := Redis.REDIS_ACQUIRE_SCRIPT t K K' nowMs minI maxC ttl ittl db in
  Redis.granted r.1 = 1 ->
  default 0 (Redis.GET t K' db) <= nowMs /\
  r.2 !! K' = Some {| Redis.value := nowMs + minI; Redis.expireAt := Some (t + ittl) |}.
Proof.
  intros Hne. cbv zeta. rewrite RedisFacts.acquire_script_spec by done. cbv zeta.
  destruct (default 0 (Redis.GET t K db) <? maxC); cbn [andb].
  2: { by destruct (default 0 (Redis.GET t K db) >=? maxC). }
  destruct (default 0 (Redis.GET t K' db) <=? nowMs) eqn:Hle; cbn [andb].
  2: { by destruct (default 0 (Redis.GET t K db) >=? maxC). }
  intros _. split; [by apply Z.leb_le |].
  cbn [snd]. rewrite lookup_insert_ne by done. by rewrite lookup_insert_eq.
Qed.

(** ** The distributed check-and-set *)

(** C3: one evaluation of the acquire script reads the inflight counter
    and next-allowed-at, grants exactly when [inflight < maxConcurrent] and
    [next-allowed-at <= now], and in the same evaluation stores the
    incremented counter with time to live [inflightTtlMs] and
    next-allowed-at [now + minIntervalMs]; a denial leaves the database as
    it was.  The release script deletes the counter when it is at most one
    and decrements it otherwise.  [acquireDistributed] evaluates the
    acquire script with the limiter's own settings. *)
Theorem C3_atomic_check_and_set cfg sha1_hex latency server_time fault interference
    sessionId t nowMs db w :
  let keys := Redis.getRedisKeys sha1_hex sessionId in
  let inflight := default 0 (Redis.GET t keys.1 db) in
  let nextAllowedAt := default 0 (Redis.GET t keys.2 db) in
  let script :=
    Redis.REDIS_ACQUIRE_SCRIPT t keys.1 keys.2 nowMs (Config.minIntervalMs cfg)
      (Config.maxConcurrent cfg) (Config.inflightTtlMs cfg)
      (Distributed.intervalTtlMs cfg) in
  script db
    = (if (inflight <? Config.maxConcurrent cfg) && (nextAllowedAt <=? nowMs)
       then ({| Redis.granted := 1; Redis.reason := "ok"; Redis.waitMs := 0;
                Redis.inflight := inflight + 1 |},
             <[keys.1 := {| Redis.value := inflight + 1;
                            Redis.expireAt := Some (t + Config.inflightTtlMs cfg) |}]>
               (<[keys.2 := {| Redis.value := nowMs + Config.minIntervalMs cfg;
                               Redis.expireAt :=
                                 Some (t + Distributed.intervalTtlMs cfg) |}]> db))
       else if inflight >=? Config.maxConcurrent cfg
       then ({| Redis.granted := 0; Redis.reason := "concurrency"; Redis.waitMs := 0;
                Redis.inflight := inflight |}, db)
       else ({| Redis.granted := 0; Redis.reason := "interval";
                Redis.waitMs := nextAllowedAt - nowMs; Redis.inflight := inflight |}, db))
  /\ Redis.REDIS_RELEASE_SCRIPT t keys.1 db
     = (if inflight <=? 1 then (0, delete keys.1 db)
        else (inflight - 1,
              alter (fun e => {| Redis.value := Redis.value e - 1;
                                 Redis.expireAt := Redis.expireAt e |}) keys.1 db))
  /\ Distributed.eval_acquire cfg sha1_hex latency server_time fault interference
       sessionId nowMs w
     = match fault (Distributed.awaits w) with
       | Some e =>
           (inl e,
            {| Distributed.now :=
                 Distributed.now w + Z.of_nat (latency (Distributed.awaits w));
               Distributed.store := interference (Distributed.awaits w) (Distributed.store w);
               Distributed.awaits := S (Distributed.awaits w) |})
       | None =>
           let r :=
             Redis.REDIS_ACQUIRE_SCRIPT (server_time (Distributed.awaits w)) keys.1 keys.2
               nowMs (Config.minIntervalMs cfg) (Config.maxConcurrent cfg)
               (Config.inflightTtlMs cfg) (Distributed.intervalTtlMs cfg)
               (interference (Distributed.awaits w) (Distributed.store w)) in
           (inr r.1,
            {| Distributed.now :=
                 Distributed.now w + Z.of_nat (latency (Distributed.awaits w));
               Distributed.store := r.2;
               Distributed.awaits := S (Distributed.awaits w) |})
       end.
Proof.
  intros keys inflight nextAllowedAt script.
  split; [| split].
  - apply RedisFacts.acquire_script_spec. apply RedisFacts.keys_distinct.
  - apply RedisFacts.release_script_spec.
  - unfold Distributed.eval_acquire. destruct (fault (Distributed.awaits w)); [done |].
    fold keys. destruct keys as [K K']. cbn [fst snd].
    by destruct (Redis.REDIS_ACQUIRE_SCRIPT _ _ _ _ _ _ _ _ _).
Qed.

(** ** Backpressure *)



(** ** Garbage collection of buckets *)

(** C9: after any sequence of local-mode operations, every bucket in the
    registry has active work, a waiter or a pending retry timer, and every
    bucket object that has one of these is in the registry, under one
    credential only.  That credential is the one the bucket works for:
    an unreleased grant, a pending retry timer and a queued waiter each
    find their bucket registered under the credential they captured.  A
    credential without a registry entry thus has no grant in flight, no
    waiter and no retry timer. *)
Theorem C9_bucket_registered_iff_busy env tick start evs :
  let cfg := Config.constructor env in
  let s := Local.run cfg tick start evs in
  let busy bucket :=
    0 < Local.active (Local.deref s bucket)
    \/ Local.queue (Local.deref s bucket) <> []
    \/ is_Some (Local.timer (Local.deref s bucket)) in
  (forall sessionId bucket, Local.buckets s !! sessionId = Some bucket -> busy bucket)
  /\ (forall bucket,
        busy bucket -> exists sessionId, Local.buckets s !! sessionId = Some bucket)
  /\ (forall sessionId sessionId' bucket,
        Local.buckets s !! sessionId = Some bucket ->
        Local.buckets s !! sessionId' = Some bucket -> sessionId = sessionId')
  /\ (forall (k : nat) c,
        Local.releases s !! k = Some c -> Local.rc_released c = false ->
        Local.buckets s !! Local.rc_session c = Some (Local.rc_bucket c)
        /\ 0 < Local.active (Local.deref s (Local.rc_bucket c)))
  /\ (forall h d sessionId bucket,
        Local.timers s !! h
        = Some {| Local.delay := d; Local.callback := Local.RetryTimer sessionId bucket |} ->
        Local.buckets s !! sessionId = Some bucket
        /\ Local.timer (Local.deref s bucket) = Some h)
  /\ (forall bucket waiter,
        waiter ∈ Local.queue (Local.deref s bucket) ->
        exists sessionId, Local.buckets s !! sessionId = Some bucket)
  /\ (forall sessionId,
        Local.buckets s !! sessionId = None -> Local.held s sessionId = 0).
Proof.
  intros cfg s busy. pose proof (constructor_well_formed env) as Hwf.
  pose proof (LocalFacts.Inv_run cfg tick Hwf start evs) as HI. fold s in HI.
  assert (Hbusy : forall bucket,
    busy bucket -> exists sessionId, Local.buckets s !! sessionId = Some bucket).
  { intros bucket Hb. unfold busy in Hb. rewrite <- LocalFacts.busy_true in Hb.
    destruct (Local.heap s !! bucket) as [b|] eqn:Hheap.
    - destruct (proj2 (Spec.inv_owner_dom _ _ _ HI bucket)) as [sid Ho]; [by eexists |].
      exists sid. by apply (Spec.inv_busy _ _ _ HI).
    - unfold Local.deref in Hb. rewrite Hheap in Hb. done. }
  split; [| split; [| split; [| split; [| split; [| split]]]]].
  - intros sessionId bucket Hreg. unfold busy. rewrite <- LocalFacts.busy_true.
    by destruct (Spec.inv_gc _ _ _ HI _ _ Hreg).
  - exact Hbusy.
  - intros sessionId sessionId' bucket H1 H2.
    pose proof (Spec.inv_registry _ _ _ HI _ _ H1).
    pose proof (Spec.inv_registry _ _ _ HI _ _ H2). congruence.
  - intros k c Hk Hc.
    assert (Hact : 0 < Local.active (Local.deref s (Local.rc_bucket c))).
    { rewrite (Spec.inv_count _ _ _ HI).
      assert (Hp : Local.holds_bucket (Local.rc_bucket c) c = true)
        by (unfold Local.holds_bucket; by rewrite Hc, Nat.eqb_refl).
      pose proof (LocalFacts.count_lookup _ _ _ _ Hk Hp). lia. }
    split; [| done].
    apply (Spec.inv_busy _ _ _ HI); [by apply (Spec.inv_release _ _ _ HI k) |].
    apply LocalFacts.busy_true. by left.
  - intros h d sessionId bucket Ht.
    destruct (Spec.inv_retry _ _ _ HI _ _ _ _ Ht) as [Ho Htimer]. split; [| done].
    apply (Spec.inv_busy _ _ _ HI); [done |].
    apply LocalFacts.busy_true. right; right. by rewrite Htimer.
  - intros bucket waiter Hw. apply Hbusy. right; left.
    intros Hq. rewrite Hq in Hw. by apply elem_of_nil in Hw.
  - intros sessionId Hnone.
    rewrite (LocalFacts.held_active cfg s sessionId HI). by rewrite Hnone.
Qed.

(** Three callers of one credential: its bucket is registered and busy;
    a credential nobody called for has no bucket and nothing in flight. *)
Lemma C9_bucket_registered_iff_busy_witness :
  let s :=
    Local.run (Config.constructor two_in_queue) (fun _ => O) 1700000000000 two_waiting in
  Local.buckets s !! "session-a" = Some 0%nat /\
  (0 < Local.active (Local.deref s 0)
   \/ Local.queue (Local.deref s 0) <> []
   \/ is_Some (Local.timer (Local.deref s 0))) /\
  Local.buckets s !! "session-b" = None /\
  Local.held s "session-b" = 0.
Proof.
  intros s.
  pose proof (C9_bucket_registered_iff_busy two_in_queue (fun _ => O) 1700000000000
                two_waiting) as Hclaim.
  cbv zeta in Hclaim. destruct Hclaim as (Hbusy & _ & _ & _ & _ & _ & Hnone).
  assert (Hreg : Local.buckets s !! "session-a" = Some 0%nat) by (vm_compute; reflexivity).
  assert (Hfree : Local.buckets s !! "session-b" = None) by (vm_compute; reflexivity).
  split; [exact Hreg |]. split; [exact (Hbusy _ _ Hreg) |].
  split; [exact Hfree | exact (Hnone _ Hfree)].
Defined.

(** ** Wait deadlines *)

(** C5: the code at the failing input.  One grant at a time, a wait of
    one second at most, a process connected to Redis, and three callers
    of one credential with no release in between.  The first is granted
    by the acquire script.  The second polls until its deadline, a second
    after its call; the loop throws the timeout error, [acquire] catches
    it, logs it as a failed distributed acquire and admits the caller
    through the local limiter: it is granted, one second after its call,
    beside the first grant, whose inflight key has not expired.  The
    third, called then, polls for its own second, falls back in the same
    way and is queued locally with a new timer of [queueTimeoutMs]: at
    its deadline, one second after its call, it has neither a grant nor
    the timeout error, and its wait starts over. *)
Theorem C5_timeout_swallowed_by_fallback :
  let cfg := Config.constructor impatient in
  let acquireDistributed :=
    Distributed.acquireDistributed cfg (fun x => x) (fun _ => O) busy_server
      (fun _ => None) (fun _ db => db) (fun _ => O) in
  let acquire :=
    Distributed.acquire cfg (fun _ => O) (fun x => x) (fun _ => O) busy_server
      (fun _ => None) (fun _ db => db) (fun _ => O) None in
  let first := acquire "session-a" fresh_process in
  let second := acquire "session-a" first.2 in
  let third := acquire "session-a" second.2 in
  let key := (Redis.getRedisKeys (fun x => x) "session-a").1 in
  (Config.queueTimeoutMs cfg = 1000 /\ Config.maxConcurrent cfg = 1)
  /\ (first.1 = Distributed.DistributedGrant key
      /\ Distributed.now (Distributed.world first.2) = 1700000000000)
  /\ ((acquireDistributed "session-a" (Distributed.world first.2)).1
      = Distributed.Threw (timeoutError "session-a" 1000)
      /\ second.1 = Distributed.LocalWaiting 0
      /\ Distributed.now (Distributed.world second.2) = 1700000001000
      /\ Local.promises (Distributed.limiter second.2) !! 0%nat = Some (Local.Resolved 0)
      /\ Local.held (Distributed.limiter second.2) "session-a" = 1
      /\ Redis.GET (busy_server (Distributed.awaits (Distributed.world second.2))) key
           (Distributed.store (Distributed.world second.2)) = Some 1
      /\ Distributed.logs second.2
         = [("warn",
             "[SessionRateLimiter] distributed acquire failed, fallback to local: "
             +:+ message (timeoutError "session-a" 1000))])
  /\ ((acquireDistributed "session-a" (Distributed.world second.2)).1
      = Distributed.Threw (timeoutError "session-a" 1000)
      /\ third.1 = Distributed.LocalWaiting 1
      /\ Distributed.now (Distributed.world third.2) = 1700000002000
      /\ Local.promises (Distributed.limiter third.2) !! 1%nat = None
      /\ Local.queue (Local.deref (Distributed.limiter third.2) 0)
         = [{| Local.wid := 1; Local.timeoutHandle := Some 1%nat |}]
      /\ Local.timers (Distributed.limiter third.2) !! 1%nat
         = Some {| Local.delay := 1000;
                   Local.callback := Local.WaiterTimeout "session-a" 0 1 |}).
Proof. vm_compute. repeat split; reflexivity. Qed.

(** ** Fallback to local mode *)

(** C6: whatever [acquireDistributed] throws, [acquire] logs a warning
    that carries the error's message and then does what it does in local
    mode: it runs [acquireLocal] on the limiter's own buckets, keeps the
    limiter as [acquireLocal] leaves it, and returns what [acquireLocal]
    returns.  The error itself does not reach the caller, who gets a
    waiter's promise or the local queue overflow error. *)
Theorem C6_distributed_failure_falls_back env tick sha1_hex latency server_time fault
    interference random connect sessionId p err w' :
  let cfg := Config.constructor env in
  let acquire :=
    Distributed.acquire cfg tick sha1_hex latency server_time fault interference random
      connect in
  let p1 := (Distributed.getRedisClient cfg connect p).2 in
  let admitted := Local.acquireLocal cfg tick sessionId (Distributed.limiter p) in
  Config.enabled cfg = true ->
  sessionId <> "" ->
  (Distributed.getRedisClient cfg connect p).1 = true ->
  Distributed.acquireDistributed cfg sha1_hex latency server_time fault interference
    random sessionId (Distributed.world p1) = (Distributed.Threw err, w') ->
  acquire sessionId p
  = Distributed.acquire_locally cfg tick sessionId
      {| Distributed.limiter := Distributed.limiter p;
         Distributed.world := w';
         Distributed.redis := Distributed.redis p1;
         Distributed.logs :=
           Distributed.logs p1
           ++ [("warn",
                "[SessionRateLimiter] distributed acquire failed, fallback to local: "
                +:+ message err)] |}
  /\ ((exists w, (acquire sessionId p).1 = Distributed.LocalWaiting w) \/
      (acquire sessionId p).1
      = Distributed.LocalThrown (overflowError sessionId (Config.maxQueuePerSession cfg)))
  /\ acquire sessionId p
     = (match admitted.1 with
        | inl e => Distributed.LocalThrown e
        | inr w => Distributed.LocalWaiting w
        end,
        {| Distributed.limiter := admitted.2;
           Distributed.world := w';
           Distributed.redis := Distributed.redis p1;
           Distributed.logs :=
             Distributed.logs p1
             ++ [("warn",
                  "[SessionRateLimiter] distributed acquire failed, fallback to local: "
                  +:+ message err)] |})
  /\ Distributed.limiter (acquire sessionId p).2
     = Local.step cfg tick (Distributed.limiter p) (Local.Acquire sessionId).
Proof.
  intros cfg acquire p1 admitted Hen Hsid Hclient Hthrew.
  pose proof (constructor_well_formed env) as Hwf.
  assert (Hacq : acquire sessionId p
    = Distributed.acquire_locally cfg tick sessionId
        {| Distributed.limiter := Distributed.limiter p;
           Distributed.world := w';
           Distributed.redis := Distributed.redis p1;
           Distributed.logs :=
             Distributed.logs p1
             ++ [("warn",
                  "[SessionRateLimiter] distributed acquire failed, fallback to local: "
                  +:+ message err)] |}).
  { unfold acquire, Distributed.acquire. rewrite Hen. cbn [negb orb].
    destruct (String.eqb_spec sessionId ""); [done |].
    unfold p1 in *.
    assert (Hlim : Distributed.limiter (Distributed.getRedisClient cfg connect p).2
                   = Distributed.limiter p).
    { unfold Distributed.getRedisClient. by repeat case_match. }
    destruct (Distributed.getRedisClient cfg connect p) as [client p2].
    cbn [fst snd] in *. subst client. rewrite Hthrew. by rewrite Hlim. }
  split; [done |]. rewrite Hacq. rewrite DistributedFacts.acquire_locally_spec.
  cbn [Distributed.limiter Distributed.world Distributed.redis Distributed.logs fst snd].
  fold admitted. split; [| split; [done |]].
  - unfold admitted. rewrite (LocalFacts.acquireLocal_unfold cfg tick Hwf). cbv zeta.
    destruct (Z.of_nat _ >=? _); cbn [fst]; [by right | left; by eexists].
  - cbn [Local.step]. unfold Local.acquire_local_mode. rewrite Hen. cbn [negb orb].
    destruct (String.eqb_spec sessionId ""); [done |]. fold admitted.
    by destruct admitted as [[e | w] l].
Qed.

(** Redis drops the connection during the first [eval]: the caller is
    queued locally, and granted by the local limiter. *)
Lemma C6_distributed_failure_falls_back_witness :
  let r :=
    Distributed.acquire (Config.constructor one_at_a_time) (fun _ => O) (fun x => x)
      (fun _ => O) (fun _ => 0) connection_lost (fun _ db => db) (fun _ => O) None
      "session-a" fresh_process in
  r.1 = Distributed.LocalWaiting 0 /\
  Local.promises (Distributed.limiter r.2) !! 0%nat = Some (Local.Resolved 0) /\
  Local.held (Distributed.limiter r.2) "session-a" = 1.
Proof.
  assert (Hsid : "session-a" <> "") by discriminate.
  assert (Hthrew :
    Distributed.acquireDistributed (Config.constructor one_at_a_time) (fun x => x)
      (fun _ => O) (fun _ => 0) connection_lost (fun _ db => db) (fun _ => O) "session-a"
      (Distributed.world
         (Distributed.getRedisClient (Config.constructor one_at_a_time) None
            fresh_process).2)
    = (Distributed.Threw {| message := "Connection is closed." |},
       {| Distributed.now := 1700000000000; Distributed.store := ∅;
          Distributed.awaits := 1 |})) by (vm_compute; reflexivity).
  destruct (C6_distributed_failure_falls_back one_at_a_time (fun _ => O) (fun x => x)
              (fun _ => O) (fun _ => 0) connection_lost (fun _ db => db) (fun _ => O) None
              "session-a" fresh_process {| message := "Connection is closed." |}
              {| Distributed.now := 1700000000000; Distributed.store := ∅;
                 Distributed.awaits := 1 |} eq_refl Hsid eq_refl Hthrew)
    as (_ & _ & Hacq & _).
  cbv zeta. rewrite Hacq. vm_compute. repeat split; reflexivity.
Defined.

(** ** Idempotent release *)




(** ** The asynchronous video task *)

Section VideoTask.
Variable DEFAULT_MODEL : string.
Variable parseInt : string -> VideoRoute.JsNumber.
Variable pick_token : string -> string.
Variable generateVideo :
  VideoRoute.JsValue -> VideoRoute.JsValue -> VideoRoute.VideoOptions -> string -> nat ->
  (Error + VideoRoute.GeneratedVideo) * nat.
Variable parseProxyFromToken : string -> VideoRoute.JsValue.
Variable fetchFileBASE64 : VideoRoute.JsValue -> VideoRoute.JsValue -> Error + string.
Variable unixTimestamp : Z -> Z.
Variable validation_error : string -> Error.

Local Abbreviation produce :=
  (VideoRoute.produce generateVideo parseProxyFromToken fetchFileBASE64 unixTimestamp).
Local Abbreviation work :=
  (VideoRoute.work generateVideo parseProxyFromToken fetchFileBASE64 unixTimestamp).
Local Abbreviation post_generations :=
  (VideoRoute.post_generations DEFAULT_MODEL parseInt pick_token generateVideo
     parseProxyFromToken fetchFileBASE64 unixTimestamp validation_error).

(** C7: the closure never throws.  When generation (the upstream call
    or the download of the file) throws, the task ends as failed with
    the error's message and [completed_at]; when it succeeds, as
    completed with the result.  In both cases the record is read again
    and one webhook is sent for it exactly when its [callback_url] is
    truthy, which for a submission that passed the validators means
    present. *)
Theorem C7_work_failure_recorded w b :
  let attempt :=
    produce (VideoRoute.w_model w) (VideoRoute.w_prompt w) (VideoRoute.w_options w)
      (VideoRoute.w_token w) (VideoRoute.w_response_format w)
      (VideoRoute.taskStore_update (VideoRoute.w_task w) VideoRoute.processing_patch b) in
  (work w b).1 = inr tt
  /\ (forall task,
        VideoRoute.tasks b !! VideoRoute.w_task w = Some task ->
        exists final,
          VideoRoute.tasks (work w b).2 !! VideoRoute.w_task w = Some final
          /\ VideoRoute.callback_url final = VideoRoute.callback_url task
          /\ VideoRoute.completed_at final
             = Some (VideoRoute.clock attempt.2 / 1000)
          /\ match attempt.1 with
             | inl err =>
                 VideoRoute.status final = "failed"
                 /\ VideoRoute.error final = Some (message err)
                 /\ VideoRoute.result final = VideoRoute.result task
             | inr resultData =>
                 VideoRoute.status final = "completed"
                 /\ VideoRoute.result final = Some resultData
                 /\ VideoRoute.error final = VideoRoute.error task
             end
          /\ VideoRoute.webhooks (work w b).2
             = (VideoRoute.webhooks b
                ++ (if VideoRoute.truthy (VideoRoute.callback_url task)
                    then [(VideoRoute.callback_url task, final)]
                    else []))%list)
  /\ (forall req,
        VideoRoute.first_failure (VideoRoute.checks parseInt req) = None ->
        VideoRoute.truthy (VideoRoute.field req "callback_url")
        = negb (VideoRoute.isUndefined (VideoRoute.field req "callback_url"))).
Proof.
  intros attempt. rewrite RouteFacts.work_spec. cbn [fst snd]. split; [done |].
  split; [| apply RouteFacts.valid_callback_url].
  intros task Htask.
  destruct (RouteFacts.produce_frame generateVideo parseProxyFromToken fetchFileBASE64
              unixTimestamp (VideoRoute.w_model w) (VideoRoute.w_prompt w)
              (VideoRoute.w_options w) (VideoRoute.w_token w)
              (VideoRoute.w_response_format w)
              (VideoRoute.taskStore_update (VideoRoute.w_task w)
                 VideoRoute.processing_patch b))
    as (Ht & _ & _ & Hw & _).
  cbv zeta in Ht, Hw. fold attempt in Ht, Hw.
  unfold Spec.settled. fold attempt.
  destruct attempt as [[err | resultData] b1]; cbn [fst snd] in *.
  - set (final := VideoRoute.apply_patch (VideoRoute.failed_patch err (VideoRoute.clock b1))
                    (VideoRoute.apply_patch VideoRoute.processing_patch task)).
    exists final.
    assert (Hfinal :
      VideoRoute.tasks
        (VideoRoute.taskStore_update (VideoRoute.w_task w)
           (VideoRoute.failed_patch err (VideoRoute.clock b1))
           (VideoRoute.logger_error
              ("[Async] 视频生成任务 " +:+ pretty (VideoRoute.w_task w) +:+ " 失败: "
               +:+ message err) b1)) !! VideoRoute.w_task w = Some final).
    { cbn [VideoRoute.tasks VideoRoute.taskStore_update VideoRoute.logger_error].
      rewrite Ht. cbn [VideoRoute.tasks VideoRoute.taskStore_update].
      by rewrite !lookup_alter_eq, Htask. }
    unfold Spec.dispatch. rewrite Hfinal.
    change (VideoRoute.callback_url final) with (VideoRoute.callback_url task).
    destruct (VideoRoute.truthy (VideoRoute.callback_url task));
      repeat split; try done;
      cbn [VideoRoute.webhooks VideoRoute.sendWebhook VideoRoute.taskStore_update
           VideoRoute.logger_error]; rewrite Hw; try done.
    by rewrite app_nil_r.
  - set (final := VideoRoute.apply_patch
                    (VideoRoute.completed_patch resultData (VideoRoute.clock b1))
                    (VideoRoute.apply_patch VideoRoute.processing_patch task)).
    exists final.
    assert (Hfinal :
      VideoRoute.tasks
        (VideoRoute.taskStore_update (VideoRoute.w_task w)
           (VideoRoute.completed_patch resultData (VideoRoute.clock b1)) b1)
      !! VideoRoute.w_task w = Some final).
    { cbn [VideoRoute.tasks VideoRoute.taskStore_update].
      rewrite Ht. cbn [VideoRoute.tasks VideoRoute.taskStore_update].
      by rewrite !lookup_alter_eq, Htask. }
    unfold Spec.dispatch. rewrite Hfinal.
    change (VideoRoute.callback_url final) with (VideoRoute.callback_url task).
    destruct (VideoRoute.truthy (VideoRoute.callback_url task));
      repeat split; try done;
      cbn [VideoRoute.webhooks VideoRoute.sendWebhook VideoRoute.taskStore_update];
      rewrite Hw; try done.
    by rewrite app_nil_r.
Qed.

Lemma material_checks_pure req b :
  (VideoRoute.material_checks req b).2 = b.
Proof. unfold VideoRoute.material_checks, VideoRoute.throw, VideoRoute.ret.
       by repeat case_match. Qed.

(** C8: the effective [async] flag of a submission is true when the
    body's [async] is the boolean [true], or, in a multipart form, the
    string ["true"], and in no other case; absent or [false] it is not.
    A submission that passes the checks and whose flag is true creates a
    task of type video in status pending, hands its closure to the queue,
    calls nothing upstream, and answers with that task's id and status
    pending; otherwise the handler makes the upstream call itself and
    answers with the formatted result, or throws what the call threw. *)
Theorem C8_async_submission req b :
  VideoRoute.first_failure (VideoRoute.checks parseInt req) = None ->
  (VideoRoute.material_checks req b).1 = inr tt ->
  let model :=
    VideoRoute.or_default (VideoRoute.field req "model")
      (VideoRoute.JsString DEFAULT_MODEL) in
  let prompt := VideoRoute.field req "prompt" in
  let response_format :=
    VideoRoute.or_default (VideoRoute.field req "response_format")
      (VideoRoute.JsString "url") in
  let options := VideoRoute.options_of parseInt req in
  let token := VideoRoute.token_of pick_token req in
  let multipart := String.prefix "multipart/form-data" (VideoRoute.content_type req) in
  let accepted :=
    (inr (VideoRoute.AsyncAccepted (VideoRoute.nextTask b) "pending"),
     {| VideoRoute.tasks :=
          <[VideoRoute.nextTask b :=
              {| VideoRoute.id := VideoRoute.nextTask b;
                 VideoRoute.type := "video";
                 VideoRoute.status := "pending";
                 VideoRoute.model := model;
                 VideoRoute.prompt := prompt;
                 VideoRoute.callback_url := VideoRoute.field req "callback_url";
                 VideoRoute.result := None;
                 VideoRoute.error := None;
                 VideoRoute.progress := None;
                 VideoRoute.created_at := VideoRoute.clock b;
                 VideoRoute.completed_at := None |}]> (VideoRoute.tasks b);
        VideoRoute.nextTask := S (VideoRoute.nextTask b);
        VideoRoute.queue :=
          VideoRoute.queue b
          ++ [(VideoRoute.nextTask b,
               {| VideoRoute.w_task := VideoRoute.nextTask b;
                  VideoRoute.w_model := model;
                  VideoRoute.w_prompt := prompt;
                  VideoRoute.w_options := options;
                  VideoRoute.w_token := token;
                  VideoRoute.w_response_format := response_format |})];
        VideoRoute.webhooks := VideoRoute.webhooks b;
        VideoRoute.errors := VideoRoute.errors b;
        VideoRoute.clock := VideoRoute.clock b;
        VideoRoute.generations := VideoRoute.generations b |}) in
  let direct :=
    match produce model prompt options token response_format b with
    | (inl e, b') => (inl e, b')
    | (inr resultData, b') => (inr (VideoRoute.SyncResult resultData), b')
    end in
  post_generations req b = (if VideoRoute.isAsync req then accepted else direct)
  /\ (VideoRoute.isAsync req = true
      <-> VideoRoute.field req "async" = VideoRoute.JsBool true
          \/ (multipart = true
              /\ VideoRoute.field req "async" = VideoRoute.JsString "true"))
  /\ (VideoRoute.field req "async" = VideoRoute.JsBool true
      \/ (multipart = true /\ VideoRoute.field req "async" = VideoRoute.JsString "true") ->
      post_generations req b = accepted)
  /\ (VideoRoute.body req !! "async" = None
      \/ VideoRoute.field req "async" = VideoRoute.JsBool false
      \/ (multipart = true /\ VideoRoute.field req "async" = VideoRoute.JsString "false") ->
      post_generations req b = direct).
Proof.
  intros Hvalid Hmaterial model prompt response_format options token multipart
    accepted direct.
  pose proof (material_checks_pure req b) as Hpure.
  assert (Hflag : VideoRoute.isAsync req = true
      <-> VideoRoute.field req "async" = VideoRoute.JsBool true
          \/ (multipart = true
              /\ VideoRoute.field req "async" = VideoRoute.JsString "true")).
  { unfold VideoRoute.isAsync, VideoRoute.isMultiPart. fold multipart.
    destruct (VideoRoute.field req "async") as [| | [|] | | text | |];
      try (split; [done | intros [? | [_ ?]]; done]).
    - split; [by left | done].
    - destruct multipart.
      + split.
        * intros ->%String.eqb_eq. right. done.
        * intros [? | [_ [= ->]]]; [done | reflexivity].
      + split; [done | intros [? | [? _]]; done]. }
  assert (Hpost : post_generations req b
                  = (if VideoRoute.isAsync req then accepted else direct)).
  { unfold VideoRoute.post_generations, VideoRoute.validate, VideoRoute.bind.
    rewrite Hvalid. unfold VideoRoute.ret at 1.
    destruct (VideoRoute.material_checks req b) as [[e | []] b0]; cbn [fst snd] in *;
      [done |]. subst b0.
    destruct (VideoRoute.isAsync req); [reflexivity |].
    fold model prompt response_format options token. unfold direct.
    by destruct (produce model prompt options token response_format b) as [[e | r] b']. }
  split; [exact Hpost |]. split; [exact Hflag |]. split.
  - intros Htrue. rewrite Hpost. by rewrite (proj2 Hflag Htrue).
  - intros Hfalse. rewrite Hpost.
    destruct (VideoRoute.isAsync req); [| done].
    pose proof (proj1 Hflag eq_refl) as Hasync. unfold VideoRoute.field in *.
    destruct Hfalse as [Hnone | [Hf | [_ Hf]]];
      [rewrite Hnone in Hasync | rewrite Hf in Hasync ..];
      by destruct Hasync as [? | [_ ?]].
Qed.
End VideoTask.

Lemma C8_async_submission_witness :
  (VideoRoute.post_generations "jimeng-video-3.0" (fun _ => VideoRoute.NaN) (fun a => a)
     upstream_down (fun _ => VideoRoute.JsUndefined) (fun _ _ => inr "")
     (fun now => now / 1000) (fun key => {| message := key |})
     async_request empty_backend).1
  = inr (VideoRoute.AsyncAccepted 0 "pending").
Proof.
  assert (Hvalid :
    VideoRoute.first_failure (VideoRoute.checks (fun _ => VideoRoute.NaN) async_request)
    = None) by (vm_compute; reflexivity).
  assert (Hmaterial : (VideoRoute.material_checks async_request empty_backend).1 = inr tt)
    by (vm_compute; reflexivity).
  pose proof (C8_async_submission "jimeng-video-3.0" (fun _ => VideoRoute.NaN) (fun a => a)
                upstream_down (fun _ => VideoRoute.JsUndefined) (fun _ _ => inr "")
                (fun now => now / 1000) (fun key => {| message := key |})
                async_request empty_backend Hvalid Hmaterial) as Hclaim.
  cbv zeta in Hclaim. destruct Hclaim as (_ & _ & Htrue & _).
  rewrite Htrue; [reflexivity | left; vm_compute; reflexivity].
Defined.

(** The task of that submission, run while the upstream is down: it ends
    as failed, and its webhook is sent. *)
Lemma C7_work_failure_recorded_witness :
  let accepted :=
    (VideoRoute.post_generations "jimeng-video-3.0" (fun _ => VideoRoute.NaN) (fun a => a)
       upstream_down (fun _ => VideoRoute.JsUndefined) (fun _ _ => inr "")
       (fun now => now / 1000) (fun key => {| message := key |})
       async_request empty_backend).2 in
  exists w final,
    VideoRoute.queue accepted = [(0%nat, w)] /\
    VideoRoute.tasks
      (VideoRoute.work upstream_down (fun _ => VideoRoute.JsUndefined) (fun _ _ => inr "")
         (fun now => now / 1000) w accepted).2 !! 0%nat = Some final /\
    VideoRoute.status final = "failed" /\
    VideoRoute.error final = Some "upstream unavailable".
Proof.
  intros accepted.
  assert (Hq : exists w, VideoRoute.queue accepted = [(0%nat, w)] /\ VideoRoute.w_task w = 0%nat)
    by (eexists; split; vm_compute; reflexivity).
  destruct Hq as (w & Hq & Hw).
  assert (Ht : exists task, VideoRoute.tasks accepted !! 0%nat = Some task)
    by (eexists; vm_compute; reflexivity).
  destruct Ht as [task Ht].
  destruct (C7_work_failure_recorded (fun _ => VideoRoute.NaN) upstream_down
              (fun _ => VideoRoute.JsUndefined)
              (fun _ _ => inr "") (fun now => now / 1000) w accepted) as (_ & Hrec & _).
  rewrite Hw in Hrec. destruct (Hrec task Ht) as (final & Hfinal & _ & _ & Hout & _).
  exists w, final. split; [done |]. split; [exact Hfinal |].
  unfold VideoRoute.produce, VideoRoute.bind, VideoRoute.call_generateVideo, upstream_down
    in Hout. cbn [fst] in Hout.
  destruct Hout as (Hs & He & _). done.
Defined.

(** * Further lemmas: the order of service in local mode *)

Module FairFacts.
Import Local Spec Discipline LocalFacts.

Lemma arrival_order_nil : arrival_order [].
Proof. intros i j w1 w2 _ H. by rewrite lookup_nil in H. Qed.

Lemma arrival_order_tail w q : arrival_order (w :: q) -> arrival_order q.
Proof. intros H i j w1 w2 Hij H1 H2. apply (H (S i) (S j)); [lia | done | done]. Qed.

Lemma arrival_order_head w q x : arrival_order (w :: q) -> x ∈ q -> (wid w < wid x)%nat.
Proof.
  intros H Hx. apply list_elem_of_lookup_1 in Hx as [i Hi].
  apply (H O (S i)); [lia | done | done].
Qed.

Lemma arrival_order_delete q (index : nat) :
  arrival_order q -> arrival_order (delete index q).
Proof.
  intros H i j w1 w2 Hij H1 H2.
  rewrite list_lookup_delete in H1, H2.
  repeat case_decide; (eapply H; [| exact H1 | exact H2]; lia).
Qed.

Lemma arrival_order_snoc q x :
  arrival_order q -> (forall y, y ∈ q -> (wid y < wid x)%nat) -> arrival_order (q ++ [x]).
Proof.
  intros H Hx i j w1 w2 Hij H1 H2.
  apply lookup_snoc_Some in H1 as [[Hi H1] | [Hi ->]];
    apply lookup_snoc_Some in H2 as [[Hj H2] | [Hj ->]].
  - by eapply (H i j).
  - apply Hx. by eapply list_elem_of_lookup_2.
  - apply lookup_lt_Some in H2. lia.
  - lia.
Qed.

Section Fairness.
Variable cfg : Config.Settings.
Variable tick : nat -> nat.
Hypothesis cfg_wf : Config.well_formed cfg.

Lemma Fair_init start : Fair cfg None (init start).
Proof.
  split.
  - intros r. apply arrival_order_nil.
  - intros r sid w w' k c H. simpl in H. by rewrite lookup_empty in H.
  - intros r _. by right; left.
  - intros k1 k2 c1 c2 _ H. simpl in H. by rewrite lookup_nil in H.
  - intros k c H. simpl in H. by rewrite lookup_nil in H.
  - intros h d sid r w H. simpl in H. by rewrite lookup_empty in H.
  - intros w k H. simpl in H. by rewrite lookup_empty in H.
  - intros w1 w2 k H. simpl in H. by rewrite lookup_empty in H.
Qed.

(** Only the heap, the owners, the timers, the promises and the closures
    matter. *)
Lemma Fair_frame ex s s' :
  heap s' = heap s -> owner s' = owner s -> timers s' = timers s ->
  promises s' = promises s -> releases s' = releases s ->
  Fair cfg ex s -> Fair cfg ex s'.
Proof.
  intros Hh Ho Ht Hp Hr HF.
  assert (Hd : forall r, deref s' r = deref s r) by (intros r; unfold deref; by rewrite Hh).
  split; intros *; rewrite ?Hd, ?Ho, ?Ht, ?Hp, ?Hr; apply HF.
Qed.

Lemma Fair_Date_now ex s : Fair cfg ex s -> Fair cfg ex (Date_now tick s).2.
Proof. by apply Fair_frame. Qed.

Lemma Fair_elapse ex s ms : Fair cfg ex s -> Fair cfg ex (elapse ms s).
Proof. by apply Fair_frame. Qed.

Lemma Fair_cleanupBucket ex s sid r : Fair cfg ex s -> Fair cfg ex (cleanupBucket sid r s).
Proof.
  destruct (cleanupBucket_frame sid r s) as (Hh & Ht & Hp & Hr & Ho).
  by apply Fair_frame.
Qed.

Lemma Fair_open ex s : Fair cfg None s -> Fair cfg ex s.
Proof.
  intros HF. split; try apply HF. intros r _. by apply (fair_progress _ _ _ HF).
Qed.

Lemma Fair_close r s :
  Fair cfg (Some r) s ->
  (Config.maxConcurrent cfg <= active (deref s r)
   \/ queue (deref s r) = [] \/ is_Some (timer (deref s r))) ->
  Fair cfg None s.
Proof.
  intros HF Hr. split; try apply HF. intros r0 _.
  destruct (decide (r0 = r)) as [-> | E]; [done |].
  apply (fair_progress _ _ _ HF). congruence.
Qed.

(** A grant to the head of the queue. *)
Lemma Fair_granted ex s1 sid r waiter rest :
  Inv cfg ex s1 -> Fair cfg (Some r) s1 ->
  owner s1 !! r = Some sid -> buckets s1 !! sid = Some r ->
  queue (deref s1 r) = waiter :: rest ->
  lastStartedAt (deref s1 r) + Config.minIntervalMs cfg <= clock s1 ->
  Fair cfg (Some r) (granted_explicit tick sid r waiter rest s1).
Proof.
  intros HI HF Hown Hreg Hq Hdue.
  pose proof (Config.wf_interval cfg cfg_wf) as Hmin.
  pose proof (deref_granted tick sid r waiter rest s1) as Hd.
  set (c0 := {| rc_session := sid; rc_bucket := r; rc_released := false;
                rc_startedAt := clock s1 + Z.of_nat (tick (reads s1)) |}).
  set (s8 := granted_explicit tick sid r waiter rest s1) in *.
  assert (Hp : promises s8 = <[wid waiter := Resolved (length (releases s1))]> (promises s1))
    by reflexivity.
  assert (Hr : releases s8 = (releases s1 ++ [c0])%list) by reflexivity.
  assert (Ho : owner s8 = owner s1) by reflexivity.
  assert (Htm : timers s8 = match timeoutHandle waiter with
                            | Some h => delete h (timers s1)
                            | None => timers s1
                            end) by reflexivity.
  clearbody s8.
  assert (Hsub : forall r0 w, w ∈ queue (deref s8 r0) -> w ∈ queue (deref s1 r0)).
  { intros r0 w. rewrite Hd. case_decide as E; [| done]. subst r0. simpl.
    rewrite Hq. apply list_elem_of_further. }
  assert (Hold : forall (k : nat), is_Some (releases s1 !! k) ->
            releases s8 !! k = releases s1 !! k).
  { intros k Hk. rewrite Hr. apply lookup_app_l. by apply lookup_lt_is_Some. }
  split.
  - intros r0. rewrite Hd. case_decide as E; [| apply HF]. simpl.
    apply (arrival_order_tail waiter). rewrite <- Hq. apply HF.
  - intros r0 sid0 w w' k c Hown0 Hw Hp' Hk Hs. rewrite Ho in Hown0.
    pose proof (Hsub _ _ Hw) as Hw1.
    rewrite Hp in Hp'. destruct (decide (w' = wid waiter)) as [-> | Hne].
    + rewrite lookup_insert_eq in Hp'. injection Hp' as <-.
      rewrite Hr, (list_lookup_middle _ [] c0 _ eq_refl) in Hk. injection Hk as <-.
      simpl in Hs. subst sid0.
      assert (r0 = r) as ->.
      { assert (Hb : buckets s1 !! sid = Some r0).
        { apply (inv_busy _ _ _ HI); [done |]. apply busy_true. right; left.
          intros Hnil. rewrite Hnil in Hw1. by apply elem_of_nil in Hw1. }
        congruence. }
      rewrite Hd, decide_True in Hw by done. simpl in Hw.
      apply (arrival_order_head waiter rest); [| done].
      rewrite <- Hq. apply HF.
    + rewrite lookup_insert_ne in Hp' by done.
      rewrite Hold in Hk by exact (fair_closure _ _ _ HF _ _ Hp').
      exact (fair_order _ _ _ HF _ _ _ _ _ _ Hown0 Hw1 Hp' Hk Hs).
  - intros r0 Hne. rewrite Hd, decide_False by congruence.
    by apply (fair_progress _ _ _ HF).
  - intros k1 k2 c1 c2 Hlt H1 H2 Hb. rewrite Hr in H1, H2.
    apply lookup_snoc_Some in H2 as [[Hl2 H2] | [Hl2 <-]].
    + rewrite lookup_app_l in H1 by lia. exact (fair_spacing _ _ _ HF _ _ _ _ Hlt H1 H2 Hb).
    + rewrite lookup_app_l in H1 by lia. simpl in Hb |- *.
      pose proof (fair_last _ _ _ HF _ _ H1) as Hl. rewrite Hb in Hl. lia.
  - intros k c Hk. rewrite Hr in Hk.
    apply lookup_snoc_Some in Hk as [[Hl Hk] | [Hl <-]].
    + pose proof (fair_last _ _ _ HF _ _ Hk) as Hle. rewrite Hd.
      case_decide as E; [| done]. rewrite <- E in Hle. simpl. lia.
    + simpl. rewrite Hd, decide_True by done. simpl. lia.
  - intros h d sid0 r0 w Ht. rewrite Htm in Ht.
    assert (Ht1 : timers s1 !! h = Some {| delay := d; callback := WaiterTimeout sid0 r0 w |}
                  /\ timeoutHandle waiter <> Some h).
    { destruct (timeoutHandle waiter) as [h0|].
      - apply lookup_delete_Some in Ht as [Hne Ht]. split; [done | congruence].
      - done. }
    destruct Ht1 as [Ht1 Hne].
    destruct (fair_timer _ _ _ HF _ _ _ _ _ Ht1) as (x & Hx & Hwx & Hhx).
    exists x. split; [| done]. rewrite Hd. case_decide as E; [| done]. subst r0. simpl.
    rewrite Hq in Hx. apply elem_of_cons in Hx as [-> | Hx]; [done | done].
  - intros w k Hp'. rewrite Hp in Hp'. rewrite Hr. apply lookup_lt_is_Some.
    rewrite length_app. simpl.
    destruct (decide (w = wid waiter)) as [-> | Hne].
    + rewrite lookup_insert_eq in Hp'. injection Hp' as <-. lia.
    + rewrite lookup_insert_ne in Hp' by done.
      pose proof (fair_closure _ _ _ HF _ _ Hp') as Hk.
      apply lookup_lt_is_Some in Hk. lia.
  - intros w1 w2 k. rewrite Hp. intros H1 H2.
    assert (Hfresh : forall w, promises s1 !! w = Some (Resolved k) ->
              k <> length (releases s1)).
    { intros w Hw. pose proof (fair_closure _ _ _ HF _ _ Hw) as Hk.
      apply lookup_lt_is_Some in Hk. lia. }
    destruct (decide (w1 = wid waiter)) as [-> | Hne1];
      destruct (decide (w2 = wid waiter)) as [-> | Hne2]; [done | | |].
    + rewrite lookup_insert_eq in H1. rewrite lookup_insert_ne in H2 by done.
      injection H1 as <-. by destruct (Hfresh _ H2).
    + rewrite lookup_insert_eq in H2. rewrite lookup_insert_ne in H1 by done.
      injection H2 as <-. by destruct (Hfresh _ H1).
    + rewrite lookup_insert_ne in H1, H2 by done. exact (fair_own _ _ _ HF _ _ _ H1 H2).
Qed.

(** A step that leaves the queues, the start times, the promises and the
    identity of the closures alone, and arms no waiter timeout. *)
Lemma Fair_keep ex ex' s s' :
  (forall r sid, owner s' !! r = Some sid ->
     owner s !! r = Some sid \/ queue (deref s r) = []) ->
  promises s' = promises s ->
  length (releases s') = length (releases s) ->
  (forall (k : nat) c', releases s' !! k = Some c' ->
     exists c, releases s !! k = Some c /\ rc_session c = rc_session c' /\
               rc_bucket c = rc_bucket c' /\ rc_startedAt c = rc_startedAt c') ->
  (forall r, queue (deref s' r) = queue (deref s r)) ->
  (forall r, lastStartedAt (deref s' r) = lastStartedAt (deref s r)) ->
  (forall h d sid r w,
     timers s' !! h = Some {| delay := d; callback := WaiterTimeout sid r w |} ->
     timers s !! h = Some {| delay := d; callback := WaiterTimeout sid r w |}) ->
  (forall r, ex' <> Some r ->
     Config.maxConcurrent cfg <= active (deref s' r)
     \/ queue (deref s' r) = [] \/ is_Some (timer (deref s' r))) ->
  Fair cfg ex s -> Fair cfg ex' s'.
Proof.
  intros Ho Hp Hlen Hr Hq Hl Ht Hpr HF. split.
  - intros r. rewrite Hq. apply HF.
  - intros r sid w w' k c Hown Hw Hp' Hk Hs. rewrite Hq in Hw. rewrite Hp in Hp'.
    destruct (Hr _ _ Hk) as (c1 & Hk1 & Hs1 & _).
    destruct (Ho _ _ Hown) as [Hown1 | Hnil].
    + apply (fair_order _ _ _ HF _ _ _ _ _ _ Hown1 Hw Hp' Hk1). congruence.
    + rewrite Hnil in Hw. by apply elem_of_nil in Hw.
  - done.
  - intros k1 k2 c1 c2 Hlt H1 H2 Hb.
    destruct (Hr _ _ H1) as (d1 & E1 & _ & Hb1 & Hs1).
    destruct (Hr _ _ H2) as (d2 & E2 & _ & Hb2 & Hs2).
    rewrite <- Hs1, <- Hs2.
    apply (fair_spacing _ _ _ HF _ _ _ _ Hlt E1 E2). congruence.
  - intros k c Hk. destruct (Hr _ _ Hk) as (d & E & _ & Hb & Hs).
    rewrite Hl, <- Hs, <- Hb. by apply (fair_last _ _ _ HF _ _ E).
  - intros h d sid r w Hh. rewrite Hq. by apply (fair_timer _ _ _ HF h d sid), Ht.
  - intros w k Hp'. rewrite Hp in Hp'.
    destruct (fair_closure _ _ _ HF _ _ Hp') as [c Hc].
    apply lookup_lt_is_Some. apply lookup_lt_Some in Hc. lia.
  - intros w1 w2 k. rewrite Hp. apply HF.
Qed.

Lemma Fair_retry_scheduled s1 sid r waitMs :
  Fair cfg (Some r) s1 ->
  Fair cfg None (upd_bucket r (with_timer (Some (nextHandle s1)))
                   (setTimeout (RetryTimer sid r) waitMs s1).2).
Proof.
  intros HF.
  set (s' := upd_bucket r _ _).
  assert (Hd : forall r0, deref s' r0 =
            if decide (r = r0) then with_timer (Some (nextHandle s1)) (deref s1 r)
            else deref s1 r0).
  { intros r0. unfold s'. rewrite deref_upd_bucket. by case_decide. }
  eapply (Fair_keep (Some r) None s1 s'); try done; try (by eauto).
  - intros r0. rewrite Hd. by case_decide as E; [subst r0 |].
  - intros r0. rewrite Hd. by case_decide as E; [subst r0 |].
  - intros h d sid0 r0 w. change (timers s') with
      (<[nextHandle s1 := {| delay := waitMs; callback := RetryTimer sid r |}]> (timers s1)).
    rewrite lookup_insert. by case_decide.
  - intros r0 _. rewrite Hd. case_decide as E.
    + right; right. simpl. eauto.
    + apply (fair_progress _ _ _ HF). congruence.
Qed.

Lemma Fair_processQueue_fuel n sid r : forall ex s,
  Inv cfg ex s -> ex = None \/ ex = Some r -> Fair cfg (Some r) s ->
  Config.enabled cfg = true ->
  owner s !! r = Some sid -> buckets s !! sid = Some r ->
  (length (queue (deref s r)) < n)%nat ->
  Fair cfg None (processQueue_fuel cfg tick n sid r s).
Proof.
  induction n as [|n IH]; intros ex s HI Hex HF Hen Hown Hreg Hn; [lia |].
  rewrite processQueue_fuel_S, Hen. simpl negb. cbv iota.
  destruct (active (deref s r) >=? Config.maxConcurrent cfg) eqn:Hfull.
  { apply (Fair_close r); [done |]. left. apply Z.geb_le in Hfull. lia. }
  rewrite Z.geb_leb in Hfull. apply Z.leb_gt in Hfull.
  destruct (queue (deref s r)) as [|waiter rest] eqn:Hq.
  { apply Fair_cleanupBucket. apply (Fair_close r); [done |]. by right; left. }
  cbv zeta.
  pose proof (Inv_Date_now cfg tick _ _ HI) as HI1.
  pose proof (Fair_Date_now _ _ HF) as HF1.
  set (s1 := (Date_now tick s).2) in *.
  assert (Hd1 : deref s1 r = deref s r) by reflexivity.
  assert (Hnow : (Date_now tick s).1 = clock s1) by reflexivity.
  rewrite Hnow.
  destruct (Z.max 0 (lastStartedAt (deref s1 r) + Config.minIntervalMs cfg - clock s1) >? 0)
    eqn:Hwait.
  { destruct (timer (deref s1 r)) eqn:Ht.
    - apply (Fair_close r); [done |]. right; right. rewrite Ht. eauto.
    - by apply Fair_retry_scheduled. }
  assert (Hdue : lastStartedAt (deref s1 r) + Config.minIntervalMs cfg <= clock s1).
  { rewrite Z.gtb_ltb in Hwait. apply Z.ltb_ge in Hwait. lia. }
  assert (Hin : waiter ∈ queue (deref s1 r)).
  { rewrite Hd1, Hq. apply list_elem_of_here. }
  rewrite granted_state_eq by (by eapply inv_unsettled).
  assert (Hq1 : queue (deref s1 r) = waiter :: rest) by (by rewrite Hd1).
  assert (HI8 : Inv cfg None (granted_explicit tick sid r waiter rest s1)).
  { eapply Inv_granted; eauto. }
  pose proof (Fair_granted _ _ _ _ _ _ HI1 HF1 Hown Hreg Hq1 Hdue) as HF8.
  pose proof (deref_granted tick sid r waiter rest s1 r) as Hd8.
  rewrite decide_True in Hd8 by done.
  destruct (active (deref (granted_explicit tick sid r waiter rest s1) r)
            <? Config.maxConcurrent cfg) eqn:Hmore.
  - apply (IH None); try done; [by left |].
    rewrite Hd8. simpl in Hn |- *. lia.
  - apply (Fair_close r); [done |]. left. apply Z.ltb_ge in Hmore. lia.
Qed.

Lemma Fair_processQueue ex s sid r :
  Inv cfg ex s -> ex = None \/ ex = Some r -> Fair cfg (Some r) s ->
  Config.enabled cfg = true ->
  owner s !! r = Some sid -> buckets s !! sid = Some r ->
  Fair cfg None (processQueue cfg tick sid r s).
Proof. intros. eapply Fair_processQueue_fuel; eauto. Qed.

Lemma Fair_release s k :
  Inv cfg None s -> Fair cfg None s -> Fair cfg None (release cfg tick k s).
Proof.
  intros HI HF. unfold release.
  destruct (releases s !! k) as [c|] eqn:Hk; [| done].
  destruct (rc_released c) eqn:Hc; [done |].
  pose proof (enabled_of_release cfg _ _ _ _ HI Hk) as Hen.
  pose proof (inv_release _ _ _ HI _ _ Hk Hc) as Hown.
  destruct (Inv_release_begin cfg _ _ _ HI Hk Hc) as (HI2 & Hreg2 & _).
  cbv zeta in HI2, Hreg2.
  match goal with |- Fair cfg None (cleanupBucket _ _ (processQueue _ _ _ _ ?s2)) =>
    set (S2 := s2) in * end.
  assert (Hd : forall r0, deref S2 r0 =
            if decide (rc_bucket c = r0)
            then with_active (Z.max 0 (active (deref s (rc_bucket c)) - 1))
                   (deref s (rc_bucket c))
            else deref s r0).
  { intros r0. unfold S2. rewrite deref_upd_bucket. by case_decide. }
  assert (HF2 : Fair cfg (Some (rc_bucket c)) S2).
  { eapply (Fair_keep None _ s S2); try done; try (by eauto).
    - apply length_insert.
    - intros k0 c' Hk0. change (releases S2) with
        (<[k := {| rc_session := rc_session c; rc_bucket := rc_bucket c;
                   rc_released := true; rc_startedAt := rc_startedAt c |}]> (releases s))
        in Hk0.
      apply list_lookup_insert_Some in Hk0 as [(-> & <- & _) | [_ Hk0]]; eauto.
    - intros r0. rewrite Hd. by case_decide as E; [subst r0 |].
    - intros r0. rewrite Hd. by case_decide as E; [subst r0 |].
    - intros r0 Hne. rewrite Hd, decide_False by congruence.
      by apply (fair_progress _ _ _ HF). }
  apply Fair_cleanupBucket.
  eapply Fair_processQueue; eauto.
Qed.

Lemma elem_of_delete_or {A} (q : list A) (index : nat) x xd :
  x ∈ q -> q !! index = Some xd -> x ∈ delete index q \/ x = xd.
Proof.
  intros Hx Hd. apply list_elem_of_lookup_1 in Hx as [i Hi].
  destruct (lt_eq_lt_dec i index) as [[Hlt | ->] | Hgt].
  - left. apply (list_elem_of_lookup_2 _ i). by rewrite list_lookup_delete_lt.
  - right. congruence.
  - left. apply (list_elem_of_lookup_2 _ (pred i)).
    rewrite list_lookup_delete_ge by lia. by replace (S (pred i)) with i by lia.
Qed.

Lemma Fair_retry_fired s h d sid r :
  Fair cfg None s ->
  timers s !! h = Some {| delay := d; callback := RetryTimer sid r |} ->
  Fair cfg (Some r) (upd_bucket r (with_timer None) (upd_timers (delete h) s)).
Proof.
  intros HF Hh. set (s1 := upd_bucket r _ _).
  assert (Hd : forall r0, deref s1 r0 =
            if decide (r = r0) then with_timer None (deref s r) else deref s r0).
  { intros r0. unfold s1. rewrite deref_upd_bucket. by case_decide. }
  eapply (Fair_keep None _ s s1); try done; try (by eauto).
  - intros r0. rewrite Hd. by case_decide as E; [subst r0 |].
  - intros r0. rewrite Hd. by case_decide as E; [subst r0 |].
  - intros h0 d0 sid0 r0 w. change (timers s1) with (delete h (timers s)).
    intros H. by apply lookup_delete_Some in H as [_ H].
  - intros r0 Hne. rewrite Hd, decide_False by congruence.
    by apply (fair_progress _ _ _ HF).
Qed.

Lemma Fair_timeout_missed s h : Fair cfg None s -> Fair cfg None (upd_timers (delete h) s).
Proof.
  intros HF. eapply (Fair_keep None None s); try done; try (by eauto).
  - intros h0 d0 sid0 r0 w. simpl. intros H. by apply lookup_delete_Some in H as [_ H].
  - intros r0 _. by apply (fair_progress _ _ _ HF).
Qed.

Lemma Fair_timeout_fired s h d sid r w index :
  Inv cfg None s -> Fair cfg None s ->
  timers s !! h = Some {| delay := d; callback := WaiterTimeout sid r w |} ->
  indexOf (queue (deref s r)) w = Some index ->
  Fair cfg None
    (upd_promises <[w := Rejected (timeoutError sid (Config.queueTimeoutMs cfg))]>
       (upd_bucket r (fun b => with_queue (delete index (queue b)) b)
          (upd_timers (delete h) s))).
Proof.
  intros HI HF Hh Hidx. set (s2 := upd_promises _ _).
  destruct (indexOf_Some _ _ _ Hidx) as (xd & Hxd & Hwxd).
  assert (Hd : forall r0, deref s2 r0 =
            if decide (r = r0)
            then with_queue (delete index (queue (deref s r))) (deref s r)
            else deref s r0).
  { intros r0. unfold s2.
    change (deref (upd_promises ?f ?x) r0) with (deref x r0).
    rewrite deref_upd_bucket. by case_decide. }
  assert (Hsub : forall r0 w0, w0 ∈ queue (deref s2 r0) -> w0 ∈ queue (deref s r0)).
  { intros r0 w0. rewrite Hd. case_decide as E; [| done]. subst r0. simpl.
    apply list_elem_of_delete_inv. }
  assert (Hp : promises s2
               = <[w := Rejected (timeoutError sid (Config.queueTimeoutMs cfg))]>
                   (promises s)) by reflexivity.
  assert (Hres : forall w' (k : nat), promises s2 !! w' = Some (Resolved k) ->
            promises s !! w' = Some (Resolved k)).
  { intros w' k. rewrite Hp, lookup_insert. by case_decide. }
  split.
  - intros r0. rewrite Hd. case_decide as E; [| apply HF]. simpl.
    apply arrival_order_delete, HF.
  - intros r0 sid0 w0 w' k c Hown Hw0 Hp' Hk Hs.
    exact (fair_order _ _ _ HF _ _ _ _ _ _ Hown (Hsub _ _ Hw0) (Hres _ _ Hp') Hk Hs).
  - intros r0 _. rewrite Hd. case_decide as E; [| by apply (fair_progress _ _ _ HF)].
    subst r0. simpl.
    destruct (fair_progress _ _ _ HF r) as [Ha | [Hnil | Ht]]; [done | by left | | by right; right].
    rewrite Hnil in Hxd. by rewrite lookup_nil in Hxd.
  - apply (fair_spacing _ _ _ HF).
  - intros k c Hk. pose proof (fair_last _ _ _ HF _ _ Hk) as Hl.
    rewrite Hd. by case_decide as E; [rewrite <- E in Hl |].
  - intros h0 d0 sid0 r0 w0 Ht. change (timers s2) with (delete h (timers s)) in Ht.
    apply lookup_delete_Some in Ht as [Hne Ht].
    destruct (fair_timer _ _ _ HF _ _ _ _ _ Ht) as (x & Hx & Hwx & Hhx).
    exists x. split; [| done]. rewrite Hd. case_decide as E; [| done]. subst r0. simpl.
    destruct (elem_of_delete_or _ _ _ _ Hx Hxd) as [Hin | ->]; [done |].
    exfalso.
    destruct (fair_timer _ _ _ HF _ _ _ _ _ Hh) as (x1 & Hx1 & Hwx1 & Hhx1).
    apply list_elem_of_lookup_1 in Hx1 as [i1 Hi1].
    assert (i1 = index).
    { eapply (NoDup_lookup (wid <$> queue (deref s r))).
      - apply (inv_nodup _ _ _ HI).
      - by rewrite list_lookup_fmap, Hi1.
      - rewrite list_lookup_fmap, Hxd. simpl. congruence. }
    subst i1. congruence.
  - intros w0 k Hp'. apply (fair_closure _ _ _ HF w0), Hres, Hp'.
  - intros w1 w2 k H1 H2. exact (fair_own _ _ _ HF _ _ _ (Hres _ _ H1) (Hres _ _ H2)).
Qed.

Lemma Fair_fire s h :
  Inv cfg None s -> Fair cfg None s -> Fair cfg None (fire cfg tick h s).
Proof.
  intros HI HF. unfold fire.
  destruct (timers s !! h) as [[d cb]|] eqn:Hh; [| done].
  pose proof (enabled_of_timer cfg _ _ _ _ HI Hh) as Hen.
  destruct cb as [sid r w | sid r]; cbn [callback run_callback].
  - change (deref (upd_timers (delete h) s) r) with (deref s r).
    destruct (indexOf (queue (deref s r)) w) as [index|] eqn:Hidx.
    + destruct (Inv_timeout_fired cfg _ _ _ _ _ _ _ HI Hh Hidx) as (Hs2 & _).
      cbv zeta in Hs2. rewrite Hs2.
      apply Fair_cleanupBucket. by eapply Fair_timeout_fired.
    + by apply Fair_timeout_missed.
  - destruct (Inv_retry_fired cfg _ _ _ _ _ HI Hh) as (HI1 & Ho & Hr).
    cbv zeta in HI1, Ho, Hr.
    eapply Fair_processQueue; eauto. by eapply Fair_retry_fired.
Qed.

Lemma deref_getBucket s sid r0 :
  Inv cfg None s -> deref (getBucket sid s).2 r0 = deref s r0.
Proof.
  intros HI. unfold getBucket. destruct (buckets s !! sid); [done |].
  unfold deref. simpl. rewrite lookup_insert. case_decide as E; [| done].
  subst r0. by rewrite (inv_heap_fresh _ _ _ HI).
Qed.

Lemma Fair_getBucket s sid :
  Inv cfg None s -> Fair cfg None s -> Fair cfg None (getBucket sid s).2.
Proof.
  intros HI HF.
  pose proof (fun r0 => deref_getBucket s sid r0 HI) as Hd.
  eapply (Fair_keep None None s); try done; try (by eauto).
  - intros r0 sid0. unfold getBucket. destruct (buckets s !! sid); [by left |].
    simpl. rewrite lookup_insert. case_decide as E; [| by left].
    subst r0. intros _. right. unfold deref. by rewrite (inv_heap_fresh _ _ _ HI).
  - unfold getBucket. by destruct (buckets s !! sid).
  - unfold getBucket. by destruct (buckets s !! sid).
  - unfold getBucket. destruct (buckets s !! sid); eauto.
  - intros r0. by rewrite Hd.
  - intros r0. by rewrite Hd.
  - unfold getBucket. by destruct (buckets s !! sid).
  - intros r0 _. rewrite Hd. by apply (fair_progress _ _ _ HF).
Qed.

Lemma Fair_enqueued ex s1 sid r :
  Inv cfg ex s1 -> Fair cfg (Some r) s1 -> Fair cfg (Some r) (enqueued cfg sid r s1).
Proof.
  intros HI HF.
  set (x := {| wid := nextWaiter s1; timeoutHandle := Some (nextHandle s1) |}).
  set (s4 := enqueued cfg sid r s1).
  assert (Hd : forall r0, deref s4 r0 =
            if decide (r = r0) then with_queue (queue (deref s1 r) ++ [x]) (deref s1 r)
            else deref s1 r0).
  { intros r0. unfold s4, enqueued. rewrite deref_upd_bucket. by case_decide. }
  assert (Htm : timers s4
                = <[nextHandle s1 := {| delay := Config.queueTimeoutMs cfg;
                                        callback := WaiterTimeout sid r (nextWaiter s1) |}]>
                    (timers s1)) by reflexivity.
  assert (Hp : promises s4 = promises s1) by reflexivity.
  assert (Hr : releases s4 = releases s1) by reflexivity.
  assert (Ho : owner s4 = owner s1) by reflexivity.
  clearbody s4.
  assert (Hsup : forall r0 w, w ∈ queue (deref s1 r0) -> w ∈ queue (deref s4 r0)).
  { intros r0 w Hw. rewrite Hd. case_decide as E; [| done]. subst r0. simpl.
    apply elem_of_app. by left. }
  assert (Hsettled : forall w o, promises s1 !! w = Some o -> (w < nextWaiter s1)%nat).
  { intros w o Hw. destruct (decide (w < nextWaiter s1)%nat) as [| Hge]; [done |].
    rewrite (inv_promise_fresh _ _ _ HI) in Hw by lia. done. }
  split.
  - intros r0. rewrite Hd. case_decide as E; [| apply HF]. simpl.
    apply arrival_order_snoc; [apply HF |].
    intros y Hy. simpl. by apply (inv_waiter_fresh _ _ _ HI r).
  - intros r0 sid0 w w' k c Hown Hw Hp' Hk Hs.
    rewrite Ho in Hown. rewrite Hp in Hp'. rewrite Hr in Hk.
    rewrite Hd in Hw. case_decide as E.
    + subst r0. simpl in Hw. apply elem_of_app in Hw as [Hw | Hw].
      * exact (fair_order _ _ _ HF _ _ _ _ _ _ Hown Hw Hp' Hk Hs).
      * apply list_elem_of_singleton in Hw as ->. simpl. by eapply Hsettled.
    + exact (fair_order _ _ _ HF _ _ _ _ _ _ Hown Hw Hp' Hk Hs).
  - intros r0 Hne. rewrite Hd, decide_False by congruence.
    by apply (fair_progress _ _ _ HF).
  - rewrite Hr. apply (fair_spacing _ _ _ HF).
  - intros k c Hk. rewrite Hr in Hk. pose proof (fair_last _ _ _ HF _ _ Hk) as Hl.
    rewrite Hd. by case_decide as E; [rewrite <- E in Hl |].
  - intros h d sid0 r0 w Ht. rewrite Htm, lookup_insert in Ht. case_decide as E.
    + injection Ht as _ <- <- <-. exists x. split; [| by subst h].
      rewrite Hd, decide_True by done. simpl. apply elem_of_app. right.
      by apply list_elem_of_singleton.
    + destruct (fair_timer _ _ _ HF _ _ _ _ _ Ht) as (y & Hy & Hwy & Hhy).
      exists y. split; [by apply Hsup | done].
  - rewrite Hp, Hr. apply (fair_closure _ _ _ HF).
  - rewrite Hp. apply (fair_own _ _ _ HF).
Qed.

Lemma Fair_acquireLocal s sid :
  Inv cfg None s -> Fair cfg None s -> Config.enabled cfg = true -> sid <> "" ->
  Fair cfg None (acquireLocal cfg tick sid s).2.
Proof.
  intros HI HF Hen Hsid. rewrite (acquireLocal_unfold cfg tick cfg_wf). cbv zeta.
  destruct (Inv_getBucket cfg cfg_wf _ _ HI Hsid) as (HI1 & Hown & Hreg & _).
  cbv zeta in HI1, Hown, Hreg.
  pose proof (Fair_getBucket _ sid HI HF) as HF1.
  set (r := (getBucket sid s).1) in *. set (s1 := (getBucket sid s).2) in *.
  destruct (Z.of_nat (length (queue (deref s1 r))) >=? Config.maxQueuePerSession cfg)
    eqn:Hfull; [done |].
  rewrite Z.geb_leb in Hfull. apply Z.leb_gt in Hfull. cbn [snd].
  assert (HI4 : Inv cfg None (enqueued cfg sid r s1)).
  { eapply Inv_enqueued; eauto. }
  eapply Fair_processQueue; eauto.
  apply (Fair_enqueued _ _ _ _ HI1). by apply Fair_open.
Qed.

Lemma Fair_step s e :
  Inv cfg None s -> Fair cfg None s -> Fair cfg None (step cfg tick s e).
Proof.
  intros HI HF. destruct e as [sid | k | h | ms]; simpl.
  - unfold acquire_local_mode.
    destruct (negb (Config.enabled cfg) || String.eqb sid "") eqn:Hskip; [done |].
    apply orb_false_iff in Hskip as [Hen Hsid]. apply negb_false_iff in Hen.
    apply String.eqb_neq in Hsid.
    pose proof (Fair_acquireLocal _ _ HI HF Hen Hsid) as H.
    by destruct (acquireLocal cfg tick sid s) as [[e | w] s'].
  - by apply Fair_release.
  - by apply Fair_fire.
  - by apply Fair_elapse.
Qed.

Lemma Fair_fold evs : forall s,
  Inv cfg None s -> Fair cfg None s ->
  Fair cfg None (fold_left (step cfg tick) evs s).
Proof.
  induction evs as [|e evs IH]; intros s HI HF; [done |].
  simpl. apply IH; [by apply (Inv_step cfg tick cfg_wf) | by apply Fair_step].
Qed.

Lemma Fair_run start evs : Fair cfg None (run cfg tick start evs).
Proof. apply Fair_fold; [by apply Inv_init | apply Fair_init]. Qed.

End Fairness.
End FairFacts.

(** * Further properties of the local limiter *)

(** X2: in every reachable state each queue lists its waiters in
    the order of their arrival: of two queued waiters the one nearer the
    head called [acquireLocal] first. *)
Theorem queue_in_arrival_order env tick start evs bucket (i j : nat) w1 w2 :
  let cfg := Config.constructor env in
  let s := Local.run cfg tick start evs in
  (i < j)%nat ->
  Local.queue (Local.deref s bucket) !! i = Some w1 ->
  Local.queue (Local.deref s bucket) !! j = Some w2 ->
  (Local.wid w1 < Local.wid w2)%nat.
Proof.
  intros cfg s Hij H1 H2.
  pose proof (FairFacts.Fair_run cfg tick (constructor_well_formed env) start evs) as HF.
  exact (Discipline.fair_sorted _ _ _ HF bucket i j w1 w2 Hij H1 H2).
Qed.

Lemma queue_in_arrival_order_witness :
  (Local.wid {| Local.wid := 1; Local.timeoutHandle := Some 1%nat |}
   < Local.wid {| Local.wid := 2; Local.timeoutHandle := Some 2%nat |})%nat.
Proof.
  apply (queue_in_arrival_order two_in_queue (fun _ => O) 1700000000000 two_waiting
           0%nat 0%nat 1%nat); [lia | vm_compute; reflexivity | vm_compute; reflexivity].
Defined.

(** X3: no overtaking.  While a waiter is still queued on the
    bucket of a credential, every acquisition of that credential granted
    so far went to a caller that arrived before it. *)
Theorem fifo_no_overtaking env tick start evs sessionId bucket waiter w' (k : nat) c :
  let cfg := Config.constructor env in
  let s := Local.run cfg tick start evs in
  Local.buckets s !! sessionId = Some bucket ->
  waiter ∈ Local.queue (Local.deref s bucket) ->
  Local.promises s !! w' = Some (Local.Resolved k) ->
  Local.releases s !! k = Some c ->
  Local.rc_session c = sessionId ->
  (w' < Local.wid waiter)%nat.
Proof.
  intros cfg s Hreg Hw Hp Hk Hs.
  pose proof (constructor_well_formed env) as Hwf.
  pose proof (LocalFacts.Inv_run cfg tick Hwf start evs) as HI.
  pose proof (FairFacts.Fair_run cfg tick Hwf start evs) as HF.
  pose proof (Spec.inv_registry _ _ _ HI _ _ Hreg) as Hown.
  exact (Discipline.fair_order _ _ _ HF _ _ _ _ _ _ Hown Hw Hp Hk Hs).
Qed.

Lemma fifo_no_overtaking_witness :
  (0 < Local.wid {| Local.wid := 1; Local.timeoutHandle := Some 1%nat |})%nat.
Proof.
  apply (fifo_no_overtaking two_in_queue (fun _ => O) 1700000000000 two_waiting
           "session-a" 0%nat {| Local.wid := 1; Local.timeoutHandle := Some 1%nat |}
           0%nat 0%nat
           {| Local.rc_session := "session-a"; Local.rc_bucket := 0;
              Local.rc_released := false; Local.rc_startedAt := 1700000000000 |}).
  - vm_compute. reflexivity.
  - replace (Local.queue _)
      with [{| Local.wid := 1; Local.timeoutHandle := Some 1%nat |};
            {| Local.wid := 2; Local.timeoutHandle := Some 2%nat |}]
      by (vm_compute; reflexivity).
    apply list_elem_of_here.
  - vm_compute. reflexivity.
  - vm_compute. reflexivity.
  - reflexivity.
Defined.

(** X4: no waiter is stranded.  In every reachable state a
    bucket that has a waiter and free capacity has its retry timer
    pending in the runtime, so the queue will be looked at again without
    any further call. *)
Theorem no_stranded_waiter env tick start evs bucket :
  let cfg := Config.constructor env in
  let s := Local.run cfg tick start evs in
  Local.queue (Local.deref s bucket) <> [] ->
  Local.active (Local.deref s bucket) < Config.maxConcurrent cfg ->
  exists h d sessionId,
    Local.timer (Local.deref s bucket) = Some h
    /\ Local.timers s !! h
       = Some {| Local.delay := d; Local.callback := Local.RetryTimer sessionId bucket |}
    /\ Local.buckets s !! sessionId = Some bucket.
Proof.
  intros cfg s Hq Ha. subst s.
  pose proof (constructor_well_formed env) as Hwf.
  pose proof (LocalFacts.Inv_run cfg tick Hwf start evs) as HI.
  pose proof (FairFacts.Fair_run cfg tick Hwf start evs) as HF.
  destruct (Discipline.fair_progress _ _ _ HF bucket ltac:(done))
    as [Hfull | [Hnil | [h Ht]]]; [lia | done |].
  destruct (Spec.inv_timer _ _ _ HI _ _ Ht) as (d & sid & Hh).
  destruct (Spec.inv_retry _ _ _ HI _ _ _ _ Hh) as [Hown _].
  exists h, d, sid. split; [done |]. split; [done |].
  apply (Spec.inv_busy _ _ _ HI); [done |].
  apply LocalFacts.busy_true. by right; left.
Qed.

Lemma no_stranded_waiter_witness :
  let s := Local.run (Config.constructor Config.default_env) (fun _ => O) 1700000000000
             interval_wait in
  exists h d sessionId,
    Local.timer (Local.deref s 0) = Some h
    /\ Local.timers s !! h
       = Some {| Local.delay := d; Local.callback := Local.RetryTimer sessionId 0 |}
    /\ Local.buckets s !! sessionId = Some 0%nat.
Proof.
  apply (no_stranded_waiter Config.default_env (fun _ => O) 1700000000000 interval_wait
           0%nat); vm_compute; [discriminate | reflexivity].
Defined.

(** X5: as long as a credential keeps its bucket, its grants
    start at least [minIntervalMs] apart: of two release closures handed
    out for the same bucket object, the later one started at least
    [minIntervalMs] after the earlier one. *)
Theorem spacing_within_bucket env tick start evs (k1 k2 : nat) c1 c2 :
  let cfg := Config.constructor env in
  let s := Local.run cfg tick start evs in
  (k1 < k2)%nat ->
  Local.releases s !! k1 = Some c1 ->
  Local.releases s !! k2 = Some c2 ->
  Local.rc_bucket c1 = Local.rc_bucket c2 ->
  Local.rc_startedAt c1 + Config.minIntervalMs cfg <= Local.rc_startedAt c2.
Proof.
  intros cfg s Hlt H1 H2 Hb.
  pose proof (FairFacts.Fair_run cfg tick (constructor_well_formed env) start evs) as HF.
  exact (Discipline.fair_spacing _ _ _ HF _ _ _ _ Hlt H1 H2 Hb).
Qed.

Lemma spacing_within_bucket_witness :
  1700000000000 + Config.minIntervalMs (Config.constructor Config.default_env)
  <= 1700000000200.
Proof.
  apply (spacing_within_bucket Config.default_env (fun _ => O) 1700000000000 paced
           0%nat 1%nat
           {| Local.rc_session := "session-a"; Local.rc_bucket := 0;
              Local.rc_released := false; Local.rc_startedAt := 1700000000000 |}
           {| Local.rc_session := "session-a"; Local.rc_bucket := 0;
              Local.rc_released := false; Local.rc_startedAt := 1700000000200 |});
    [lia | vm_compute; reflexivity | vm_compute; reflexivity | reflexivity].
Defined.

(** X6: the limiter leaves no stray timer behind.  Every timer
    pending in the runtime is either the deadline of a waiter that is
    still queued on a registered bucket, armed with [queueTimeoutMs], or
    the one retry timer its registered bucket points to. *)
Theorem pending_timers_accounted env tick start evs h tm :
  let cfg := Config.constructor env in
  let s := Local.run cfg tick start evs in
  Local.timers s !! h = Some tm ->
  match Local.callback tm with
  | Local.WaiterTimeout sessionId bucket w =>
      Local.delay tm = Config.queueTimeoutMs cfg
      /\ Local.buckets s !! sessionId = Some bucket
      /\ exists waiter,
           waiter ∈ Local.queue (Local.deref s bucket)
           /\ Local.wid waiter = w /\ Local.timeoutHandle waiter = Some h
  | Local.RetryTimer sessionId bucket =>
      Local.buckets s !! sessionId = Some bucket
      /\ Local.timer (Local.deref s bucket) = Some h
  end.
Proof.
  intros cfg s Hh.
  pose proof (constructor_well_formed env) as Hwf.
  pose proof (LocalFacts.Inv_run cfg tick Hwf start evs) as HI.
  pose proof (FairFacts.Fair_run cfg tick Hwf start evs) as HF.
  fold s in HI, HF.
  destruct tm as [d [sid r w | sid r]]; simpl.
  - destruct (Discipline.fair_timer _ _ _ HF _ _ _ _ _ Hh) as (x & Hx & Hwx & Hhx).
    destruct (Spec.inv_deadline _ _ _ HI _ _ Hx) as (h0 & sid0 & Hh0 & Ht0).
    assert (h0 = h) as -> by congruence.
    rewrite Hh in Ht0. injection Ht0 as -> _.
    split; [done |]. split; [| by exists x].
    apply (Spec.inv_busy _ _ _ HI).
    + exact (Spec.inv_waiter_timeout _ _ _ HI _ _ _ _ _ Hh).
    + apply LocalFacts.busy_true. right; left. intros Hnil. rewrite Hnil in Hx.
      by apply elem_of_nil in Hx.
  - destruct (Spec.inv_retry _ _ _ HI _ _ _ _ Hh) as [Hown Ht]. split; [| done].
    apply (Spec.inv_busy _ _ _ HI); [done |].
    apply LocalFacts.busy_true. right; right. by rewrite Ht.
Qed.

Lemma pending_timers_accounted_witness :
  let s := Local.run (Config.constructor Config.default_env) (fun _ => O) 1700000000000
             interval_wait in
  Local.buckets s !! "session-a" = Some 0%nat
  /\ Local.timer (Local.deref s 0) = Some 2%nat.
Proof.
  apply (pending_timers_accounted Config.default_env (fun _ => O) 1700000000000
           interval_wait 2%nat
           {| Local.delay := 200; Local.callback := Local.RetryTimer "session-a" 0 |}).
  vm_compute. reflexivity.
Defined.

(** X7: every grant comes with a release closure of its own.
    A promise that was resolved holds a closure that exists and that no
    other promise holds, and its waiter has left every queue. *)
Theorem grant_has_own_release env tick start evs w (k : nat) :
  let cfg := Config.constructor env in
  let s := Local.run cfg tick start evs in
  Local.promises s !! w = Some (Local.Resolved k) ->
  is_Some (Local.releases s !! k)
  /\ (forall w2, Local.promises s !! w2 = Some (Local.Resolved k) -> w2 = w)
  /\ (forall bucket waiter,
        waiter ∈ Local.queue (Local.deref s bucket) -> Local.wid waiter <> w).
Proof.
  intros cfg s Hp.
  pose proof (constructor_well_formed env) as Hwf.
  pose proof (LocalFacts.Inv_run cfg tick Hwf start evs) as HI.
  pose proof (FairFacts.Fair_run cfg tick Hwf start evs) as HF.
  split; [exact (Discipline.fair_closure _ _ _ HF _ _ Hp) |]. split.
  - intros w2 H2. exact (Discipline.fair_own _ _ _ HF _ _ _ H2 Hp).
  - intros bucket waiter Hw E. subst w.
    pose proof (Spec.inv_unsettled _ _ _ HI _ _ Hw) as Hu. fold s in Hu.
    rewrite Hu in Hp. discriminate.
Qed.

Lemma grant_has_own_release_witness :
  is_Some (Local.releases
             (Local.run (Config.constructor Config.default_env) (fun _ => O)
                1700000000000 paced) !! 1%nat).
Proof.
  apply (grant_has_own_release Config.default_env (fun _ => O) 1700000000000 paced
           1%nat 1%nat).
  vm_compute. reflexivity.
Defined.

(** A limiter that holds nothing. *)
Lemma inert_step cfg tick s e :
  Config.enabled cfg = false ->
  Local.buckets s = ∅ /\ Local.heap s = ∅ /\ Local.timers s = ∅
  /\ Local.promises s = ∅ /\ Local.releases s = [] ->
  let s' := Local.step cfg tick s e in
  Local.buckets s' = ∅ /\ Local.heap s' = ∅ /\ Local.timers s' = ∅
  /\ Local.promises s' = ∅ /\ Local.releases s' = [].
Proof.
  intros Hoff (Hb & Hh & Ht & Hp & Hr). destruct e as [sid | k | h | ms]; simpl.
  - unfold Local.acquire_local_mode. by rewrite Hoff.
  - unfold Local.release. by rewrite Hr.
  - unfold Local.fire. by rewrite Ht, lookup_empty.
  - done.
Qed.

Lemma inert_fold cfg tick evs : forall s,
  Config.enabled cfg = false ->
  Local.buckets s = ∅ /\ Local.heap s = ∅ /\ Local.timers s = ∅
  /\ Local.promises s = ∅ /\ Local.releases s = [] ->
  let s' := fold_left (Local.step cfg tick) evs s in
  Local.buckets s' = ∅ /\ Local.heap s' = ∅ /\ Local.timers s' = ∅
  /\ Local.promises s' = ∅ /\ Local.releases s' = [].
Proof.
  induction evs as [|e evs IH]; intros s Hoff H; [done |].
  simpl. apply IH; [done |]. by apply inert_step.
Qed.

(** X8: with [SESSION_RATE_LIMIT_ENABLED=false] the limiter
    never keeps anything: whatever is called, no bucket, timer, promise
    or release closure exists, and every acquire passes through with the
    no-op release and leaves the limiter as it is. *)
Theorem disabled_limiter_is_inert env tick start evs sessionId :
  let cfg := Config.constructor env in
  let s := Local.run cfg tick start evs in
  Config.enabled cfg = false ->
  Local.buckets s = ∅ /\ Local.heap s = ∅ /\ Local.timers s = ∅
  /\ Local.promises s = ∅ /\ Local.releases s = []
  /\ Local.acquire_local_mode cfg tick sessionId s = (Local.Passthrough, s).
Proof.
  intros cfg s Hoff.
  destruct (inert_fold cfg tick evs (Local.init start) Hoff) as (Hb & Hh & Ht & Hp & Hr);
    [done |].
  do 5 (split; [done |]).
  unfold Local.acquire_local_mode. by rewrite Hoff.
Qed.

Lemma disabled_limiter_is_inert_witness :
  Local.acquire_local_mode (Config.constructor limiter_off) (fun _ => O) "session-a"
    (Local.run (Config.constructor limiter_off) (fun _ => O) 1700000000000 interval_wait)
  = (Local.Passthrough,
     Local.run (Config.constructor limiter_off) (fun _ => O) 1700000000000 interval_wait).
Proof.
  apply (disabled_limiter_is_inert limiter_off (fun _ => O) 1700000000000 interval_wait
           "session-a").
  reflexivity.
Defined.

(** * Further lemmas: the uncontended acquire *)

Module GrantFacts.
Import Local Spec LocalFacts.

Section Uncontended.
Variable cfg : Config.Settings.
Variable tick : nat -> nat.
Hypothesis cfg_wf : Config.well_formed cfg.

(** With an empty queue, free capacity and the interval over,
    [processQueue] grants the waiter just queued and stops. *)
Lemma processQueue_uncontended ex s1 sid r :
  Inv cfg ex s1 -> Config.enabled cfg = true ->
  queue (deref s1 r) = [] ->
  active (deref s1 r) < Config.maxConcurrent cfg ->
  lastStartedAt (deref s1 r) + Config.minIntervalMs cfg <= clock s1 ->
  processQueue cfg tick sid r (enqueued cfg sid r s1)
  = granted_explicit tick sid r
      {| wid := nextWaiter s1; timeoutHandle := Some (nextHandle s1) |} []
      (Date_now tick (enqueued cfg sid r s1)).2.
Proof.
  intros HI Hen Hq Ha Hdue.
  set (x := {| wid := nextWaiter s1; timeoutHandle := Some (nextHandle s1) |}).
  set (s4 := enqueued cfg sid r s1).
  assert (Hd4 : deref s4 r = with_queue [x] (deref s1 r)).
  { unfold s4, enqueued. rewrite deref_upd_bucket, decide_True by done.
    change (deref (setTimeout ?c ?d (new_waiter s1).2).2 r) with (deref s1 r).
    by rewrite Hq. }
  assert (Hc4 : clock s4 = clock s1) by reflexivity.
  assert (Hp4 : promises s4 = promises s1) by reflexivity.
  unfold processQueue. rewrite Hd4. cbn [queue with_queue length].
  rewrite processQueue_fuel_S, Hen. simpl negb. cbv iota.
  rewrite Hd4. cbn [queue active with_queue].
  replace (active (deref s1 r) >=? Config.maxConcurrent cfg) with false
    by (symmetry; rewrite Z.geb_leb; apply Z.leb_gt; lia).
  cbv zeta.
  set (s5 := (Date_now tick s4).2).
  assert (Hd5 : deref s5 r = with_queue [x] (deref s1 r)) by (by rewrite <- Hd4).
  assert (Hnow : (Date_now tick s4).1 = clock s1 + Z.of_nat (tick (reads s4))).
  { unfold Date_now. cbn [fst]. by rewrite Hc4. }
  rewrite Hnow, Hd5. cbn [lastStartedAt with_queue].
  replace (Z.max 0 (lastStartedAt (deref s1 r) + Config.minIntervalMs cfg
                    - (clock s1 + Z.of_nat (tick (reads s4)))) >? 0) with false
    by (symmetry; rewrite Z.gtb_ltb; apply Z.ltb_ge; lia).
  assert (Hun : promises s5 !! wid x = None).
  { change (promises s5) with (promises s1). simpl.
    by apply (inv_promise_fresh _ _ _ HI). }
  rewrite granted_state_eq by done.
  set (s8 := granted_explicit tick sid r x [] s5).
  pose proof (deref_granted tick sid r x [] s5 r) as Hd8.
  rewrite decide_True in Hd8 by done. fold s8 in Hd8.
  assert (Ha8 : active (deref s8 r) = active (deref s1 r) + 1).
  { rewrite Hd8, Hd5. reflexivity. }
  pose proof (active_nonneg cfg _ _ r HI) as Hnn.
  destruct (active (deref s8 r) <? Config.maxConcurrent cfg) eqn:Hmore; [| done].
  rewrite processQueue_fuel_S, Hen. simpl negb. cbv iota.
  replace (active (deref s8 r) >=? Config.maxConcurrent cfg) with false
    by (symmetry; rewrite Z.geb_leb; apply Z.leb_gt; by apply Z.ltb_lt).
  rewrite Hd8. cbn [queue].
  apply cleanupBucket_busy. apply busy_true. left. lia.
Qed.

Lemma getBucket_idle s sid :
  match buckets s !! sid with
  | Some r =>
      queue (deref s r) = [] /\ active (deref s r) < Config.maxConcurrent cfg
      /\ lastStartedAt (deref s r) + Config.minIntervalMs cfg <= clock s
  | None => Config.minIntervalMs cfg <= clock s
  end ->
  let r := (getBucket sid s).1 in
  let s1 := (getBucket sid s).2 in
  queue (deref s1 r) = [] /\ active (deref s1 r) < Config.maxConcurrent cfg
  /\ lastStartedAt (deref s1 r) + Config.minIntervalMs cfg <= clock s1
  /\ nextWaiter s1 = nextWaiter s /\ releases s1 = releases s
  /\ promises s1 = promises s /\ clock s1 = clock s.
Proof.
  pose proof (Config.wf_concurrent cfg cfg_wf).
  unfold getBucket. destruct (buckets s !! sid) as [r|]; cbn [fst snd].
  - intros (Hq & Ha & Hl). done.
  - intros Hl. unfold deref. simpl. rewrite lookup_insert_eq. simpl.
    repeat split; try done; lia.
Qed.

Lemma deref_upd_releases f s r : deref (upd_releases f s) r = deref s r.
Proof. reflexivity. Qed.

Lemma deref_upd_buckets f s r : deref (upd_buckets f s) r = deref s r.
Proof. reflexivity. Qed.

(** The grant of the first caller of a credential, released at once:
    [release] finds the bucket idle and drops it. *)
Lemma release_first_grant s sid :
  Inv cfg None s -> Config.enabled cfg = true -> sid <> "" ->
  buckets s !! sid = None ->
  Config.minIntervalMs cfg <= clock s ->
  let s' := (acquireLocal cfg tick sid s).2 in
  let s'' := release cfg tick (length (releases s)) s' in
  buckets s'' = buckets s /\ timers s'' = timers s
  /\ releases s''
     = (releases s
        ++ [{| rc_session := sid; rc_bucket := nextBucket s; rc_released := true;
               rc_startedAt := clock s + Z.of_nat (tick (reads s))
                               + Z.of_nat (tick (S (reads s))) |}])%list
  /\ (forall r, r <> nextBucket s -> deref s'' r = deref s r)
  /\ active (deref s'' (nextBucket s)) = 0
  /\ queue (deref s'' (nextBucket s)) = [].
Proof.
  intros HI Hen Hsid Hnone Hclk.
  pose proof (Config.wf_queue cfg cfg_wf) as Hqmax.
  pose proof (Config.wf_concurrent cfg cfg_wf) as Hcmax.
  destruct (Inv_getBucket cfg cfg_wf _ _ HI Hsid) as (HI1 & Hown & Hreg & _).
  destruct (getBucket_idle s sid) as (Hq & Ha & Hl & Hnw & Hrel & Hpr & Hclk1);
    [by rewrite Hnone |].
  cbv zeta in HI1, Hown, Hreg, Hq, Ha, Hl, Hnw, Hrel, Hpr, Hclk1.
  assert (Hr : (getBucket sid s).1 = nextBucket s)
    by (unfold getBucket; by rewrite Hnone).
  assert (Hd1 : forall r, deref (getBucket sid s).2 r = deref s r)
    by (intros r; by apply (FairFacts.deref_getBucket cfg)).
  assert (Hb1 : buckets (getBucket sid s).2 = <[sid := nextBucket s]> (buckets s))
    by (unfold getBucket; by rewrite Hnone).
  assert (Ht1 : timers (getBucket sid s).2 = timers s)
    by (unfold getBucket; by rewrite Hnone).
  assert (Hh1 : nextHandle (getBucket sid s).2 = nextHandle s)
    by (unfold getBucket; by rewrite Hnone).
  assert (Hrd1 : reads (getBucket sid s).2 = reads s)
    by (unfold getBucket; by rewrite Hnone).
  rewrite Hr in *.
  set (r := nextBucket s) in *. set (s1 := (getBucket sid s).2) in *.
  cbv zeta. rewrite (acquireLocal_unfold cfg tick cfg_wf). cbv zeta.
  fold s1. rewrite Hr. fold r. rewrite Hq. cbn [length].
  replace (Z.of_nat 0 >=? Config.maxQueuePerSession cfg) with false
    by (symmetry; rewrite Z.geb_leb; apply Z.leb_gt; lia).
  cbn [snd].
  rewrite (processQueue_uncontended _ s1 sid r HI1 Hen Hq Ha Hl).
  set (x := {| wid := nextWaiter s1; timeoutHandle := Some (nextHandle s1) |}).
  set (s5 := (Date_now tick (enqueued cfg sid r s1)).2).
  assert (Hd5 : forall r0, deref s5 r0 =
            if decide (r = r0) then with_queue [x] (deref s1 r) else deref s1 r0).
  { intros r0. unfold s5, enqueued.
    change (deref (Date_now tick ?y).2 r0) with (deref y r0).
    rewrite deref_upd_bucket. case_decide; [| done].
    change (deref (setTimeout ?c ?d (new_waiter s1).2).2 r) with (deref s1 r).
    by rewrite Hq. }
  assert (Hr5 : releases s5 = releases s) by (by rewrite <- Hrel).
  assert (Hb5 : buckets s5 = <[sid := r]> (buckets s)) by (by rewrite <- Hb1).
  assert (Ht5 : timers s5
                = <[nextHandle s := {| delay := Config.queueTimeoutMs cfg;
                                       callback := WaiterTimeout sid r (nextWaiter s1) |}]>
                    (timers s)).
  { rewrite <- Ht1, <- Hh1. reflexivity. }
  assert (Hc5 : clock s5 + Z.of_nat (tick (reads s5))
                = clock s + Z.of_nat (tick (reads s)) + Z.of_nat (tick (S (reads s)))).
  { unfold s5. simpl. rewrite Hclk1, Hrd1. reflexivity. }
  set (s8 := granted_explicit tick sid r x [] s5).
  pose proof (deref_granted tick sid r x [] s5) as Hd8. fold s8 in Hd8.
  assert (Hr8 : releases s8
                = (releases s ++ [{| rc_session := sid; rc_bucket := r;
                                     rc_released := false;
                                     rc_startedAt := clock s5 + Z.of_nat (tick (reads s5)) |}])%list).
  { unfold s8, granted_explicit. cbn [releases]. by rewrite Hr5. }
  assert (Hb8 : buckets s8 = <[sid := r]> (buckets s)) by (by rewrite <- Hb5).
  assert (Ht8 : timers s8 = timers s).
  { unfold s8, granted_explicit. cbn [timers timeoutHandle x]. rewrite Ht5, Hh1.
    apply delete_insert_id. by apply (inv_timer_fresh _ _ _ HI). }
  clearbody s8.
  unfold release. rewrite Hr8, (list_lookup_middle _ [] _ _ eq_refl).
  cbn [rc_released rc_session rc_bucket rc_startedAt].
  match goal with |- context [processQueue cfg tick sid r ?y] => set (s10 := y) end.
  assert (Hd10 : forall r0, deref s10 r0 =
            if decide (r = r0)
            then {| active := 0; lastStartedAt := clock s5 + Z.of_nat (tick (reads s5));
                    queue := []; timer := None |}
            else deref s r0).
  { intros r0. unfold s10. rewrite deref_upd_bucket.
    rewrite !deref_upd_releases. destruct (decide (r = r0)) as [<- | E].
    - rewrite !Hd8, decide_True by done. rewrite Hd5, decide_True by done.
      unfold with_active, with_queue. cbn [active lastStartedAt queue timer].
      rewrite Hd1. unfold deref.
      rewrite (inv_heap_fresh _ _ _ HI r) by (unfold r; lia). simpl. reflexivity.
    - rewrite Hd8, decide_False by done. rewrite Hd5, decide_False by done. apply Hd1. }
  assert (Hidle : busy (deref s10 r) = false).
  { rewrite Hd10, decide_True by done. reflexivity. }
  assert (Hpq : processQueue cfg tick sid r s10 = upd_buckets (delete sid) s10).
  { unfold processQueue. rewrite Hd10, decide_True by done. cbn [queue length].
    rewrite processQueue_fuel_S, Hen. simpl negb. cbv iota.
    rewrite Hd10, decide_True by done. cbn [active queue].
    replace (0 >=? Config.maxConcurrent cfg) with false
      by (symmetry; rewrite Z.geb_leb; apply Z.leb_gt; lia).
    by apply cleanupBucket_idle. }
  rewrite Hpq, cleanupBucket_idle by done.
  split.
  { cbn [buckets upd_buckets]. change (buckets s10) with (buckets s8).
    rewrite Hb8, delete_insert_id by done. by apply delete_id. }
  split; [exact Ht8 |].
  split.
  { cbn [releases upd_buckets]. change (releases s10) with
      (<[length (releases s) :=
           {| rc_session := sid; rc_bucket := r; rc_released := true;
              rc_startedAt := clock s5 + Z.of_nat (tick (reads s5)) |}]> (releases s8)).
    rewrite Hr8. rewrite insert_app_r_alt by lia. rewrite Nat.sub_diag.
    cbn [insert list_insert]. by rewrite Hc5. }
  rewrite !deref_upd_buckets.
  split; [intros r0 Hne; by rewrite !deref_upd_buckets, Hd10, decide_False |].
  by rewrite Hd10, decide_True.
Qed.

End Uncontended.
End GrantFacts.

(** * Further properties of the local limiter: the fast path *)

(** X9: an uncontended acquire is granted in the same call.
    When the credential has no waiter, free capacity, and its last grant
    started at least [minIntervalMs] ago (for a credential without a
    bucket: the clock reads at least [minIntervalMs]), [acquire] resolves
    the caller's promise before it returns, with a fresh release closure,
    and the credential holds one acquisition more. *)
Theorem uncontended_acquire_is_immediate env tick start evs sessionId :
  let cfg := Config.constructor env in
  let s := Local.run cfg tick start evs in
  Config.enabled cfg = true ->
  sessionId <> "" ->
  match Local.buckets s !! sessionId with
  | Some bucket =>
      Local.queue (Local.deref s bucket) = []
      /\ Local.active (Local.deref s bucket) < Config.maxConcurrent cfg
      /\ Local.lastStartedAt (Local.deref s bucket) + Config.minIntervalMs cfg
         <= Local.clock s
  | None => Config.minIntervalMs cfg <= Local.clock s
  end ->
  let r := Local.acquire_local_mode cfg tick sessionId s in
  r.1 = Local.Waiting (Local.nextWaiter s)
  /\ Local.promises r.2 !! Local.nextWaiter s
     = Some (Local.Resolved (length (Local.releases s)))
  /\ (exists c,
        Local.releases r.2 = (Local.releases s ++ [c])%list
        /\ Local.rc_session c = sessionId /\ Local.rc_released c = false
        /\ Local.clock s <= Local.rc_startedAt c)
  /\ Local.held r.2 sessionId = Local.held s sessionId + 1.
Proof.
  intros cfg s Hen Hsid Hidle.
  pose proof (constructor_well_formed env) as Hwf.
  pose proof (LocalFacts.Inv_run cfg tick Hwf start evs) as HI. fold s in HI.
  pose proof (Config.wf_queue cfg Hwf) as Hqmax.
  destruct (LocalFacts.Inv_getBucket cfg Hwf _ _ HI Hsid) as (HI1 & Hown & Hreg & _).
  destruct (GrantFacts.getBucket_idle cfg Hwf s sessionId Hidle)
    as (Hq & Ha & Hl & Hnw & Hrel & Hpr & Hclk).
  cbv zeta in HI1, Hown, Hreg, Hq, Ha, Hl, Hnw, Hrel, Hpr, Hclk.
  unfold Local.acquire_local_mode. rewrite Hen. cbn [negb orb].
  destruct (String.eqb_spec sessionId ""); [done |].
  rewrite (LocalFacts.acquireLocal_unfold cfg tick Hwf). cbv zeta.
  set (bucket := (Local.getBucket sessionId s).1) in *.
  set (s1 := (Local.getBucket sessionId s).2) in *.
  rewrite Hq. cbn [length].
  replace (Z.of_nat 0 >=? Config.maxQueuePerSession cfg) with false
    by (symmetry; rewrite Z.geb_leb; apply Z.leb_gt; lia).
  rewrite (GrantFacts.processQueue_uncontended cfg tick _ s1 sessionId bucket HI1 Hen Hq Ha Hl).
  cbn [fst snd]. rewrite Hnw.
  set (s5 := (Local.Date_now tick (Spec.enqueued cfg sessionId bucket s1)).2).
  assert (Hr5 : Local.releases s5 = Local.releases s) by (by rewrite <- Hrel).
  assert (Hc5 : Local.clock s <= Local.clock s5 + Z.of_nat (tick (Local.reads s5))).
  { rewrite <- Hclk. unfold s5. simpl. lia. }
  clearbody s5.
  split; [done |]. split.
  { unfold Spec.granted_explicit. cbn [Local.promises Local.wid].
    by rewrite <- Hnw, lookup_insert_eq, Hr5. }
  split.
  { eexists. unfold Spec.granted_explicit. cbn [Local.releases]. rewrite Hr5.
    split; [done |]. by cbn [Local.rc_session Local.rc_released Local.rc_startedAt]. }
  unfold Local.held, Spec.granted_explicit. cbn [Local.releases]. rewrite Hr5.
  rewrite LocalFacts.count_app. cbn [Local.count Local.holds_session Local.rc_released
    Local.rc_session negb andb]. rewrite String.eqb_refl. lia.
Qed.

Lemma uncontended_acquire_is_immediate_witness :
  (Local.acquire_local_mode (Config.constructor Config.default_env) (fun _ => O)
     "session-a"
     (Local.run (Config.constructor Config.default_env) (fun _ => O) 1700000000000 [])).1
  = Local.Waiting 0.
Proof.
  apply (uncontended_acquire_is_immediate Config.default_env (fun _ => O) 1700000000000 []
           "session-a"); [reflexivity | discriminate | vm_compute; discriminate].
Defined.

(** X10: the first use of a credential leaves no trace.  When a
    credential without a bucket acquires and releases, the registry and
    the pending timers are exactly as before, no other bucket has
    changed, and the credential holds nothing. *)
Theorem acquire_release_leaves_no_trace env tick start evs sessionId :
  let cfg := Config.constructor env in
  let s := Local.run cfg tick start evs in
  Config.enabled cfg = true ->
  sessionId <> "" ->
  Local.buckets s !! sessionId = None ->
  Config.minIntervalMs cfg <= Local.clock s ->
  let s' := (Local.acquire_local_mode cfg tick sessionId s).2 in
  let s'' := Local.release cfg tick (length (Local.releases s)) s' in
  Local.buckets s'' = Local.buckets s
  /\ Local.timers s'' = Local.timers s
  /\ (forall bucket, bucket <> Local.nextBucket s ->
        Local.deref s'' bucket = Local.deref s bucket)
  /\ Local.held s'' sessionId = 0.
Proof.
  intros cfg s Hen Hsid Hnone Hclk.
  pose proof (constructor_well_formed env) as Hwf.
  pose proof (LocalFacts.Inv_run cfg tick Hwf start evs) as HI. fold s in HI.
  destruct (GrantFacts.release_first_grant cfg tick Hwf s sessionId HI Hen Hsid Hnone Hclk)
    as (Hb & Ht & Hr & Hd & _).
  cbv zeta in Hb, Ht, Hr, Hd.
  assert (Hacq : (Local.acquire_local_mode cfg tick sessionId s).2
                 = (Local.acquireLocal cfg tick sessionId s).2).
  { unfold Local.acquire_local_mode. rewrite Hen. cbn [negb orb].
    destruct (String.eqb_spec sessionId ""); [done |].
    by destruct (Local.acquireLocal cfg tick sessionId s) as [[e | w] l]. }
  cbv zeta. rewrite Hacq.
  split; [done |]. split; [done |]. split; [done |].
  unfold Local.held. rewrite Hr, LocalFacts.count_app.
  cbn [Local.count Local.holds_session Local.rc_released negb andb].
  pose proof (LocalFacts.held_active cfg s sessionId HI) as Hheld.
  rewrite Hnone in Hheld. unfold Local.held in Hheld. lia.
Qed.

Lemma acquire_release_leaves_no_trace_witness :
  let cfg := Config.constructor Config.default_env in
  let s := Local.run cfg (fun _ => O) 1700000000000 [] in
  Local.buckets
    (Local.release cfg (fun _ => O) 0
       (Local.acquire_local_mode cfg (fun _ => O) "session-a" s).2)
  = Local.buckets s.
Proof.
  apply (acquire_release_leaves_no_trace Config.default_env (fun _ => O) 1700000000000 []
           "session-a"); [reflexivity | discriminate | reflexivity | vm_compute; discriminate].
Defined.

(** * Further properties: configuration and the Redis scripts *)

(** X1: whatever the environment holds, the constructor ends with
    settings inside their bounds, distributed mode is on only with a
    non-empty Redis URL, and the time to live [acquireDistributed] gives
    the next-allowed-at key is at least a minute and longer than the
    interval the key enforces. *)
Theorem constructor_clamps env :
  let cfg := Config.constructor env in
  0 <= Config.minIntervalMs cfg
  /\ 1 <= Config.maxConcurrent cfg
  /\ 1 <= Config.maxQueuePerSession cfg
  /\ 1000 <= Config.queueTimeoutMs cfg
  /\ 10000 <= Config.inflightTtlMs cfg
  /\ 20 <= Config.redisPollIntervalMs cfg
  /\ (Config.useRedisDistributed cfg = true -> Config.redisUrl cfg <> "")
  /\ 60000 <= Distributed.intervalTtlMs cfg
  /\ Config.minIntervalMs cfg < Distributed.intervalTtlMs cfg.
Proof.
  intros cfg. unfold Distributed.intervalTtlMs. subst cfg. simpl.
  repeat split; try lia.
  intros H. apply andb_true_iff in H as [_ H]. apply Z.ltb_lt in H.
  intros E. rewrite E in H. simpl in H. lia.
Qed.

Module ScriptFacts.
Import Redis RedisFacts.

Lemma append_inj_r (p x y : string) : p +:+ x = p +:+ y -> x = y.
Proof. induction p as [|a p IH]; simpl; [done |]. intros H. injection H. apply IH. Qed.

Lemma inflight_keys_inj sha a b :
  (getRedisKeys sha a).1 = (getRedisKeys sha b).1 -> sha a = sha b.
Proof.
  unfold getRedisKeys. cbn [fst]. intros H.
  apply append_inj_r in H. by apply append_inj_r in H.
Qed.

Lemma interval_keys_inj sha a b :
  (getRedisKeys sha a).2 = (getRedisKeys sha b).2 -> sha a = sha b.
Proof.
  unfold getRedisKeys. cbn [snd]. intros H.
  apply append_inj_r in H. by apply append_inj_r in H.
Qed.

Lemma acquire_script_frame t K K' nowMs minI maxC ttl ittl db key :
  K <> K' -> key <> K -> key <> K' ->
  (REDIS_ACQUIRE_SCRIPT t K K' nowMs minI maxC ttl ittl db).2 !! key = db !! key.
Proof.
  intros Hne H1 H2. rewrite acquire_script_spec by done. cbv zeta.
  repeat case_match; cbn [snd]; try done.
  by rewrite !lookup_insert_ne.
Qed.

Lemma release_script_frame t K db key :
  key <> K -> (REDIS_RELEASE_SCRIPT t K db).2 !! key = db !! key.
Proof.
  intros H. rewrite release_script_spec. cbv zeta.
  case_match; cbn [snd]; [by rewrite lookup_delete_ne | by rewrite lookup_alter_ne].
Qed.

End ScriptFacts.

(** X11: credentials with different SHA-1 digests do not touch
    each other's records.  Neither script, run for one credential,
    changes the inflight counter or the next-allowed-at key of the
    other. *)
Theorem scripts_leave_other_credentials_alone cfg sha1_hex a b t nowMs db :
  sha1_hex a <> sha1_hex b ->
  let mine := Redis.getRedisKeys sha1_hex a in
  let theirs := Redis.getRedisKeys sha1_hex b in
  let acquired :=
    (Redis.REDIS_ACQUIRE_SCRIPT t mine.1 mine.2 nowMs (Config.minIntervalMs cfg)
       (Config.maxConcurrent cfg) (Config.inflightTtlMs cfg)
       (Distributed.intervalTtlMs cfg) db).2 in
  let released := (Redis.REDIS_RELEASE_SCRIPT t mine.1 db).2 in
  acquired !! theirs.1 = db !! theirs.1
  /\ acquired !! theirs.2 = db !! theirs.2
  /\ released !! theirs.1 = db !! theirs.1
  /\ released !! theirs.2 = db !! theirs.2.
Proof.
  intros Hab mine theirs acquired released.
  assert (H11 : theirs.1 <> mine.1).
  { intros E. apply Hab. symmetry. by apply (ScriptFacts.inflight_keys_inj sha1_hex b a). }
  assert (H22 : theirs.2 <> mine.2).
  { intros E. apply Hab. symmetry. by apply (ScriptFacts.interval_keys_inj sha1_hex b a). }
  assert (H12 : theirs.1 <> mine.2) by apply RedisFacts.keys_distinct.
  assert (H21 : theirs.2 <> mine.1).
  { intros E. by apply (RedisFacts.keys_distinct sha1_hex a b). }
  assert (Hm : mine.1 <> mine.2) by apply RedisFacts.keys_distinct.
  unfold acquired, released.
  rewrite !ScriptFacts.acquire_script_frame, !ScriptFacts.release_script_frame by done.
  done.
Qed.

Lemma scripts_leave_other_credentials_alone_witness :
  (Redis.REDIS_RELEASE_SCRIPT 0 (Redis.getRedisKeys (fun x => x) "session-a").1 ∅).2
    !! (Redis.getRedisKeys (fun x => x) "session-b").1
  = (∅ : gmap string Redis.Entry) !! (Redis.getRedisKeys (fun x => x) "session-b").1.
Proof.
  assert (Hab : (fun x : string => x) "session-a" <> (fun x : string => x) "session-b")
    by discriminate.
  exact (proj1 (proj2 (proj2
    (scripts_leave_other_credentials_alone (Config.constructor Config.default_env)
       (fun x => x) "session-a" "session-b" 0 0 ∅ Hab)))).
Defined.

(** X12: a grant followed by the release, before the inflight
    key expires, puts the inflight counter back where it was. *)
Theorem script_grant_release_round_trip t t' K K' nowMs minI maxC ttl ittl db :
  K <> K' ->
  0 <= default 0 (Redis.GET t K db) ->
  t <= t' < t + ttl ->
  let granted := Redis.REDIS_ACQUIRE_SCRIPT t K K' nowMs minI maxC ttl ittl db in
  Redis.granted granted.1 = 1 ->
  default 0 (Redis.GET t' K granted.2) = default 0 (Redis.GET t K db) + 1
  /\ default 0 (Redis.GET t' K (Redis.REDIS_RELEASE_SCRIPT t' K granted.2).2)
     = default 0 (Redis.GET t K db).
Proof.
  intros Hne Hnn Ht granted Hg.
  assert (Hafter : default 0 (Redis.GET t' K granted.2) = default 0 (Redis.GET t K db) + 1).
  { unfold granted in *. rewrite RedisFacts.acquire_script_spec in Hg |- * by done.
    cbv zeta in Hg |- *.
    destruct ((default 0 (Redis.GET t K db) <? maxC)
              && (default 0 (Redis.GET t K' db) <=? nowMs)).
    - cbn [snd]. unfold Redis.GET at 1. rewrite lookup_insert_eq.
      unfold Redis.live. cbn [Redis.expireAt Redis.value].
      replace (t' <=? t + ttl) with true by (symmetry; apply Z.leb_le; lia). done.
    - by destruct (default 0 (Redis.GET t K db) >=? maxC). }
  split; [done |].
  rewrite RedisFacts.release_script_counter, Hafter. lia.
Qed.

Lemma script_grant_release_round_trip_witness :
  default 0 (Redis.GET 1000 "k"
    (Redis.REDIS_RELEASE_SCRIPT 1000 "k"
       (Redis.REDIS_ACQUIRE_SCRIPT 0 "k" "n" 0 200 20 120000 60000 ∅).2).2)
  = default 0 (Redis.GET 0 "k" (∅ : gmap string Redis.Entry)).
Proof.
  assert (Hne : "k" <> "n") by discriminate.
  refine (proj2 (script_grant_release_round_trip 0 1000 "k" "n" 0 200 20 120000 60000 ∅
                   Hne _ _ _)); [vm_compute; discriminate | lia | reflexivity].
Defined.

(** X13: two grants of the acquire script for one
    credential are [minIntervalMs] apart by the callers' clocks, as long
    as the next-allowed-at key written by the first is still there,
    and unexpired, when the second runs. *)
Theorem script_grants_are_spaced t1 t2 K K' now1 now2 minI maxC ttl ittl db db2 :
  K <> K' ->
  t2 < t1 + ittl ->
  let first := Redis.REDIS_ACQUIRE_SCRIPT t1 K K' now1 minI maxC ttl ittl db in
  Redis.granted first.1 = 1 ->
  db2 !! K' = first.2 !! K' ->
  Redis.granted (Redis.REDIS_ACQUIRE_SCRIPT t2 K K' now2 minI maxC ttl ittl db2).1 = 1 ->
  now1 + minI <= now2.
Proof.
  intros Hne Ht first Hg1 Hkeep Hg2.
  destruct (script_grant_spacing t1 K K' now1 minI maxC ttl ittl db Hne Hg1) as [_ Hset].
  fold first in Hset. rewrite Hset in Hkeep.
  destruct (script_grant_spacing t2 K K' now2 minI maxC ttl ittl db2 Hne Hg2) as [Hle _].
  unfold Redis.GET in Hle. rewrite Hkeep in Hle. unfold Redis.live in Hle.
  cbn [Redis.expireAt Redis.value] in Hle.
  replace (t2 <=? t1 + ittl) with true in Hle by (symmetry; apply Z.leb_le; lia).
  done.
Qed.

Lemma script_grants_are_spaced_witness : 0 + 200 <= 200.
Proof.
  assert (Hne : "k" <> "n") by discriminate.
  refine (script_grants_are_spaced 0 1 "k" "n" 0 200 200 20 120000 60000 ∅
            (Redis.REDIS_ACQUIRE_SCRIPT 0 "k" "n" 0 200 20 120000 60000 ∅).2
            Hne _ _ _ _); [lia | reflexivity | reflexivity | reflexivity].
Defined.

(** * Further lemmas: the polling loop and the clock *)

Module PollFacts.
Import Redis RedisFacts Distributed DistributedFacts.

Section Window.
Variable cfg : Config.Settings.
Variable sha1_hex : string -> string.
Variable latency : nat -> nat.
Variable server_time : nat -> Z.
Variable fault : nat -> option Error.
Variable interference : nat -> gmap string Entry -> gmap string Entry.
Variable random : nat -> nat.
Hypothesis cfg_wf : Config.well_formed cfg.

Local Abbreviation poll := (poll cfg sha1_hex latency server_time fault interference random).
Local Abbreviation eval_acquire :=
  (eval_acquire cfg sha1_hex latency server_time fault interference).
Local Abbreviation sleep := (sleep latency).

Lemma eval_acquire_world sid nowMs w :
  now (eval_acquire sid nowMs w).2 = now w + Z.of_nat (latency (awaits w))
  /\ awaits (eval_acquire sid nowMs w).2 = S (awaits w).
Proof.
  unfold Distributed.eval_acquire. destruct (fault (awaits w)); cbn [snd now awaits]; [done |].
  destruct (getRedisKeys sha1_hex sid) as [K K'].
  by destruct (REDIS_ACQUIRE_SCRIPT _ _ _ _ _ _ _ _ _) as [reply db'].
Qed.

Lemma sleep_world ms w :
  0 < ms ->
  now (sleep ms w) = now w + ms + Z.of_nat (latency (awaits w))
  /\ awaits (sleep ms w) = S (awaits w).
Proof.
  intros Hms. unfold Distributed.sleep.
  destruct (ms <=? 0) eqn:E; [apply Z.leb_le in E; lia | done].
Qed.

(** Whatever the loop returns, it returns within one suspension of the
    deadline; and it reports a timeout only at or after the deadline. *)
Lemma poll_window fuel sid deadlineAt : forall w,
  (now w < deadlineAt
   \/ exists n, (n < awaits w)%nat /\ now w <= deadlineAt + Z.of_nat (latency n)) ->
  Z.max 0 (deadlineAt - now w) < Z.of_nat fuel ->
  let r := poll fuel sid deadlineAt w in
  (exists n, (n < awaits r.2)%nat /\ now r.2 <= deadlineAt + Z.of_nat (latency n))
  /\ (forall e, r.1 = Threw e ->
        (exists n, fault n = Some e)
        \/ (e = timeoutError sid (Config.queueTimeoutMs cfg) /\ deadlineAt <= now r.2)).
Proof.
  pose proof (Config.wf_poll cfg cfg_wf) as Hpoll.
  induction fuel as [|fuel IH]; intros w Hin Hfuel; [lia |].
  cbv zeta. cbn [Distributed.poll].
  destruct (now w >=? deadlineAt) eqn:Hdead.
  { apply Z.geb_le in Hdead. cbn [fst snd]. split.
    - destruct Hin as [Hlt | Hn]; [lia | done].
    - intros e [= <-]. right. split; [done | lia]. }
  rewrite Z.geb_leb in Hdead. apply Z.leb_gt in Hdead.
  destruct (eval_acquire_world sid (now w) w) as [Hnow1 Haw1].
  destruct (eval_acquire sid (now w) w) as [[e | result] w1] eqn:Heval; cbn [snd] in *.
  { cbn [fst snd]. split.
    - exists (awaits w). split; lia.
    - intros e0 [= <-]. left. exists (awaits w). by eapply eval_acquire_fault. }
  assert (Hw1 : exists n, (n < awaits w1)%nat /\ now w1 <= deadlineAt + Z.of_nat (latency n)).
  { exists (awaits w). split; lia. }
  destruct (granted result =? 1); [by split |].
  destruct (deadlineAt - now w1 <=? 0) eqn:Hleft.
  { apply Z.leb_le in Hleft. cbn [fst snd]. split; [done |].
    intros e [= <-]. right. split; [done | lia]. }
  apply Z.leb_gt in Hleft.
  destruct (String.eqb (reason result) "interval" && (Z.max 0 (waitMs result) >? 0))
    eqn:Hwait.
  - apply andb_true_iff in Hwait as [_ Hwait]. apply Z.gtb_lt in Hwait.
    set (ms := Z.min (Z.max 0 (waitMs result)) (deadlineAt - now w1)).
    destruct (sleep_world ms w1) as [Hn Ha]; [unfold ms; lia |].
    apply IH.
    + right. exists (awaits w1). split; [lia |]. unfold ms in *. lia.
    + unfold ms in *. lia.
  - set (ms := Z.min (Config.redisPollIntervalMs cfg + Z.of_nat (random (awaits w1) mod 40))
                 (deadlineAt - now w1)).
    destruct (sleep_world ms w1) as [Hn Ha]; [unfold ms; lia |].
    apply IH.
    + right. exists (awaits w1). split; [lia |]. unfold ms in *. lia.
    + unfold ms in *. lia.
Qed.

End Window.
End PollFacts.

(** * Further properties of distributed mode *)

(** X14: [acquireDistributed] keeps to the caller's deadline of
    [queueTimeoutMs].  Whatever it returns, it returns no later than one
    suspension (a Redis round trip or a timer wake-up) after the
    deadline; and when [redis.eval] itself never throws, an error it
    throws is the timeout error, thrown at or after the deadline. *)
Theorem acquireDistributed_keeps_deadline env sha1_hex latency server_time fault
    interference random sessionId w :
  let cfg := Config.constructor env in
  let deadlineAt := Distributed.now w + Config.queueTimeoutMs cfg in
  let r := Distributed.acquireDistributed cfg sha1_hex latency server_time fault
             interference random sessionId w in
  (exists n, (n < Distributed.awaits r.2)%nat
             /\ Distributed.now r.2 <= deadlineAt + Z.of_nat (latency n))
  /\ ((forall n, fault n = None) ->
      forall e, r.1 = Distributed.Threw e ->
        e = timeoutError sessionId (Config.queueTimeoutMs cfg)
        /\ deadlineAt <= Distributed.now r.2).
Proof.
  intros cfg deadlineAt r.
  pose proof (constructor_well_formed env) as Hwf.
  pose proof (Config.wf_timeout cfg Hwf) as Hq.
  destruct (PollFacts.poll_window cfg sha1_hex latency server_time fault interference random
              Hwf (S (Z.to_nat (Config.queueTimeoutMs cfg))) sessionId deadlineAt w)
    as [Hlate Hthrow].
  - left. unfold deadlineAt. lia.
  - unfold deadlineAt. lia.
  - split; [exact Hlate |]. intros Hok e He.
    destruct (Hthrow e He) as [[n Hn] | H]; [| done].
    rewrite Hok in Hn. discriminate.
Qed.

Lemma acquireDistributed_keeps_deadline_witness :
  let r := Distributed.acquireDistributed (Config.constructor one_at_a_time) (fun x => x)
             (fun _ => O) (fun _ => 0) (fun _ => None) (fun _ db => db) (fun _ => O)
             "session-a" saturated in
  timeoutError "session-a" 120000 = timeoutError "session-a" 120000
  /\ 0 + 120000 <= Distributed.now r.2.
Proof.
  intros r.
  apply (proj2 (acquireDistributed_keeps_deadline one_at_a_time (fun x => x)
                  (fun _ => O) (fun _ => 0) (fun _ => None) (fun _ db => db) (fun _ => O)
                  "session-a" saturated) (fun _ => eq_refl)
           (timeoutError "session-a" 120000)).
  vm_compute. reflexivity.
Defined.

(** X15: without a Redis URL, or with
    [SESSION_RATE_LIMIT_DISTRIBUTED=false], [acquire] is local admission
    and nothing else: it returns what the local limiter returns and
    neither connects, nor logs, nor waits. *)
Theorem acquire_without_redis_is_local env tick sha1_hex latency server_time fault
    interference random connect sessionId p :
  let cfg := Config.constructor env in
  Config.REDIS_URL env = ""
  \/ Config.SESSION_RATE_LIMIT_DISTRIBUTED env = Some "false" ->
  Distributed.acquire cfg tick sha1_hex latency server_time fault interference random
    connect sessionId p
  = match Local.acquire_local_mode cfg tick sessionId (Distributed.limiter p) with
    | (Local.Passthrough, _) => (Distributed.Passthrough, p)
    | (Local.Thrown e, l) =>
        (Distributed.LocalThrown e,
         {| Distributed.limiter := l; Distributed.world := Distributed.world p;
            Distributed.redis := Distributed.redis p; Distributed.logs := Distributed.logs p |})
    | (Local.Waiting w, l) =>
        (Distributed.LocalWaiting w,
         {| Distributed.limiter := l; Distributed.world := Distributed.world p;
            Distributed.redis := Distributed.redis p; Distributed.logs := Distributed.logs p |})
    end.
Proof.
  intros cfg Hoff.
  assert (Hlocal : Config.useRedisDistributed cfg = false).
  { unfold cfg. simpl. destruct Hoff as [-> | ->]; [by rewrite andb_false_r | done]. }
  unfold Distributed.acquire, Local.acquire_local_mode, Distributed.getRedisClient,
    Distributed.acquire_locally.
  rewrite Hlocal. cbn [negb].
  destruct (negb (Config.enabled cfg) || String.eqb sessionId ""); [done |].
  by destruct (Local.acquireLocal cfg tick sessionId (Distributed.limiter p)) as [[e | w] l].
Qed.

Lemma acquire_without_redis_is_local_witness :
  (Distributed.acquire (Config.constructor Config.default_env) (fun _ => O) (fun x => x)
     (fun _ => O) (fun _ => 0) (fun _ => None) (fun _ db => db) (fun _ => O) None
     "session-a" fresh_process).1
  = Distributed.LocalWaiting 0.
Proof.
  rewrite (acquire_without_redis_is_local Config.default_env (fun _ => O) (fun x => x)
             (fun _ => O) (fun _ => 0) (fun _ => None) (fun _ db => db) (fun _ => O) None
             "session-a" fresh_process); [| by left].
  vm_compute. reflexivity.
Defined.

(** X16: when distributed mode is configured and no client is
    connected yet, a [connect()] that throws costs the caller nothing: the
    limiter logs one warning with the error's message, admits the caller
    locally, and keeps no client, so that the next [acquire] tries to
    connect again. *)
Theorem connect_failure_falls_back env tick sha1_hex latency server_time fault
    interference random err sessionId p :
  let cfg := Config.constructor env in
  let p1 :=
    {| Distributed.limiter := Distributed.limiter p;
       Distributed.world := Distributed.world p;
       Distributed.redis := false;
       Distributed.logs :=
         Distributed.logs p
         ++ [("warn",
              "[SessionRateLimiter] redis unavailable, fallback to local mode: "
              +:+ message err)] |} in
  let r := Distributed.acquire cfg tick sha1_hex latency server_time fault interference
             random (Some err) sessionId p in
  Config.enabled cfg = true ->
  sessionId <> "" ->
  Config.useRedisDistributed cfg = true ->
  Distributed.redis p = false ->
  r = Distributed.acquire_locally cfg tick sessionId p1
  /\ Distributed.redis r.2 = false
  /\ Distributed.world r.2 = Distributed.world p
  /\ Distributed.logs r.2 = Distributed.logs p1
  /\ r.1 = match (Local.acquireLocal cfg tick sessionId (Distributed.limiter p)).1 with
           | inl e => Distributed.LocalThrown e
           | inr w => Distributed.LocalWaiting w
           end
  /\ Distributed.limiter r.2
     = (Local.acquireLocal cfg tick sessionId (Distributed.limiter p)).2
  /\ Distributed.limiter r.2
     = Local.step cfg tick (Distributed.limiter p) (Local.Acquire sessionId).
Proof.
  intros cfg p1 r Hen Hsid Hdist Hred.
  assert (Hr : r = Distributed.acquire_locally cfg tick sessionId p1).
  { unfold r, Distributed.acquire, Distributed.getRedisClient.
    rewrite Hen, Hdist, Hred. cbn [negb orb].
    by destruct (String.eqb_spec sessionId ""). }
  split; [done |]. rewrite Hr. rewrite DistributedFacts.acquire_locally_spec.
  cbn [fst snd Distributed.limiter Distributed.world Distributed.redis Distributed.logs].
  change (Distributed.limiter p1) with (Distributed.limiter p).
  repeat (split; [done |]).
  cbn [Local.step]. unfold Local.acquire_local_mode. rewrite Hen. cbn [negb orb].
  destruct (String.eqb_spec sessionId ""); [done |].
  by destruct (Local.acquireLocal cfg tick sessionId (Distributed.limiter p)) as [[e | w] l].
Qed.

Lemma connect_failure_falls_back_witness :
  let r :=
    Distributed.acquire (Config.constructor one_at_a_time) (fun _ => O) (fun x => x)
      (fun _ => O) (fun _ => 0) (fun _ => None) (fun _ db => db) (fun _ => O)
      (Some {| message := "connect ECONNREFUSED 10.0.0.5:6379" |}) "session-a"
      redis_down in
  Distributed.redis r.2 = false /\
  Distributed.limiter r.2
  = (Local.acquireLocal (Config.constructor one_at_a_time) (fun _ => O) "session-a"
       (Distributed.limiter redis_down)).2.
Proof.
  assert (Hsid : "session-a" <> "") by discriminate.
  pose proof (connect_failure_falls_back one_at_a_time (fun _ => O) (fun x => x)
                (fun _ => O) (fun _ => 0) (fun _ => None) (fun _ db => db) (fun _ => O)
                {| message := "connect ECONNREFUSED 10.0.0.5:6379" |} "session-a"
                redis_down eq_refl Hsid eq_refl eq_refl) as Hclaim.
  cbv zeta in Hclaim. destruct Hclaim as (_ & Hredis & _ & _ & _ & Hlimiter & _).
  split; [exact Hredis | exact Hlimiter].
Defined.

(** * Further lemmas: strings and field names *)

Module FieldFacts.
Import VideoRoute.

Lemma substring_all s : String.substring 0 (String.length s) s = s.
Proof. induction s as [|c s IH]; simpl; [done | by rewrite IH]. Qed.

Lemma prefix_split p : forall s,
  String.prefix p s = true ->
  s = p +:+ String.substring (String.length p) (String.length s - String.length p) s.
Proof.
  induction p as [|a p IH]; intros s H.
  - simpl. rewrite Nat.sub_0_r. by rewrite substring_all.
  - destruct s as [|c s]; [done |]. simpl in H.
    destruct (Ascii.ascii_dec a c) as [-> |]; [| done].
    simpl. change (String c p +:+ ?x) with (String c (p +:+ x)). f_equal. by apply IH.
Qed.

Lemma prefix_append p s : String.prefix p (p +:+ s) = true.
Proof.
  induction p as [|a p IH]; [by destruct s |].
  change (String a p +:+ s) with (String a (p +:+ s)). simpl.
  by destruct (Ascii.ascii_dec a a).
Qed.

Lemma substring_append p s :
  String.substring (String.length p) (String.length (p +:+ s) - String.length p) (p +:+ s)
  = s.
Proof.
  induction p as [|a p IH].
  - simpl. rewrite Nat.sub_0_r. apply substring_all.
  - change (String a p +:+ s) with (String a (p +:+ s)). simpl. apply IH.
Qed.

Lemma strip_prefix_Some p s d : strip_prefix p s = Some d -> s = p +:+ d.
Proof.
  unfold strip_prefix. destruct (String.prefix p s) eqn:H; [| done].
  intros [= <-]. by apply prefix_split.
Qed.

Lemma strip_prefix_append p d : strip_prefix p (p +:+ d) = Some d.
Proof. unfold strip_prefix. by rewrite prefix_append, substring_append. Qed.

Lemma material_index_spec digits :
  material_index digits = true
  <-> digits <> "" /\ exists idx, digits_value 0 digits = Some idx /\ 1 <= idx <= 9.
Proof.
  unfold material_index, MAX_OMNI_MATERIALS. destruct digits as [|c d]; [split; [done | by intros [? _]] |].
  destruct (digits_value 0 (String c d)) as [idx|].
  - rewrite andb_true_iff, !Z.leb_le. split.
    + intros H. split; [done |]. by exists idx.
    + intros [_ (idx' & [= <-] & H)]. done.
  - split; [done |]. by intros [_ (idx & ? & _)].
Qed.

End FieldFacts.

(** * Further properties of the video route *)

(** X18: the upload fields of the omni mode.  A field name is an
    omni material field exactly when it is [video_file], or
    [image_file_] or [video_file_] followed by a non-empty run of decimal
    digits whose number lies between 1 and 9. *)
Theorem omni_material_fields fieldName :
  VideoRoute.isOmniMaterialField fieldName = true
  <-> fieldName = "video_file"
      \/ exists digits,
           (fieldName = "image_file_" +:+ digits \/ fieldName = "video_file_" +:+ digits)
           /\ digits <> ""
           /\ exists idx, VideoRoute.digits_value 0 digits = Some idx /\ 1 <= idx <= 9.
Proof.
  unfold VideoRoute.isOmniMaterialField. split.
  - destruct (VideoRoute.strip_prefix "image_file_" fieldName) as [d|] eqn:Hi.
    { intros H. apply FieldFacts.material_index_spec in H. right. exists d.
      split; [left; by apply FieldFacts.strip_prefix_Some | done]. }
    destruct (String.eqb_spec fieldName "video_file") as [-> | _]; [by left |].
    destruct (VideoRoute.strip_prefix "video_file_" fieldName) as [d|] eqn:Hv; [| done].
    intros H. apply FieldFacts.material_index_spec in H. right. exists d.
    split; [right; by apply FieldFacts.strip_prefix_Some | done].
  - intros [-> | (d & [-> | ->] & Hd)].
    + reflexivity.
    + rewrite FieldFacts.strip_prefix_append. by apply FieldFacts.material_index_spec.
    + replace (VideoRoute.strip_prefix "image_file_" ("video_file_" +:+ d)) with
        (@None string) by reflexivity.
      replace (String.eqb ("video_file_" +:+ d) "video_file") with false
        by (by destruct d).
      rewrite FieldFacts.strip_prefix_append. by apply FieldFacts.material_index_spec.
Qed.

Module ChecksFacts.
Import VideoRoute.

Lemma filter_all {A} (f : A -> bool) (l : list A) :
  (length (List.filter f l) <? length l)%nat = false <-> Forall (fun x => f x = true) l.
Proof.
  rewrite Nat.ltb_ge. induction l as [|x l IH]; simpl; [split; [constructor | lia] |].
  pose proof (List.filter_length_le f l) as Hle.
  destruct (f x) eqn:Hx; simpl.
  - rewrite Forall_cons. split.
    + intros H. split; [done |]. apply IH. lia.
    + intros [_ H]. apply IH in H. lia.
  - split; [lia |]. rewrite Forall_cons. intros [H _]. congruence.
Qed.

Lemma first_failure_Some l key :
  first_failure l = Some key ->
  exists (i : nat),
    l !! i = Some (key, false)
    /\ forall (j : nat) k ok, (j < i)%nat -> l !! j = Some (k, ok) -> ok = true.
Proof.
  induction l as [|[k o] l IH]; [done |]. simpl. destruct o.
  - intros H. destruct (IH H) as (i & Hi & Hbefore). exists (S i). split; [done |].
    intros [|j] k0 ok Hj Hl; simpl in Hl; [by injection Hl as _ <- |].
    apply (Hbefore j k0); [lia | done].
  - intros [= <-]. exists O. split; [done |]. intros j k0 ok Hj. lia.
Qed.

(** The webhook step touches nothing but the log of webhooks. *)
Lemma dispatch_frame i b :
  generations (Spec.dispatch i b) = generations b
  /\ tasks (Spec.dispatch i b) = tasks b
  /\ nextTask (Spec.dispatch i b) = nextTask b
  /\ queue (Spec.dispatch i b) = queue b
  /\ errors (Spec.dispatch i b) = errors b
  /\ (tasks b !! i = None -> webhooks (Spec.dispatch i b) = webhooks b)
  /\ (length (webhooks (Spec.dispatch i b)) <= S (length (webhooks b)))%nat.
Proof.
  unfold Spec.dispatch. destruct (tasks b !! i) as [t|];
    [destruct (truthy (callback_url t)) |];
    cbn [sendWebhook generations tasks nextTask queue errors webhooks];
    rewrite ?length_app; cbn [length]; repeat split; try done; lia.
Qed.

End ChecksFacts.

Section VideoRouteMore.
Variable DEFAULT_MODEL : string.
Variable parseInt : string -> VideoRoute.JsNumber.
Variable pick_token : string -> string.
Variable generateVideo :
  VideoRoute.JsValue -> VideoRoute.JsValue -> VideoRoute.VideoOptions -> string -> nat ->
  (Error + VideoRoute.GeneratedVideo) * nat.
Variable parseProxyFromToken : string -> VideoRoute.JsValue.
Variable fetchFileBASE64 : VideoRoute.JsValue -> VideoRoute.JsValue -> Error + string.
Variable unixTimestamp : Z -> Z.
Variable validation_error : string -> Error.

Local Abbreviation work :=
  (VideoRoute.work generateVideo parseProxyFromToken fetchFileBASE64 unixTimestamp).
Local Abbreviation post_generations :=
  (VideoRoute.post_generations DEFAULT_MODEL parseInt pick_token generateVideo
     parseProxyFromToken fetchFileBASE64 unixTimestamp validation_error).

(** X19: what the explicit checks on the input material let
    through.  In the standard mode: at most two file paths and at most two
    uploaded files.  In the omni mode: at most nine file paths, at most
    nine uploaded files, every uploaded file under an omni material field,
    and at least one material of some kind.  The checks themselves never
    touch the backend. *)
Theorem material_checks_accepts req b :
  let paths := length (VideoRoute.array_items (VideoRoute.finalFilePaths req)) in
  let uploaded := VideoRoute.collectUploadedFileEntries (VideoRoute.files req) in
  ((VideoRoute.material_checks req b).1 = inr tt
   <-> if VideoRoute.isOmniMode req
       then (paths <= 9)%nat /\ (length uploaded <= 9)%nat
            /\ Forall (fun entry => VideoRoute.isOmniMaterialField entry.1 = true) uploaded
            /\ (uploaded <> [] \/ (0 < paths)%nat
                \/ VideoRoute.collectOmniBodyMaterialUrls (VideoRoute.body req) <> ∅)
       else (paths <= 2)%nat /\ (length uploaded <= 2)%nat)
  /\ (VideoRoute.material_checks req b).2 = b.
Proof.
  intros paths uploaded. split; [| apply material_checks_pure].
  unfold VideoRoute.material_checks, VideoRoute.materialUrls_of,
    VideoRoute.MAX_STANDARD_INPUT_IMAGES, VideoRoute.MAX_OMNI_MATERIALS.
  fold paths. fold uploaded.
  set (omni := List.filter (fun entry => VideoRoute.isOmniMaterialField entry.1) uploaded).
  pose proof (List.filter_length_le
                (fun entry => VideoRoute.isOmniMaterialField entry.1) uploaded) as Hle.
  fold omni in Hle.
  pose proof (ChecksFacts.filter_all
                (fun entry => VideoRoute.isOmniMaterialField entry.1) uploaded) as Hall.
  fold omni in Hall.
  destruct (VideoRoute.isOmniMode req); cbn [negb andb].
  - destruct (Z.of_nat paths >? 9) eqn:Hp.
    { apply Z.gtb_lt in Hp. split; [done | lia]. }
    rewrite Z.gtb_ltb in Hp. apply Z.ltb_ge in Hp.
    destruct (Z.of_nat (length omni) >? 9) eqn:Ho.
    { apply Z.gtb_lt in Ho. split; [done |]. intros (_ & Hu & Hf & _).
      apply Hall in Hf. apply Nat.ltb_ge in Hf. lia. }
    rewrite Z.gtb_ltb in Ho. apply Z.ltb_ge in Ho.
    destruct (length omni <? length uploaded)%nat eqn:Hf.
    { split; [done |]. intros (_ & _ & Hf' & _). apply Hall in Hf'. congruence. }
    pose proof Hf as Hlen. apply Nat.ltb_ge in Hlen.
    destruct (Z.of_nat (length omni) =? 0) eqn:Hz; cbn [andb].
    + apply Z.eqb_eq in Hz.
      assert (Hnil : uploaded = []) by (apply length_zero_iff_nil; lia).
      destruct (0 <? Z.of_nat paths) eqn:Hpos; cbn [negb andb].
      { apply Z.ltb_lt in Hpos. unfold VideoRoute.ret. cbn [fst].
        split; [| done]. intros _.
        split; [lia |]. split; [lia |]. split; [by apply Hall |]. right; left. lia. }
      apply Z.ltb_ge in Hpos.
      destruct (0 <? size (VideoRoute.collectOmniBodyMaterialUrls (VideoRoute.body req)))%nat
        eqn:Hm; cbn [negb].
      { apply Nat.ltb_lt in Hm. unfold VideoRoute.ret. cbn [fst]. split; [| done].
        intros _. split; [lia |]. split; [lia |]. split; [by apply Hall |]. right; right.
        intros E. rewrite E, map_size_empty in Hm. lia. }
      apply Nat.ltb_ge in Hm. split; [done |].
      intros (_ & _ & _ & [Hu | [Hpp | Hmm]]); exfalso; [done | lia |].
      apply Hmm. apply map_size_empty_inv. lia.
    + apply Z.eqb_neq in Hz. unfold VideoRoute.ret. cbn [fst]. split; [| done].
      intros _. split; [lia |]. split; [lia |]. split; [by apply Hall |]. left. intros E.
      rewrite E in Hle. simpl in Hle. lia.
  - destruct (Z.of_nat paths >? 2) eqn:Hp.
    { apply Z.gtb_lt in Hp. split; [done | lia]. }
    rewrite Z.gtb_ltb in Hp. apply Z.ltb_ge in Hp.
    destruct (Z.of_nat (length uploaded) >? 2) eqn:Hu.
    { apply Z.gtb_lt in Hu. split; [done | lia]. }
    rewrite Z.gtb_ltb in Hu. apply Z.ltb_ge in Hu.
    unfold VideoRoute.ret. cbn [fst]. split; [lia | done].
Qed.

(** X20: what a submission that passed the validators hands to
    [generateVideo]: a string prompt, a string model and response
    format, string ratio and resolution, a whole number of seconds
    between 4 and 15, an array of file paths, and one of the two function
    modes. *)
Theorem validated_request_is_typed req :
  VideoRoute.first_failure (VideoRoute.checks parseInt req) = None ->
  let o := VideoRoute.options_of parseInt req in
  VideoRoute.isString (VideoRoute.field req "prompt") = true
  /\ VideoRoute.isString
       (VideoRoute.or_default (VideoRoute.field req "model")
          (VideoRoute.JsString DEFAULT_MODEL)) = true
  /\ VideoRoute.isString
       (VideoRoute.or_default (VideoRoute.field req "response_format")
          (VideoRoute.JsString "url")) = true
  /\ VideoRoute.isString (VideoRoute.o_ratio o) = true
  /\ VideoRoute.isString (VideoRoute.o_resolution o) = true
  /\ (exists seconds,
        VideoRoute.o_duration o = VideoRoute.JsNum (VideoRoute.Integer seconds)
        /\ 4 <= seconds <= 15)
  /\ VideoRoute.isArray (VideoRoute.o_filePaths o) = true
  /\ (VideoRoute.o_functionMode o = VideoRoute.JsString "first_last_frames"
      \/ VideoRoute.o_functionMode o = VideoRoute.JsString "omni_reference")
  /\ VideoRoute.isString (VideoRoute.authorization req) = true.
Proof.
  intros Hvalid o.
  pose proof (RouteFacts.first_failure_None _ Hvalid) as Hall.
  pose proof (Hall 0%nat _ _ eq_refl) as Hmodel.
  pose proof (Hall 1%nat _ _ eq_refl) as Hprompt.
  pose proof (Hall 2%nat _ _ eq_refl) as Hratio.
  pose proof (Hall 3%nat _ _ eq_refl) as Hres.
  pose proof (Hall 4%nat _ _ eq_refl) as Hdur.
  pose proof (Hall 5%nat _ _ eq_refl) as Hfp1.
  pose proof (Hall 6%nat _ _ eq_refl) as Hfp2.
  pose proof (Hall 7%nat _ _ eq_refl) as Hmode.
  pose proof (Hall 8%nat _ _ eq_refl) as Hfmt.
  pose proof (Hall 23%nat _ _ eq_refl) as Hauth.
  clear Hall Hvalid.
  unfold VideoRoute.undefined_or in *.
  unfold o, VideoRoute.options_of. cbn [VideoRoute.o_ratio VideoRoute.o_resolution
    VideoRoute.o_duration VideoRoute.o_filePaths VideoRoute.o_functionMode].
  split; [done |].
  split; [by destruct (VideoRoute.field req "model") |].
  split; [by destruct (VideoRoute.field req "response_format") |].
  split; [by destruct (VideoRoute.field req "ratio") |].
  split; [by destruct (VideoRoute.field req "resolution") |].
  split.
  { unfold VideoRoute.finalDuration, VideoRoute.duration_ok in *.
    destruct (VideoRoute.field req "duration") as [| |x|n|x|l|]; cbn in Hdur |- *;
      try done.
    - exists 5. split; [done | lia].
    - destruct n as [n| | |]; try done. exists n. split; [done |].
      apply andb_true_iff in Hdur as [H1 H2]. apply Z.leb_le in H1, H2. lia.
    - destruct (VideoRoute.isMultiPart req); [| done].
      destruct (parseInt x) as [n| | |]; try done. exists n. split; [done |].
      apply andb_true_iff in Hdur as [H1 H2]. apply Z.leb_le in H1, H2. lia. }
  split.
  { unfold VideoRoute.finalFilePaths.
    destruct (VideoRoute.field req "file_paths"), (VideoRoute.field req "filePaths");
      cbn in Hfp1, Hfp2 |- *; try done; by case_match. }
  split; [| done].
  unfold VideoRoute.functionMode_of, VideoRoute.js_or.
  destruct (VideoRoute.field req "functionMode") as [| |x|n|x|l|]; cbn in Hmode |- *;
    try done; [by left |].
  apply orb_true_iff in Hmode as [H | H]; apply String.eqb_eq in H; subst x;
    [by left | by right].
Qed.

(** X21: a submission that fails a validator is answered with
    the error of the first failing key, in the order of the chain; one
    that fails a material check with the error of that check.  Either
    way the request is dropped before anything happens: no task, no
    queue entry, no upstream call, no webhook. *)
Theorem rejected_request_has_no_effect req b :
  (forall key,
     VideoRoute.first_failure (VideoRoute.checks parseInt req) = Some key ->
     post_generations req b = (inl (validation_error key), b)
     /\ exists (i : nat),
          VideoRoute.checks parseInt req !! i = Some (key, false)
          /\ forall (j : nat) k ok,
               (j < i)%nat -> VideoRoute.checks parseInt req !! j = Some (k, ok) ->
               ok = true)
  /\ (forall e,
        VideoRoute.first_failure (VideoRoute.checks parseInt req) = None ->
        (VideoRoute.material_checks req b).1 = inl e ->
        post_generations req b = (inl e, b)).
Proof.
  split.
  - intros key Hkey. split; [| by apply ChecksFacts.first_failure_Some].
    unfold VideoRoute.post_generations, VideoRoute.validate, VideoRoute.bind.
    by rewrite Hkey.
  - intros e Hvalid He.
    pose proof (material_checks_pure req b) as Hpure.
    unfold VideoRoute.post_generations, VideoRoute.validate, VideoRoute.bind.
    rewrite Hvalid. unfold VideoRoute.ret at 1.
    destruct (VideoRoute.material_checks req b) as [[e0 | []] b0]; cbn [fst snd] in *;
      [| done].
    congruence.
Qed.

(** X22: the closure of an asynchronous task keeps to its own
    task.  It calls [generateVideo] exactly once, whatever the outcome,
    changes no other task record, creates none, leaves the queue alone,
    logs at most one error, and sends at most one webhook. *)
Theorem work_keeps_to_its_task w b :
  let b' := (work w b).2 in
  VideoRoute.generations b' = S (VideoRoute.generations b)
  /\ (forall i, i <> VideoRoute.w_task w ->
        VideoRoute.tasks b' !! i = VideoRoute.tasks b !! i)
  /\ VideoRoute.nextTask b' = VideoRoute.nextTask b
  /\ VideoRoute.queue b' = VideoRoute.queue b
  /\ (length (VideoRoute.errors b') <= S (length (VideoRoute.errors b)))%nat
  /\ (length (VideoRoute.webhooks b') <= S (length (VideoRoute.webhooks b)))%nat.
Proof.
  intros b'. unfold b'. rewrite RouteFacts.work_spec. cbn [snd].
  destruct (RouteFacts.produce_frame generateVideo parseProxyFromToken fetchFileBASE64
              unixTimestamp (VideoRoute.w_model w) (VideoRoute.w_prompt w)
              (VideoRoute.w_options w) (VideoRoute.w_token w)
              (VideoRoute.w_response_format w)
              (VideoRoute.taskStore_update (VideoRoute.w_task w)
                 VideoRoute.processing_patch b))
    as (Ht & Hn & Hq & Hw & He & Hg).
  cbv zeta in Ht, Hn, Hq, Hw, He, Hg.
  set (b2 := Spec.settled generateVideo parseProxyFromToken fetchFileBASE64 unixTimestamp
               w b).
  assert (H2 : VideoRoute.generations b2 = S (VideoRoute.generations b)
               /\ (exists p1 p2,
                     VideoRoute.tasks b2
                     = alter (VideoRoute.apply_patch p2) (VideoRoute.w_task w)
                         (alter (VideoRoute.apply_patch p1) (VideoRoute.w_task w)
                            (VideoRoute.tasks b)))
               /\ VideoRoute.nextTask b2 = VideoRoute.nextTask b
               /\ VideoRoute.queue b2 = VideoRoute.queue b
               /\ (length (VideoRoute.errors b2) <= S (length (VideoRoute.errors b)))%nat
               /\ VideoRoute.webhooks b2 = VideoRoute.webhooks b).
  { unfold b2, Spec.settled.
    destruct (VideoRoute.produce _ _ _ _ _ _ _ _ _ _) as [[err | resultData] b1];
      cbn [snd] in *;
      cbn [VideoRoute.taskStore_update VideoRoute.logger_error VideoRoute.generations
           VideoRoute.tasks VideoRoute.nextTask VideoRoute.queue VideoRoute.errors
           VideoRoute.webhooks] in *;
      rewrite ?Ht, ?Hn, ?Hq, ?He, ?Hg, ?Hw, ?length_app; cbn [length];
      (split; [done |]); (split; [by eexists _, _ |]);
      (split; [done |]); (split; [done |]); (split; [lia | done]). }
  clearbody b2. destruct H2 as (Gg & (p1 & p2 & Gt) & Gn & Gq & Ge & Gw).
  pose proof (ChecksFacts.dispatch_frame (VideoRoute.w_task w) b2)
    as (Dg & Dt & Dn & Dq & De & Dw0 & Dw).
  rewrite Dg, Dt, Dn, Dq, De, Gg, Gt, Gn, Gq.
  split; [done |].
  split; [intros i Hi; by rewrite !lookup_alter_ne by done |].
  split; [done |]. split; [done |]. split; [done |]. by rewrite <- Gw.
Qed.

End VideoRouteMore.

Lemma validated_request_is_typed_witness :
  VideoRoute.isString (VideoRoute.field async_request "prompt") = true.
Proof.
  exact (proj1 (validated_request_is_typed "jimeng-video-3.0" (fun _ => VideoRoute.NaN)
                  async_request eq_refl)).
Defined.

Lemma rejected_request_has_no_effect_witness :
  VideoRoute.post_generations "jimeng-video-3.0" (fun _ => VideoRoute.NaN) (fun a => a)
    upstream_down (fun _ => VideoRoute.JsUndefined) (fun _ _ => inr "")
    (fun now => now / 1000) (fun key => {| message := key |})
    no_prompt_request empty_backend
  = (inl {| message := "body.prompt" |}, empty_backend).
Proof.
  exact (proj1 (proj1
    (rejected_request_has_no_effect "jimeng-video-3.0" (fun _ => VideoRoute.NaN)
       (fun a => a) upstream_down (fun _ => VideoRoute.JsUndefined) (fun _ _ => inr "")
       (fun now => now / 1000) (fun key => {| message := key |})
       no_prompt_request empty_backend) "body.prompt" eq_refl)).
Defined.

Lemma work_keeps_to_its_task_witness :
  VideoRoute.tasks
    (VideoRoute.work upstream_down (fun _ => VideoRoute.JsUndefined) (fun _ _ => inr "")
       (fun now => now / 1000) later_work empty_backend).2 !! 1%nat
  = VideoRoute.tasks empty_backend !! 1%nat.
Proof.
  assert (Hne : 1%nat <> VideoRoute.w_task later_work) by discriminate.
  exact (proj1 (proj2
    (work_keeps_to_its_task upstream_down (fun _ => VideoRoute.JsUndefined)
       (fun _ _ => inr "") (fun now => now / 1000) later_work empty_backend)) 1%nat Hne).
Defined.

(** * Further properties: the Redis client options and the uploader *)

(** X17: the Redis client gives up reconnecting after the
    fourth retry; until then it waits 300 ms times the number of the
    retry, at most 1200 ms, so that the cap of 1500 ms never applies. *)
Theorem retryStrategy_gives_up times :
  (Client.retryStrategy times = None <-> 4 < times)
  /\ (forall d, Client.retryStrategy times = Some d -> d = times * 300 /\ d <= 1200).
Proof.
  unfold Client.retryStrategy. destruct (times >? 4) eqn:H.
  - apply Z.gtb_lt in H. split; [done | done].
  - rewrite Z.gtb_ltb in H. apply Z.ltb_ge in H. split.
    + split; [done | lia].
    + intros d [= <-]. lia.
Qed.

Lemma retryStrategy_gives_up_witness : 900 = 3 * 300 /\ 900 <= 1200.
Proof. exact (proj2 (retryStrategy_gives_up 3) 900 eq_refl). Defined.

Module RetryFacts.
Import Uploader.

Section Retry.
Context {T : Type}.
Variable operation : nat -> NetError + T.
Variable warning : NetError -> Z -> string.
Variable maxRetries : Z.
Variable retryDelayMs : Z.

Lemma retry_loop_spec fuel : forall retries n,
  Z.max 0 (maxRetries - retries) < Z.of_nat fuel ->
  let r := retry_loop operation warning maxRetries retryDelayMs fuel retries n in
  exists k : nat,
    Z.of_nat k <= Z.max 0 (maxRetries - retries)
    /\ calls r.2 = (calls n + S k)%nat
    /\ slept r.2 = slept n + Z.of_nat k * retryDelayMs
    /\ length (warnings r.2) = (length (warnings n) + k)%nat
    /\ (forall i, (i < k)%nat ->
          exists e, operation (calls n + i)%nat = inl e
                    /\ isRetryableNetworkError e = true)
    /\ match operation (calls n + k)%nat with
       | inr x => r.1 = Value x
       | inl e =>
           r.1 = Raised e
           /\ (isRetryableNetworkError e = false \/ maxRetries <= retries + Z.of_nat k)
       end.
Proof.
  induction fuel as [|fuel IH]; intros retries n Hfuel; [lia |].
  cbv zeta. cbn [retry_loop].
  destruct (operation (calls n)) as [e | x] eqn:Hop.
  2: { exists O. cbn [fst snd calls slept warnings].
       replace (calls n + 0)%nat with (calls n) by lia. rewrite Hop.
       repeat split; try lia. }
  destruct (negb (isRetryableNetworkError e) || (retries >=? maxRetries)) eqn:Hstop.
  { exists O. cbn [fst snd calls slept warnings].
    replace (calls n + 0)%nat with (calls n) by lia. rewrite Hop.
    repeat split; try lia.
    apply orb_true_iff in Hstop as [H | H].
    - left. by apply negb_true_iff.
    - right. apply Z.geb_le in H. lia. }
  apply orb_false_iff in Hstop as [Hre Hmore].
  apply negb_false_iff in Hre. rewrite Z.geb_leb in Hmore. apply Z.leb_gt in Hmore.
  match goal with |- context [retry_loop _ _ _ _ fuel (retries + 1) ?n1] =>
    set (n' := n1) end.
  destruct (IH (retries + 1) n') as (k & Hk & Hc & Hs & Hw & Hbefore & Hlast); [lia |].
  cbv zeta in Hc, Hs, Hw, Hlast.
  exists (S k). unfold n' in *. cbn [calls slept warnings] in *.
  rewrite length_app in Hw. cbn [length] in Hw.
  split; [lia |]. split; [lia |]. split; [lia |]. split; [lia |]. split.
  - intros [|i] Hi.
    + rewrite Nat.add_0_r. by exists e.
    + replace (calls n + S i)%nat with (S (calls n) + i)%nat by lia.
      apply Hbefore. lia.
  - replace (calls n + S k)%nat with (S (calls n) + k)%nat by lia.
    destruct (operation (S (calls n) + k)%nat); [| done].
    destruct Hlast as [Hr Hwhy]. split; [done |]. destruct Hwhy; [by left | right; lia].
Qed.

End Retry.

Lemma credentials_in s : forall seen tail,
  credentials s seen = Some tail -> exists i, String.get i s = Some at_sign.
Proof.
  induction s as [|c s IH]; intros seen tail; [done |]. simpl.
  destruct (Ascii.eqb_spec c at_sign) as [-> | _]; [intros _; by exists O |].
  destruct (Ascii.eqb c slash); [done |].
  intros H. destruct (IH _ _ H) as [i Hi]. by exists (S i).
Qed.

Lemma credentials_run cred : forall seen tail,
  (forall i, String.get i cred <> Some at_sign) ->
  (forall i, String.get i cred <> Some slash) ->
  credentials (cred +:+ String at_sign tail) seen
  = if seen || negb (String.eqb cred EmptyString) then Some tail else None.
Proof.
  induction cred as [|c cred IH]; intros seen tail Hat Hsl.
  - simpl. rewrite orb_false_r. reflexivity.
  - change (String c cred +:+ ?x) with (String c (cred +:+ x)). cbn [credentials].
    destruct (Ascii.eqb_spec c at_sign) as [-> | _]; [by destruct (Hat O) |].
    destruct (Ascii.eqb_spec c slash) as [-> | _]; [by destruct (Hsl O) |].
    rewrite IH.
    + simpl. by rewrite orb_true_r.
    + intros i. apply (Hat (S i)).
    + intros i. apply (Hsl (S i)).
Qed.

End RetryFacts.

(** X23: [axiosWithRetry] ends with the outcome of its last call
    of the operation: the first success, the first error that is not a
    retryable network error, or the error of the call after the last
    permitted retry.  Every earlier call failed with a retryable error;
    there are at most [maxRetries] retries (three unless the options say
    otherwise, none when [maxRetries] is negative), and before each one
    the function logs one warning and sleeps [retryDelayMs] (five seconds
    unless the options say otherwise). *)
Theorem axiosWithRetry_bounded {T : Type} (operation : nat -> Uploader.NetError + T)
    warning options n :
  let maxRetries := default 3 (options ≫= Uploader.maxRetries) in
  let retryDelayMs := default 5000 (options ≫= Uploader.retryDelayMs) in
  let r := Uploader.axiosWithRetry operation warning options n in
  exists retries : nat,
    Z.of_nat retries <= Z.max 0 maxRetries
    /\ Uploader.calls r.2 = (Uploader.calls n + S retries)%nat
    /\ Uploader.slept r.2 = Uploader.slept n + Z.of_nat retries * retryDelayMs
    /\ length (Uploader.warnings r.2) = (length (Uploader.warnings n) + retries)%nat
    /\ (forall i, (i < retries)%nat ->
          exists e, operation (Uploader.calls n + i)%nat = inl e
                    /\ Uploader.isRetryableNetworkError e = true)
    /\ match operation (Uploader.calls n + retries)%nat with
       | inr x => r.1 = Uploader.Value x
       | inl e =>
           r.1 = Uploader.Raised e
           /\ (Uploader.isRetryableNetworkError e = false
               \/ maxRetries <= Z.of_nat retries)
       end.
Proof.
  intros maxRetries retryDelayMs r.
  destruct (RetryFacts.retry_loop_spec operation warning maxRetries retryDelayMs
              (S (Z.to_nat maxRetries)) 0 n) as (k & Hk & H); [lia |].
  exists k. rewrite Z.sub_0_r in Hk. split; [done |]. exact H.
Qed.

(** X24: [maskProxyUrl] hides the credentials of a proxy URL and
    nothing else.  A URL whose scheme has no slash and whose user
    information is non-empty loses exactly that part; a URL without [@]
    comes back unchanged. *)
Theorem maskProxyUrl_hides_credentials :
  (forall scheme cred tail,
     (forall i, String.get i scheme <> Some Uploader.slash) ->
     cred <> EmptyString ->
     (forall i, String.get i cred <> Some Uploader.at_sign) ->
     (forall i, String.get i cred <> Some Uploader.slash) ->
     Uploader.maskProxyUrl (scheme +:+ "//" +:+ cred +:+ String Uploader.at_sign tail)
     = scheme +:+ "//***@" +:+ tail)
  /\ (forall proxyUrl,
        (forall i, String.get i proxyUrl <> Some Uploader.at_sign) ->
        Uploader.maskProxyUrl proxyUrl = proxyUrl).
Proof.
  split.
  - intros scheme cred tail Hscheme Hcred Hat Hsl.
    induction scheme as [|c scheme IH].
    + change (EmptyString +:+ ?x) with x.
      change ("//" +:+ ?x) with (String Uploader.slash (String Uploader.slash x)).
      cbn [Uploader.maskProxyUrl]. rewrite !Ascii.eqb_refl.
      rewrite RetryFacts.credentials_run by done.
      replace (String.eqb cred EmptyString) with false
        by (symmetry; by apply String.eqb_neq).
      reflexivity.
    + change (String c scheme +:+ ?x) with (String c (scheme +:+ x)).
      cbn [Uploader.maskProxyUrl].
      destruct (Ascii.eqb_spec c Uploader.slash) as [-> | _]; [by destruct (Hscheme O) |].
      f_equal. apply IH. intros i. apply (Hscheme (S i)).
  - intros proxyUrl. induction proxyUrl as [|c rest IH]; intros Hat; [done |].
    assert (Hrest : Uploader.maskProxyUrl rest = rest).
    { apply IH. intros i. apply (Hat (S i)). }
    cbn [Uploader.maskProxyUrl]. fold Uploader.maskProxyUrl.
    destruct (Ascii.eqb c Uploader.slash); [| by rewrite Hrest].
    destruct rest as [|c' rest']; [done |].
    destruct (Ascii.eqb c' Uploader.slash); [| by rewrite Hrest].
    destruct (Uploader.credentials rest' false) as [tail|] eqn:Hc; [| by rewrite Hrest].
    destruct (RetryFacts.credentials_in _ _ _ Hc) as [i Hi].
    by destruct (Hat (S (S i))).
Qed.

Lemma maskProxyUrl_hides_credentials_witness :
  Uploader.maskProxyUrl "socks5://10.0.0.1:1080" = "socks5://10.0.0.1:1080".
Proof.
  apply (proj2 maskProxyUrl_hides_credentials).
  intros i. do 23 (destruct i as [|i]; [discriminate |]). discriminate.
Defined.

Lemma axiosWithRetry_bounded_witness :
  (Uploader.axiosWithRetry flaky_upload (fun e _ => Uploader.emessage e) None quiet_net).1
  = Uploader.Value "tos-cn-i-a9rns2rl98/5f1c2e"
  /\ exists retries : nat,
       Z.of_nat retries <= 3
       /\ Uploader.calls
            (Uploader.axiosWithRetry flaky_upload (fun e _ => Uploader.emessage e) None
               quiet_net).2
          = (0 + S retries)%nat.
Proof.
  split; [vm_compute; reflexivity |].
  destruct (axiosWithRetry_bounded flaky_upload (fun e _ => Uploader.emessage e) None
              quiet_net) as (retries & Hle & Hc & _).
  by exists retries.
Defined.

(** * Further properties: the deadline of a wait *)

(** X25: [acquireLocal] puts the waiter in the queue together
    with a timer of [queueTimeoutMs], armed in the call itself, and every
    queued waiter of a reachable state has that timer pending, for the
    credential its bucket is registered under.  When the timer of a
    queued waiter expires, the waiter alone leaves the queue, the others
    keeping their order, and its promise is rejected with the timeout
    error; no other bucket, promise or timer changes.  In
    [acquireDistributed] the deadline is [queueTimeoutMs] after the call,
    an iteration of the polling loop that starts at or after it throws
    the timeout error, and the loop always ends: with a grant, with the
    timeout error, or with what [redis.eval] threw. *)
Theorem wait_deadline_local_and_polling env tick start evs sha1_hex latency server_time
    fault interference random :
  let cfg := Config.constructor env in
  let s := Local.run cfg tick start evs in
  let timeout sessionId := timeoutError sessionId (Config.queueTimeoutMs cfg) in
  (forall sessionId s0,
     let bucket := (Local.getBucket sessionId s0).1 in
     let s1 := (Local.getBucket sessionId s0).2 in
     Z.of_nat (length (Local.queue (Local.deref s1 bucket)))
     < Config.maxQueuePerSession cfg ->
     exists s4,
       Local.acquireLocal cfg tick sessionId s0
       = (inr (Local.nextWaiter s1), Local.processQueue cfg tick sessionId bucket s4)
       /\ Local.timers s4 !! Local.nextHandle s1
          = Some {| Local.delay := Config.queueTimeoutMs cfg;
                    Local.callback :=
                      Local.WaiterTimeout sessionId bucket (Local.nextWaiter s1) |}
       /\ Local.queue (Local.deref s4 bucket)
          = (Local.queue (Local.deref s1 bucket)
             ++ [{| Local.wid := Local.nextWaiter s1;
                    Local.timeoutHandle := Some (Local.nextHandle s1) |}])%list
       /\ Local.clock s4 = Local.clock s0)
  /\ (forall bucket waiter,
        waiter ∈ Local.queue (Local.deref s bucket) ->
        exists h sessionId,
          Local.timeoutHandle waiter = Some h /\
          Local.buckets s !! sessionId = Some bucket /\
          Local.timers s !! h
          = Some {| Local.delay := Config.queueTimeoutMs cfg;
                    Local.callback :=
                      Local.WaiterTimeout sessionId bucket (Local.wid waiter) |})
  /\ (forall bucket sessionId (index : nat) waiter h,
        Local.buckets s !! sessionId = Some bucket ->
        Local.queue (Local.deref s bucket) !! index = Some waiter ->
        Local.timeoutHandle waiter = Some h ->
        let s' := Local.fire cfg tick h s in
        Local.deref s' bucket
        = Local.with_queue (delete index (Local.queue (Local.deref s bucket)))
            (Local.deref s bucket)
        /\ Local.promises s' !! Local.wid waiter = Some (Local.Rejected (timeout sessionId))
        /\ (forall w, w <> Local.wid waiter -> Local.promises s' !! w = Local.promises s !! w)
        /\ (forall bucket0, bucket0 <> bucket -> Local.deref s' bucket0 = Local.deref s bucket0)
        /\ (forall h0, h0 <> h -> Local.timers s' !! h0 = Local.timers s !! h0)
        /\ Local.releases s' = Local.releases s)
  /\ (forall sessionId w,
        Distributed.acquireDistributed cfg sha1_hex latency server_time fault interference
          random sessionId w
        = Distributed.poll cfg sha1_hex latency server_time fault interference random
            (S (Z.to_nat (Config.queueTimeoutMs cfg))) sessionId
            (Distributed.now w + Config.queueTimeoutMs cfg) w)
  /\ (forall fuel sessionId deadlineAt w,
        deadlineAt <= Distributed.now w ->
        Distributed.poll cfg sha1_hex latency server_time fault interference random
          (S fuel) sessionId deadlineAt w
        = (Distributed.Threw (timeout sessionId), w))
  /\ (forall sessionId w,
        let r := Distributed.acquireDistributed cfg sha1_hex latency server_time fault
                   interference random sessionId w in
        r.1 = Distributed.Granted (Redis.getRedisKeys sha1_hex sessionId).1 \/
        r.1 = Distributed.Threw (timeout sessionId) \/
        exists n e, fault n = Some e /\ r.1 = Distributed.Threw e).
Proof.
  intros cfg s timeout. pose proof (constructor_well_formed env) as Hwf.
  pose proof (LocalFacts.Inv_run cfg tick Hwf start evs) as HI. fold s in HI.
  repeat apply conj.
  - intros sessionId s0 bucket s1 Hroom.
    exists (Spec.enqueued cfg sessionId bucket s1).
    destruct (LocalFacts.enqueued_spec cfg sessionId bucket s1) as (Ht & Hq & Hc).
    cbv zeta in Ht, Hq, Hc. split; [| split; [done | split; [done |]]].
    + rewrite (LocalFacts.acquireLocal_unfold cfg tick Hwf). cbv zeta.
      fold bucket. fold s1.
      replace (Z.of_nat (length (Local.queue (Local.deref s1 bucket)))
               >=? Config.maxQueuePerSession cfg) with false; [done |].
      symmetry. rewrite Z.geb_leb. apply Z.leb_gt. lia.
    + rewrite Hc. unfold s1, Local.getBucket. by destruct (Local.buckets s0 !! sessionId).
  - intros bucket waiter Hw.
    destruct (Spec.inv_deadline _ _ _ HI _ _ Hw) as (h & sid & Hh & Ht).
    exists h, sid. split; [done |]. split; [| done].
    apply (Spec.inv_busy _ _ _ HI); [by eapply (Spec.inv_waiter_timeout _ _ _ HI) |].
    apply LocalFacts.busy_true. right; left.
    intros Hq. rewrite Hq in Hw. by apply elem_of_nil in Hw.
  - intros bucket sessionId index waiter h Hreg Hi Hh s'.
    pose proof (Spec.inv_registry _ _ _ HI _ _ Hreg) as Ho.
    assert (Hw : waiter ∈ Local.queue (Local.deref s bucket))
      by (by eapply list_elem_of_lookup_2).
    destruct (Spec.inv_deadline _ _ _ HI _ _ Hw) as (h' & sid & Hh' & Ht).
    assert (h' = h) as -> by congruence.
    assert (sid = sessionId) as ->.
    { pose proof (Spec.inv_waiter_timeout _ _ _ HI _ _ _ _ _ Ht). congruence. }
    pose proof (LocalFacts.indexOf_lookup _ _ _ (Spec.inv_nodup _ _ _ HI bucket) Hi)
      as Hidx.
    destruct (LocalFacts.fire_waiter_timeout cfg tick _ _ _ _ _ _ _ HI Ht Hidx)
      as (Hd & Hothers & Hp & Htm & Hrel).
    fold s' in Hd, Hothers, Hp, Htm, Hrel.
    split; [done |]. split; [by rewrite Hp, lookup_insert_eq |].
    split; [intros w Hne; by rewrite Hp, lookup_insert_ne |].
    split; [done |]. split; [| done].
    intros h0 Hne. by rewrite Htm, lookup_delete_ne.
  - done.
  - intros fuel sessionId deadlineAt w Hpast. by apply DistributedFacts.poll_past_deadline.
  - intros sessionId w. by apply DistributedFacts.acquireDistributed_result.
Qed.

(** The first of two queued waiters times out; the second stays. *)
Lemma wait_deadline_local_and_polling_witness :
  let cfg := Config.constructor two_in_queue in
  let s := Local.run cfg (fun _ => O) 1700000000000 two_waiting in
  let s' := Local.fire cfg (fun _ => O) 1 s in
  Local.queue (Local.deref s 0)
  = [{| Local.wid := 1; Local.timeoutHandle := Some 1%nat |};
     {| Local.wid := 2; Local.timeoutHandle := Some 2%nat |}] /\
  Local.deref s' 0
  = Local.with_queue [{| Local.wid := 2; Local.timeoutHandle := Some 2%nat |}]
      (Local.deref s 0) /\
  Local.promises s' !! 1%nat
  = Some (Local.Rejected (timeoutError "session-a" 120000)).
Proof.
  intros cfg s s'. split; [vm_compute; reflexivity |].
  destruct (wait_deadline_local_and_polling two_in_queue (fun _ => O) 1700000000000
              two_waiting (fun x => x) (fun _ => O) (fun _ => 0) (fun _ => None)
              (fun _ db => db) (fun _ => O)) as (_ & _ & Hfire & _).
  destruct (Hfire 0%nat "session-a" 0%nat
              {| Local.wid := 1; Local.timeoutHandle := Some 1%nat |} 1%nat)
    as (Hd & Hp & _); [vm_compute; reflexivity .. |].
  split; [exact Hd | exact Hp].
Defined.
